(** * cryptox: keystore codec and NEO transaction engine

    A shallow embedding of the Go sources of the repository
    (keystore/web3keystore.go, the [neo] transaction builder and its
    wire format, eth/key.go, the [wif] importer) and the properties
    stated about them.

    Conventions.
    - A Go [[]byte] is a [list byte]; a Go [string] is a [string]
      (both are sequences of 8-bit values).
    - A Go [float64] is a primitive binary64 float ([PrimFloat.float]):
      the same IEEE 754 format with round-to-nearest-even.
    - A Go function that returns [(T, error)] returns a [result T]; a
      run-time panic (a failed type assertion, a slice out of range) is
      the separate outcome [Panic].
    - A slice the callee reorders in place is passed in and handed back:
      the function returns the new content of the caller's slice next to
      its own results. *)

From Stdlib Require Import ZArith Lia List Bool String Ascii Floats.
From Stdlib Require Import Permutation Nnat.
From Stdlib.Strings Require Import Byte.
Import ListNotations.

Set Warnings "-inexact-float,-register-all".

(* ================================================================= *)
(** ** Go values shared by the packages *)

Module Go.

(** The errors the modelled code returns, by the place that builds them. *)
Inductive error : Type :=
| ErrNoUTXO                                   (* neo: "no enough utxo" *)
| ErrParseFloat (s : string)                  (* strconv.ParseFloat, through UTXO.Value *)
| ErrHexLength                                (* hex.ErrLength *)
| ErrHexInvalidByte (b : byte)                (* hex.InvalidByteError *)
| ErrJSON (msg : string)                      (* encoding/json *)
| ErrVersion                                  (* "cryptox library only support keystore version 3" *)
| ErrCipher (cipher : string)                 (* "Cipher not supported: %v" *)
| ErrDecrypt (calculatedMAC mac : list byte)  (* ErrDecrypt and the two MACs in hex *)
| ErrUnsupportedPRF (prf : string)            (* "Unsupported PBKDF2 PRF: %s" *)
| ErrUnsupportedKDF (kdf : string)            (* "Unsupported KDF: %s" *)
| ErrScrypt (msg : string)                    (* scrypt.Key *)
| ErrAESKeySize (n : nat).                    (* aes.KeySizeError *)

Inductive result (A : Type) : Type :=
| OK (a : A)
| Err (e : error)
| Panic (msg : string).

Arguments OK {A} a.
Arguments Err {A} e.
Arguments Panic {A} msg.

Definition bind {A B : Type} (r : result A) (k : A -> result B) : result B :=
  match r with
  | OK a => k a
  | Err e => Err e
  | Panic m => Panic m
  end.

(** [byte(x)] on an integer: the low eight bits. *)
Definition byte_of_Z (z : Z) : byte :=
  match Byte.of_N (Z.to_N (z mod 256)) with
  | Some b => b
  | None => x00
  end.

Definition Z_of_byte (b : byte) : Z := Z.of_N (Byte.to_N b).

(** [uint16(x)]: the low sixteen bits. *)
Definition uint16 (z : Z) : Z := z mod 65536.

(** [strings.TrimPrefix]. *)
Definition strings_TrimPrefix (s prefix : string) : string :=
  if String.prefix prefix s
  then String.substring (String.length prefix) (String.length s - String.length prefix) s
  else s.

(** *** encoding/hex *)

Definition hextable : list byte :=
  [x30; x31; x32; x33; x34; x35; x36; x37; x38; x39; x61; x62; x63; x64; x65; x66].

Definition fromHexChar (c : byte) : option N :=
  match c with
  | x30 => Some 0%N | x31 => Some 1%N | x32 => Some 2%N | x33 => Some 3%N
  | x34 => Some 4%N | x35 => Some 5%N | x36 => Some 6%N | x37 => Some 7%N
  | x38 => Some 8%N | x39 => Some 9%N
  | x61 => Some 10%N | x62 => Some 11%N | x63 => Some 12%N
  | x64 => Some 13%N | x65 => Some 14%N | x66 => Some 15%N
  | x41 => Some 10%N | x42 => Some 11%N | x43 => Some 12%N
  | x44 => Some 13%N | x45 => Some 14%N | x46 => Some 15%N
  | _ => None
  end.

Definition hex_digit (n : N) : byte := nth (N.to_nat n) hextable x30.

(** [hex.Encode]: two lower-case digits per byte, high nibble first. *)
Fixpoint hex_Encode (src : list byte) : list byte :=
  match src with
  | [] => []
  | v :: src' =>
      hex_digit (Byte.to_N v / 16) :: hex_digit (Byte.to_N v mod 16) :: hex_Encode src'
  end.

Definition hex_EncodeToString (src : list byte) : string :=
  string_of_list_byte (hex_Encode src).

(** [hex.Decode]: pairs of digits of either case; a character that is
    no digit is reported before an odd length. *)
Fixpoint hex_Decode (src : list byte) : result (list byte) :=
  match src with
  | [] => OK []
  | p :: [] =>
      match fromHexChar p with
      | None => Err (ErrHexInvalidByte p)
      | Some _ => Err ErrHexLength
      end
  | p :: q :: src' =>
      match fromHexChar p, fromHexChar q with
      | None, _ => Err (ErrHexInvalidByte p)
      | Some _, None => Err (ErrHexInvalidByte q)
      | Some a, Some b =>
          bind (hex_Decode src') (fun rest => OK (byte_of_Z (Z.of_N (a * 16 + b)) :: rest))
      end
  end.

Definition hex_DecodeString (s : string) : result (list byte) :=
  hex_Decode (list_byte_of_string s).

(** [binary.LittleEndian.PutUint16] and [PutUint64] on a fresh slice. *)
Definition PutUint16 (v : Z) : list byte :=
  [byte_of_Z v; byte_of_Z (Z.shiftr v 8)].

Definition PutUint64 (v : Z) : list byte :=
  map (fun k => byte_of_Z (Z.shiftr v (8 * Z.of_nat k))) (seq 0 8).

(** Two literals are different numbers. *)
Ltac float_discriminate H :=
  match type of H with
  | ?x = ?y =>
      let E := fresh in
      assert (E : (x =? y)%float = (y =? y)%float) by (rewrite H at 1; reflexivity);
      vm_compute in E; discriminate E
  end.

(** The least exponent of a binary64 mantissa. *)
Definition emin64 : Z := SpecFloat.emin prec emax.

(** *** sort.Sort

    The standard library sorts the slice in place, and not stably.  A
    slice of at most six elements it sorts by insertion alone (from
    Go 1.19 on, one of at most twelve):
    [for i := a+1; i < b; i++ { for j := i; j > a && Less(j, j-1); j-- { Swap(j, j-1) } }].
    The model is this insertion sort at every length.  [insertLeft less x rp]
    is the inner loop: [rp] is the part of the slice left of [x], nearest
    element first; [x] moves left past every neighbour it is less
    than. *)
Fixpoint insertLeft {A : Type} (less : A -> A -> bool) (x : A) (rp : list A) : list A :=
  match rp with
  | [] => [x]
  | y :: rp' => if less x y then y :: insertLeft less x rp' else x :: rp
  end.

Definition insertionSort {A : Type} (less : A -> A -> bool) (data : list A) : list A :=
  rev (fold_left (fun rp x => insertLeft less x rp) data []).

Definition sort_Sort {A : Type} (less : A -> A -> bool) (data : list A) : list A :=
  insertionSort less data.

(** No element is less than the one before it. *)
Fixpoint in_order {A : Type} (less : A -> A -> bool) (data : list A) : bool :=
  match data with
  | a :: (b :: _) as rest => negb (less b a) && in_order less rest
  | _ => true
  end.

(** The same for a slice held last element first. *)
Fixpoint in_order_rev {A : Type} (less : A -> A -> bool) (rp : list A) : bool :=
  match rp with
  | b :: (a :: _) as rest => negb (less b a) && in_order_rev less rest
  | _ => true
  end.

(** *** Byte strings of one length

    Every byte, and every byte string of [n] bytes: what there is to
    count when strings of one length are sent to strings of another. *)
Definition all_bytes : list byte := map (fun n => byte_of_Z (Z.of_nat n)) (seq 0 256).

Fixpoint all_lists (n : nat) : list (list byte) :=
  match n with
  | O => [[]]
  | S n' => flat_map (fun b => map (cons b) (all_lists n')) all_bytes
  end.

End Go.

Import Go.

(* ================================================================= *)
(** ** Package neo: raw transactions and UTXO selection *)

Module Neo.

Open Scope float_scope.

(** [neogo.UTXO] belongs to another repository.  The model keeps the
    fields this package reads and what the method [Value()] returns for
    the entry: a [float64] and an error, as [strconv.ParseFloat] gives
    them (the number is returned, and used by [Less], also when the
    error is set).  The slices of the package hold pointers to entries
    ([[]*neogo.UTXO]); the model holds the entries themselves, so a
    slice with a nil pointer in it, on which [Value()] and the reads of
    the fields panic, is outside the model. *)
Record UTXO : Type := {
  TransactionID : string;
  Vout_N : Z;
  SpentBlock : Z;
  Value_float : float;
  Value_err : option error
}.

Definition UTXO_Value (utxo : UTXO) : float * option error :=
  (Value_float utxo, Value_err utxo).

Definition GasAssert : string :=
  "602c79718b16e442de58778e148d0b1084e3b2dffd5de6b7b16cee7969282de7".
Definition NEOAssert : string :=
  "c56f33fc6ecfcd0c225c4ab356fee59390af8560be0e930faebe74a6daff7c9b".

Definition ClaimTransaction : byte := x02.
Definition ContractTransaction : byte := x80.

Record RawTxAttr : Type := { Usage : byte; Data : list byte }.

Record RawTxInput : Type := { TxID : string; Vout : Z }.

Record RawTxOutput : Type := { AssertID : string; Value : float; Address : string }.

Record RawTxScript : Type := { StackScript : list byte; RedeemScript : list byte }.

(** [XData] is a closure in the source; the only one built
    ([NewRawClaimTx]) writes the claim list of its transaction, so the
    field holds that list. *)
Record RawTx : Type := {
  TxType : byte;
  Version : byte;
  XData : option (list RawTxInput);
  Attributes : list RawTxAttr;
  Inputs : list RawTxInput;
  Outputs : list RawTxOutput;
  Scripts : list RawTxScript
}.

Definition NewRawTx (txType : byte) : RawTx :=
  {| TxType := txType; Version := x00; XData := None;
     Attributes := []; Inputs := []; Outputs := []; Scripts := [] |}.

(** *** reverseBytes *)

Definition set_index (s : list byte) (i : nat) (v : byte) : list byte :=
  firstn i s ++ v :: skipn (S i) s.

(** [s[i], s[j] = s[j], s[i]] for indices in range. *)
Definition swap (s : list byte) (i j : nat) : list byte :=
  match nth_error s i, nth_error s j with
  | Some a, Some b => set_index (set_index s i b) j a
  | _, _ => s
  end.

(** [for i, j := 0, len(s)-1; i < j; i, j = i+1, j-1 { swap }]; the loop
    runs at most [len(s)] times. *)
Fixpoint reverseBytes_loop (fuel : nat) (i j : Z) (s : list byte) : list byte :=
  match fuel with
  | O => s
  | S fuel' =>
      if (i <? j)%Z
      then reverseBytes_loop fuel' (i + 1)%Z (j - 1)%Z (swap s (Z.to_nat i) (Z.to_nat j))
      else s
  end.

Definition reverseBytes (s : list byte) : list byte :=
  reverseBytes_loop (List.length s) 0%Z (Z.of_nat (List.length s) - 1)%Z s.

(** *** RawTxInput.WriteBytes

    The writer is a [bytes.Buffer]: [writer] is its content, a write
    appends and does not fail.  The function returns the content after
    the call and the error. *)
Definition RawTxInput_WriteBytes (input : RawTxInput) (writer : list byte)
  : list byte * option error :=
  match hex_DecodeString (strings_TrimPrefix (TxID input) "0x") with
  | OK data =>
      let writer := writer ++ reverseBytes data in
      let data := PutUint16 (Vout input) in
      let writer := writer ++ data in
      (writer, None)
  | Err err => (writer, Some err)
  | Panic _ => (writer, None)
  end.

(** *** The amount field of an output

    [RawTxOutput.WriteBytes] writes [uint64(math.Floor(output.Value * 100000000))]
    as eight bytes, low byte first.  [floor_Z] is [math.Floor] read as an
    integer; [amount_units] is the integer written, [None] where the
    conversion to [uint64] is left to the implementation (a negative
    number, one of 2^64 or more, no number). *)
Definition floor_Z (x : float) : option Z :=
  match Prim2SF x with
  | S754_zero _ => Some 0%Z
  | S754_finite s m e =>
      let signed := if s then Z.neg m else Z.pos m in
      Some (if (0 <=? e)%Z then signed * 2 ^ e else signed / 2 ^ (- e))%Z
  | _ => None
  end.

Definition amount_units (value : float) : option Z :=
  match floor_Z (value * 100000000) with
  | Some v => if ((0 <=? v) && (v <? 2 ^ 64))%Z then Some v else None
  | None => None
  end.

Definition amount_field (output : RawTxOutput) : option (list byte) :=
  option_map PutUint64 (amount_units (Value output)).

(** *** UTXO selection *)

Definition utxoSorter_Less (a b : UTXO) : bool :=
  let ival := fst (UTXO_Value a) in
  let jval := fst (UTXO_Value b) in
  ival <? jval.

(** The loop of [CalcTxInput]: [selected] and [vinvalue] are the two
    locals; [vinvalue, err = utxo.Value()] overwrites [vinvalue] at every
    entry. *)
Fixpoint CalcTxInput_loop (amount : float) (unspent : list UTXO)
    (selected : list UTXO) (vinvalue : float) : result (list UTXO * float) :=
  match unspent with
  | [] => OK (selected, vinvalue)
  | utxo :: rest =>
      let selected := selected ++ [utxo] in
      let (vinvalue, err) := UTXO_Value utxo in
      match err with
      | Some e => Err e
      | None =>
          if amount <? vinvalue
          then OK (selected, vinvalue)
          else CalcTxInput_loop amount rest selected vinvalue
      end
  end.

(** [CalcTxInput]: first component, the caller's slice after the call. *)
Definition CalcTxInput (amount : float) (unspent : list UTXO)
  : list UTXO * result (list UTXO * float) :=
  let unspent := sort_Sort utxoSorter_Less unspent in
  (unspent, CalcTxInput_loop amount unspent [] 0).

Definition input_of_utxo (utxo : UTXO) : RawTxInput :=
  {| TxID := TransactionID utxo; Vout := uint16 (Vout_N utxo) |}.

Definition CreateSendAssertTx (assert from to : string) (amount : float)
    (unspent : list UTXO) : list UTXO * result RawTx :=
  let (unspent, r) := CalcTxInput amount unspent in
  (unspent,
   match r with
   | Err err => Err err
   | Panic m => Panic m
   | OK (sendUTXOs, totalAmount) =>
       if totalAmount <? amount then Err ErrNoUTXO
       else
         let tx := NewRawTx ContractTransaction in
         let inputs := Inputs tx ++ map input_of_utxo sendUTXOs in
         let outputs :=
           Outputs tx ++ [ {| AssertID := assert; Value := amount; Address := to |} ] in
         let outputs :=
           if amount <? totalAmount
           then outputs ++ [ {| AssertID := assert; Value := totalAmount - amount;
                                Address := from |} ]
           else outputs in
         OK {| TxType := TxType tx; Version := Version tx; XData := XData tx;
               Attributes := Attributes tx; Inputs := inputs; Outputs := outputs;
               Scripts := Scripts tx |}
   end).

Definition claimSorter_Less (a b : UTXO) : bool :=
  (SpentBlock a <? SpentBlock b)%Z.

Definition CreateClaimTx (val : float) (address : string) (unspent : list UTXO)
  : list UTXO * result RawTx :=
  let tx := NewRawTx ClaimTransaction in
  let unspent := sort_Sort claimSorter_Less unspent in
  let claims := map input_of_utxo unspent in
  let outputs :=
    Outputs tx ++ [ {| AssertID := GasAssert; Value := val; Address := address |} ] in
  (unspent,
   OK {| TxType := TxType tx; Version := Version tx; XData := Some claims;
         Attributes := Attributes tx; Inputs := Inputs tx; Outputs := outputs;
         Scripts := Scripts tx |}).

(** *** The selection the specification describes

    Follows the specification's words, for comparison with [CalcTxInput]:
    sort ascending by value, accumulate in that order, stop as soon as
    the accumulated value exceeds [amount], otherwise return them all
    with their summed total. *)
Fixpoint spec_accumulate (amount : float) (sorted selected : list UTXO) (total : float)
  : list UTXO * float :=
  match sorted with
  | [] => (selected, total)
  | utxo :: rest =>
      let selected := selected ++ [utxo] in
      let total := total + Value_float utxo in
      if amount <? total then (selected, total)
      else spec_accumulate amount rest selected total
  end.

Definition spec_SelectForAmount (amount : float) (unspentList : list UTXO)
  : list UTXO * float :=
  spec_accumulate amount (sort_Sort utxoSorter_Less unspentList) [] 0.

(** An entry the loop of [CalcTxInput] goes past: [Value()] returned no
    error for it, and it is not worth more than the amount. *)
Definition passed_over (amount : float) (utxo : UTXO) : bool :=
  match Value_err utxo with
  | None => negb (amount <? Value_float utxo)
  | Some _ => false
  end.

(** An entry that only carries a value. *)
Definition utxo_of_value (txid : string) (v : float) : UTXO :=
  {| TransactionID := txid; Vout_N := 0; SpentBlock := 0;
     Value_float := v; Value_err := None |}.

(** The two outputs [CreateSendAssertTx] builds. *)
Definition payment (assert to : string) (amount : float) : RawTxOutput :=
  {| AssertID := assert; Value := amount; Address := to |}.

Definition change (assert from : string) (v : float) : RawTxOutput :=
  {| AssertID := assert; Value := v; Address := from |}.

(** Entries of the scenarios. *)
Definition utxo_a : UTXO := utxo_of_value "a" 0.5.
Definition utxo_b : UTXO := utxo_of_value "b" 0.7.

(** The transaction for one entry of value [1.0] and the amount [1.0]. *)
Definition tx_exact : RawTx :=
  {| TxType := ContractTransaction; Version := x00; XData := None;
     Attributes := []; Inputs := [input_of_utxo (utxo_of_value "t" 1.0)];
     Outputs := [payment "asset" "recipient" 1.0]; Scripts := [] |}.

End Neo.

(* ================================================================= *)
(** ** Package keystore: the web3 secret-storage codec *)

Module Keystore.

Open Scope string_scope.
Open Scope list_scope.

(** *** Go values behind [interface{}] and JSON documents *)

(** What an [interface{}] of this package holds: the values the code
    stores itself ([int], [string]) and the values [encoding/json] puts
    there ([float64] for every number). *)
Inductive any : Type :=
| Nil
| AnyBool (b : bool)
| AnyInt (n : Z)
| AnyFloat64 (f : float)
| AnyString (s : string)
| AnyList (l : list any)
| AnyMap (m : list (string * any)).

(** A [map[string]interface{}]: the newest binding of a key first. *)
Definition gomap : Type := list (string * any).

Fixpoint map_lookup (key : string) (m : gomap) : option any :=
  match m with
  | [] => None
  | (k, v) :: m' => if String.eqb k key then Some v else map_lookup key m'
  end.

Definition map_insert (key : string) (v : any) (m : gomap) : gomap := (key, v) :: m.

(** A JSON number as the decoder sees it: an integer literal, or a
    literal with a fraction or an exponent, given by the [float64] that
    [strconv.ParseFloat] returns for it (an infinity for a literal out
    of the range of [float64]). *)
Inductive number : Type :=
| IntLit (n : Z)
| FloatLit (f : float).

(** A keystore document.  [encoding/json] is not part of the repository:
    the bytes [Write] returns and [Read] receives are modelled by the JSON
    value they denote; the members of an object stand in document
    order. *)
Inductive json : Type :=
| JNull
| JBool (b : bool)
| JNumber (x : number)
| JString (s : string)
| JArray (l : list json)
| JObject (members : list (string * json)).

(** **** Numbers *)

(** The [float64] nearest to an integer (what the decoder stores for an
    integer literal). *)
Definition float64_of_Z (n : Z) : float :=
  SF2Prim (binary_normalize prec emax n 0 false).

(** [strconv.ParseFloat(s, 64)] on a number of the document: the
    nearest [float64], and a range error where that is an infinity; for
    an integer literal, from the magnitude [2^1024 - 2^970] on, half way
    between the largest [float64] and [2^1024]. *)
Definition float64_of_number (x : number) : option float :=
  match x with
  | IntLit n =>
      if (Z.abs n <? 2 ^ 1024 - 2 ^ 970)%Z then Some (float64_of_Z n) else None
  | FloatLit f => if is_finite f then Some f else None
  end.

Definition min_int64 : Z := - 2 ^ 63.

(** [int(f)]: truncation towards zero.  Outside [int]'s range the
    language leaves the value to the implementation; the model returns
    the amd64 one. *)
Definition int_of_float64 (f : float) : Z :=
  match Prim2SF f with
  | S754_zero _ => 0
  | S754_finite s m e =>
      let mag := if (0 <=? e)%Z then (Z.pos m * 2 ^ e)%Z else (Z.pos m / 2 ^ (- e))%Z in
      let v := if s then (- mag)%Z else mag in
      if ((min_int64 <=? v) && (v <? 2 ^ 63))%Z then v else min_int64
  | _ => min_int64
  end.

(** **** Strings: invalid UTF-8 is replaced by U+FFFD when encoding *)

Definition is_cont (b : byte) : bool :=
  let n := Byte.to_N b in ((128 <=? n) && (n <=? 191))%N.

Definition in_range (lo hi : N) (b : byte) : bool :=
  let n := Byte.to_N b in ((lo <=? n) && (n <=? hi))%N.

Definition replacement : list byte := [xef; xbf; xbd].

(** [utf8.DecodeRune] read as a filter: a well-formed sequence is
    copied, any other byte becomes U+FFFD. *)
Fixpoint toValidUTF8 (s : list byte) : list byte :=
  match s with
  | [] => []
  | b :: s1 =>
      let n := Byte.to_N b in
      if (n <? 128)%N then b :: toValidUTF8 s1
      else
        match s1 with
        | c1 :: s2 =>
            if in_range 194 223 b && is_cont c1 then b :: c1 :: toValidUTF8 s2
            else
              match s2 with
              | c2 :: s3 =>
                  if ((in_range 224 224 b && in_range 160 191 c1)
                      || ((in_range 225 236 b || in_range 238 239 b) && is_cont c1)
                      || (in_range 237 237 b && in_range 128 159 c1))
                     && is_cont c2
                  then b :: c1 :: c2 :: toValidUTF8 s3
                  else
                    match s3 with
                    | c3 :: s4 =>
                        if ((in_range 240 240 b && in_range 144 191 c1)
                            || (in_range 241 243 b && is_cont c1)
                            || (in_range 244 244 b && in_range 128 143 c1))
                           && is_cont c2 && is_cont c3
                        then b :: c1 :: c2 :: c3 :: toValidUTF8 s4
                        else replacement ++ toValidUTF8 s1
                    | [] => replacement ++ toValidUTF8 s1
                    end
              | [] => replacement ++ toValidUTF8 s1
              end
        | [] => replacement ++ toValidUTF8 s1
        end
  end.

Definition ToValidUTF8 (s : string) : string :=
  string_of_list_byte (toValidUTF8 (list_byte_of_string s)).

(** Text of 7-bit characters only. *)
Definition ascii_bytes (s : list byte) : Prop :=
  Forall (fun b => (Byte.to_N b <? 128)%N = true) s.

(** **** json.Marshal *)

Definition encode_float64 (f : float) : result json :=
  match Prim2SF f with
  | S754_zero false => OK (JNumber (IntLit 0))
  | S754_zero true => OK (JNumber (FloatLit f))
  | S754_finite s m e =>
      let sign := fun v : Z => if s then (- v)%Z else v in
      if (0 <=? e)%Z then
        let v := (Z.pos m * 2 ^ e)%Z in
        if (v <? 10 ^ 21)%Z then OK (JNumber (IntLit (sign v))) else OK (JNumber (FloatLit f))
      else if (Z.pos m mod 2 ^ (- e) =? 0)%Z
           then OK (JNumber (IntLit (sign (Z.pos m / 2 ^ (- e))%Z)))
           else OK (JNumber (FloatLit f))
  | _ => Err (ErrJSON "json: unsupported value")
  end.

(** The bindings a map really holds: the newest one of every key. *)
Fixpoint map_entries (m : gomap) : gomap :=
  match m with
  | [] => []
  | (k, v) :: m' =>
      (k, v) :: filter (fun kv => negb (String.eqb (fst kv) k)) (map_entries m')
  end.

Definition member_Less (a b : string * json) : bool := String.ltb (fst a) (fst b).

(** A map is written with its keys sorted. *)
Fixpoint encode_any (x : any) : result json :=
  match x with
  | Nil => OK JNull
  | AnyBool b => OK (JBool b)
  | AnyInt n => OK (JNumber (IntLit n))
  | AnyFloat64 f => encode_float64 f
  | AnyString s => OK (JString (ToValidUTF8 s))
  | AnyList l =>
      bind ((fix encode_all (l : list any) : result (list json) :=
               match l with
               | [] => OK []
               | x :: l' =>
                   bind (encode_any x) (fun j =>
                   bind (encode_all l') (fun js => OK (j :: js)))
               end) l)
           (fun js => OK (JArray js))
  | AnyMap m =>
      bind ((fix encode_members (m : list (string * any)) : result (list (string * json)) :=
               match m with
               | [] => OK []
               | (k, v) :: m' =>
                   bind (encode_any v) (fun j =>
                   bind (encode_members m') (fun js => OK ((ToValidUTF8 k, j) :: js)))
               end) m)
           (fun ms => OK (JObject (sort_Sort member_Less ms)))
  end.

Definition encode_map (m : gomap) : result json := encode_any (AnyMap (map_entries m)).

(** **** json.Unmarshal into [interface{}] and [map[string]interface{}] *)

Definition type_error (what : string) : error :=
  ErrJSON ("json: cannot unmarshal into Go value of type " ++ what).

Section Traverse.

Context {A B : Type} (f : A -> result B).

(** The elements of a list decoded one after the other; the first error
    is the one returned. *)
Fixpoint traverse (l : list A) : result (list B) :=
  match l with
  | [] => OK []
  | a :: l' => bind (f a) (fun b => bind (traverse l') (fun bs => OK (b :: bs)))
  end.

End Traverse.

(** A number becomes a [float64]; one that is out of the range of
    [float64] makes [Unmarshal] return an error. *)
Fixpoint decode_any (j : json) : result any :=
  match j with
  | JNull => OK Nil
  | JBool b => OK (AnyBool b)
  | JNumber x =>
      match float64_of_number x with
      | Some f => OK (AnyFloat64 f)
      | None => Err (type_error "float64")
      end
  | JString s => OK (AnyString s)
  | JArray l => bind (traverse decode_any l) (fun xs => OK (AnyList xs))
  | JObject ms =>
      bind (traverse (fun kv : string * json =>
                        let (k, v) := kv in bind (decode_any v) (fun x => OK (k, x))) ms)
           (fun m => OK (AnyMap (rev m)))
  end.

Definition decode_member (kv : string * json) : result (string * any) :=
  let (k, v) := kv in bind (decode_any v) (fun x => OK (k, x)).

(** Into a map that already holds [old]: the members are added, a later
    member of the document replacing an earlier one; [null] leaves a nil
    map. *)
Definition decode_map (old : gomap) (j : json) : result gomap :=
  match j with
  | JObject ms => bind (traverse decode_member ms) (fun m => OK (rev m ++ old))
  | JNull => OK []
  | _ => Err (type_error "map[string]interface {}")
  end.

(** **** json.Unmarshal into the typed record *)

Definition decode_string (old : string) (j : json) : result string :=
  match j with
  | JString s => OK s
  | JNull => OK old
  | _ => Err (type_error "string")
  end.

Definition decode_int (old : Z) (j : json) : result Z :=
  match j with
  | JNumber (IntLit n) =>
      if ((min_int64 <=? n) && (n <? 2 ^ 63))%Z then OK n else Err (type_error "int")
  | JNull => OK old
  | _ => Err (type_error "int")
  end.

Definition ascii_lower (c : ascii) : ascii :=
  let n := N_of_ascii c in
  if ((65 <=? n) && (n <=? 90))%N then ascii_of_N (n + 32) else c.

Fixpoint lower (s : string) : string :=
  match s with
  | EmptyString => EmptyString
  | String c s' => String (ascii_lower c) (lower s')
  end.

(** A member names a field when its key is the field's tag, exactly or
    up to the case of ASCII letters (the tags are lower-case). *)
Definition names_field (key tag : string) : bool :=
  String.eqb key tag || String.eqb (lower key) tag.

(** Modelled from the spec: the declarations of [encryptedKeyJSONV3],
    [cryptoJSON] and [cipherparamsJSON] are not among the sources; the
    fields are the ones [Write] fills and [decryptKeyV3] reads, in the
    order of [Write]'s composite literals, under the member names the
    specification lists ([address], [crypto], [id], [version]; [cipher],
    [ciphertext], [cipherparams.iv], [kdf], [kdfparams], [mac]). *)
Record cipherparamsJSON : Type := { IV : string }.

Record cryptoJSON : Type := {
  Cipher : string;
  CipherText : string;
  CipherParams : cipherparamsJSON;
  KDF : string;
  KDFParams : gomap;
  MAC : string
}.

Record encryptedKeyJSONV3 : Type := {
  V3_Address : string;
  V3_Crypto : cryptoJSON;
  V3_ID : string;
  V3_Version : Z
}.

Definition zero_cipherparamsJSON : cipherparamsJSON := {| IV := EmptyString |}.
Definition zero_cryptoJSON : cryptoJSON :=
  {| Cipher := EmptyString; CipherText := EmptyString;
     CipherParams := zero_cipherparamsJSON;
     KDF := EmptyString; KDFParams := []; MAC := EmptyString |}.
Definition zero_encryptedKeyJSONV3 : encryptedKeyJSONV3 :=
  {| V3_Address := EmptyString; V3_Crypto := zero_cryptoJSON; V3_ID := EmptyString;
     V3_Version := 0 |}.

(** The members of an object are decoded one after the other into the
    record built so far. *)
Fixpoint decode_members {T : Type} (field : T -> string -> json -> result T)
    (old : T) (ms : list (string * json)) : result T :=
  match ms with
  | [] => OK old
  | (k, v) :: ms' => bind (field old k v) (fun t => decode_members field t ms')
  end.

Definition decode_struct {T : Type} (what : string)
    (field : T -> string -> json -> result T) (old : T) (j : json) : result T :=
  match j with
  | JObject ms => decode_members field old ms
  | JNull => OK old
  | _ => Err (type_error what)
  end.

Definition cipherparams_field (old : cipherparamsJSON) (k : string) (v : json)
  : result cipherparamsJSON :=
  if names_field k "iv" then bind (decode_string (IV old) v) (fun s => OK {| IV := s |})
  else OK old.

Definition crypto_field (old : cryptoJSON) (k : string) (v : json) : result cryptoJSON :=
  if names_field k "cipher" then
    bind (decode_string (Cipher old) v) (fun s =>
    OK {| Cipher := s; CipherText := CipherText old; CipherParams := CipherParams old;
          KDF := KDF old; KDFParams := KDFParams old; MAC := MAC old |})
  else if names_field k "ciphertext" then
    bind (decode_string (CipherText old) v) (fun s =>
    OK {| Cipher := Cipher old; CipherText := s; CipherParams := CipherParams old;
          KDF := KDF old; KDFParams := KDFParams old; MAC := MAC old |})
  else if names_field k "cipherparams" then
    bind (decode_struct "keystore.cipherparamsJSON" cipherparams_field (CipherParams old) v)
      (fun c =>
    OK {| Cipher := Cipher old; CipherText := CipherText old; CipherParams := c;
          KDF := KDF old; KDFParams := KDFParams old; MAC := MAC old |})
  else if names_field k "kdf" then
    bind (decode_string (KDF old) v) (fun s =>
    OK {| Cipher := Cipher old; CipherText := CipherText old; CipherParams := CipherParams old;
          KDF := s; KDFParams := KDFParams old; MAC := MAC old |})
  else if names_field k "kdfparams" then
    bind (decode_map (KDFParams old) v) (fun m =>
    OK {| Cipher := Cipher old; CipherText := CipherText old; CipherParams := CipherParams old;
          KDF := KDF old; KDFParams := m; MAC := MAC old |})
  else if names_field k "mac" then
    bind (decode_string (MAC old) v) (fun s =>
    OK {| Cipher := Cipher old; CipherText := CipherText old; CipherParams := CipherParams old;
          KDF := KDF old; KDFParams := KDFParams old; MAC := s |})
  else OK old.

Definition encryptedKeyJSONV3_field (old : encryptedKeyJSONV3) (k : string) (v : json)
  : result encryptedKeyJSONV3 :=
  if names_field k "address" then
    bind (decode_string (V3_Address old) v) (fun s =>
    OK {| V3_Address := s; V3_Crypto := V3_Crypto old; V3_ID := V3_ID old;
          V3_Version := V3_Version old |})
  else if names_field k "crypto" then
    bind (decode_struct "keystore.cryptoJSON" crypto_field (V3_Crypto old) v) (fun c =>
    OK {| V3_Address := V3_Address old; V3_Crypto := c; V3_ID := V3_ID old;
          V3_Version := V3_Version old |})
  else if names_field k "id" then
    bind (decode_string (V3_ID old) v) (fun s =>
    OK {| V3_Address := V3_Address old; V3_Crypto := V3_Crypto old; V3_ID := s;
          V3_Version := V3_Version old |})
  else if names_field k "version" then
    bind (decode_int (V3_Version old) v) (fun n =>
    OK {| V3_Address := V3_Address old; V3_Crypto := V3_Crypto old; V3_ID := V3_ID old;
          V3_Version := n |})
  else OK old.

(** [json.Unmarshal(data, k)] with [k := new(encryptedKeyJSONV3)]. *)
Definition Unmarshal_encryptedKeyJSONV3 (data : json) : result encryptedKeyJSONV3 :=
  decode_struct "keystore.encryptedKeyJSONV3" encryptedKeyJSONV3_field
    zero_encryptedKeyJSONV3 data.

(** [json.Unmarshal(data, &kv)] with [kv := make(map[string]interface{})]. *)
Definition Unmarshal_map (data : json) : result gomap :=
  match data with
  | JObject _ => decode_map [] data
  | JNull => OK []
  | _ => Err (type_error "map[string]interface {}")
  end.

(** [json.Marshal] of the typed record. *)
Definition Marshal_encryptedKeyJSONV3 (k : encryptedKeyJSONV3) : result json :=
  let c := V3_Crypto k in
  bind (encode_map (KDFParams c)) (fun kdfparams =>
  OK (JObject
        [ ("address", JString (ToValidUTF8 (V3_Address k)));
          ("crypto",
           JObject
             [ ("cipher", JString (ToValidUTF8 (Cipher c)));
               ("ciphertext", JString (ToValidUTF8 (CipherText c)));
               ("cipherparams", JObject [ ("iv", JString (ToValidUTF8 (IV (CipherParams c)))) ]);
               ("kdf", JString (ToValidUTF8 (KDF c)));
               ("kdfparams", kdfparams);
               ("mac", JString (ToValidUTF8 (MAC c))) ]);
          ("id", JString (ToValidUTF8 (V3_ID k)));
          ("version", JNumber (IntLit (V3_Version k))) ])).

(** The document a successful [Write] returns, by the text of its
    fields; [version] is the value of the member [version]. *)
Definition keystore_document (address cipherText iv salt mac id : string) (version : json)
  : json :=
  JObject
    [ ("address", JString address);
      ("crypto",
       JObject
         [ ("cipher", JString "aes-128-ctr");
           ("ciphertext", JString cipherText);
           ("cipherparams", JObject [ ("iv", JString iv) ]);
           ("kdf", JString "scrypt");
           ("kdfparams",
            JObject
              [ ("dklen", JNumber (IntLit 32));
                ("n", JNumber (IntLit 4096));
                ("p", JNumber (IntLit 6));
                ("r", JNumber (IntLit 8));
                ("salt", JString salt) ]);
           ("mac", JString mac) ]);
      ("id", JString id);
      ("version", version) ].

(** The record [json.Unmarshal] fills from [keystore_document]. *)
Definition keystore_record (address cipherText iv salt mac id : string) (version : Z)
  : encryptedKeyJSONV3 :=
  {| V3_Address := address;
     V3_Crypto :=
       {| Cipher := "aes-128-ctr";
          CipherText := cipherText;
          CipherParams := {| IV := iv |};
          KDF := "scrypt";
          KDFParams :=
            [ ("salt", AnyString salt);
              ("r", AnyFloat64 (float64_of_Z 8));
              ("p", AnyFloat64 (float64_of_Z 6));
              ("n", AnyFloat64 (float64_of_Z 4096));
              ("dklen", AnyFloat64 (float64_of_Z 32)) ];
          MAC := mac |};
     V3_ID := id;
     V3_Version := version |}.

(** The value of a member of an object (the last one of that name). *)
Definition member (key : string) (data : json) : option json :=
  match data with
  | JObject ms =>
      fold_left (fun found (kv : string * json) =>
                   if String.eqb (fst kv) key then Some (snd kv) else found) ms None
  | _ => None
  end.

(** A document with the value of its member [version] replaced. *)
Definition with_version (version : json) (data : json) : json :=
  match data with
  | JObject ms =>
      JObject (map (fun kv : string * json =>
                      if String.eqb (fst kv) "version" then (fst kv, version) else kv) ms)
  | _ => data
  end.

(** A document with [f] applied to the value of its members [name]. *)
Definition update_member (name : string) (f : json -> json) (data : json) : json :=
  match data with
  | JObject ms =>
      JObject (map (fun kv : string * json =>
                      if String.eqb (fst kv) name then (fst kv, f (snd kv)) else kv) ms)
  | _ => data
  end.

(** A document with the value of a member replaced: a member of the
    document, a member of its object [crypto], the member [iv] of
    [cipherparams] in there, and a member of [kdfparams] in there. *)
Definition with_member (name : string) (value : json) (data : json) : json :=
  update_member name (fun _ => value) data.

Definition with_crypto_member (name : string) (value : json) (data : json) : json :=
  update_member "crypto" (with_member name value) data.

Definition with_iv (iv : string) (data : json) : json :=
  update_member "crypto" (update_member "cipherparams" (with_member "iv" (JString iv))) data.

Definition with_kdfparam (name : string) (value : json) (data : json) : json :=
  update_member "crypto" (update_member "kdfparams" (with_member name value)) data.

(** A version-3 document by the values of its members. *)
Definition document (address cipher cipherText iv kdf : string) (kdfparams : json)
    (mac id : string) (version : json) : json :=
  JObject
    [ ("address", JString address);
      ("crypto",
       JObject
         [ ("cipher", JString cipher);
           ("ciphertext", JString cipherText);
           ("cipherparams", JObject [ ("iv", JString iv) ]);
           ("kdf", JString kdf);
           ("kdfparams", kdfparams);
           ("mac", JString mac) ]);
      ("id", JString id);
      ("version", version) ].

(** The parameters [Write] puts into a document. *)
Definition scrypt_params (salt : string) : json :=
  JObject
    [ ("dklen", JNumber (IntLit 32));
      ("n", JNumber (IntLit 4096));
      ("p", JNumber (IntLit 6));
      ("r", JNumber (IntLit 8));
      ("salt", JString salt) ].

(** The parameters of the other key derivation [Read] knows. *)
Definition pbkdf2_params (c : Z) (prf salt : string) : json :=
  JObject
    [ ("c", JNumber (IntLit c));
      ("dklen", JNumber (IntLit 32));
      ("prf", JString prf);
      ("salt", JString salt) ].

(** The record [json.Unmarshal] fills from [document]. *)
Definition record (address cipher cipherText iv kdf : string) (kdfparams : gomap)
    (mac id : string) (version : Z) : encryptedKeyJSONV3 :=
  {| V3_Address := address;
     V3_Crypto :=
       {| Cipher := cipher; CipherText := cipherText; CipherParams := {| IV := iv |};
          KDF := kdf; KDFParams := kdfparams; MAC := mac |};
     V3_ID := id;
     V3_Version := version |}.

(** An attribute [Write] looks at holds an [int], or is not there. *)
Definition int_or_absent (x : option any) : bool :=
  match x with
  | None | Some (AnyInt _) => true
  | Some _ => false
  end.

(** *** The primitives of other packages *)

(** The cryptographic functions and the UUID text form come from
    packages outside the sources ([scrypt], [pbkdf2], [sha3], [aes],
    [uuid]); the codec is stated over any implementation of them. *)
Class Primitives : Type := {
  (** [scrypt.Key(password, salt, N, r, p, keyLen)] *)
  scrypt_Key : list byte -> list byte -> Z -> Z -> Z -> Z -> result (list byte);
  (** the first [keyLen] bytes of the blocks of PBKDF2 with HMAC-SHA256:
      what [pbkdf2.Key(password, salt, iter, keyLen, sha256.New)]
      returns when it returns *)
  pbkdf2_hmac_sha256 : list byte -> list byte -> Z -> Z -> list byte;
  (** [sha3.NewKeccak256()], the bytes written, [Sum(nil)] *)
  Keccak256 : list byte -> list byte;
  (** the AES block function under a key: [block.Encrypt(dst, src)] *)
  aes_Encrypt : list byte -> list byte -> list byte;
  (** [uuid.UUID(id).String()] and [uuid.Parse(s)] *)
  uuid_String : list byte -> string;
  uuid_Parse : string -> list byte
}.

(** What the codec relies on: lengths, and that a UUID of sixteen bytes
    is read back from its text, which is ASCII. *)
Class PrimitiveLaws (P : Primitives) : Prop := {
  scrypt_Key_length :
    forall password salt N r p keyLen key,
      scrypt_Key password salt N r p keyLen = OK key ->
      List.length key = Z.to_nat keyLen;
  aes_Encrypt_length :
    forall key block, List.length (aes_Encrypt key block) = 16%nat;
  uuid_Parse_String :
    forall id, List.length id = 16%nat -> uuid_Parse (uuid_String id) = id;
  uuid_String_valid :
    forall id, ToValidUTF8 (uuid_String id) = uuid_String id;
  pbkdf2_hmac_sha256_length :
    forall password salt c keyLen,
      (0 <= keyLen)%Z ->
      List.length (pbkdf2_hmac_sha256 password salt c keyLen) = Z.to_nat keyLen
}.

(** *** Keys and byte slices *)

(** [keystore.Key] (declared outside the sources; the fields are the
    ones [Read] fills and [Write] reads). *)
Record Key : Type := {
  ID : list byte;
  Address : string;
  PrivateKey : list byte
}.

(** [s[lo:hi]]; a slice is modelled with its capacity equal to its
    length, so bounds past the length panic. *)
Definition slice (s : list byte) (lo hi : nat) : result (list byte) :=
  if ((lo <=? hi) && (hi <=? List.length s))%nat
  then OK (firstn (hi - lo) (skipn lo s))
  else Panic "slice bounds out of range".

(** [copy(dst, src)]: the content of [dst] afterwards. *)
Definition copy (dst src : list byte) : list byte :=
  firstn (List.length dst) src ++ skipn (List.length src) dst.

Definition bytes_Equal (a b : list byte) : bool :=
  if list_eq_dec Byte.byte_eq_dec a b then true else false.

Definition byte_xor (a b : byte) : byte :=
  let '(a0, (a1, (a2, (a3, (a4, (a5, (a6, a7))))))) := Byte.to_bits a in
  let '(b0, (b1, (b2, (b3, (b4, (b5, (b6, b7))))))) := Byte.to_bits b in
  Byte.of_bits
    (xorb a0 b0, (xorb a1 b1, (xorb a2 b2, (xorb a3 b3,
    (xorb a4 b4, (xorb a5 b5, (xorb a6 b6, xorb a7 b7))))))).

(** [crypto/rand.Reader]: the bytes it delivers, in order.  A failed
    read panics in the source; the model has none. *)
Definition Reader : Type := nat -> byte.

Definition GetEntropyCSPRNG (n : nat) (rand : Reader) : list byte * Reader :=
  (map rand (seq 0 n), fun k => rand (n + k)%nat).

Definition standardScryptN : Z := Z.shiftl 1 18.
Definition standardScryptP : Z := 1.
Definition lightScryptN : Z := Z.shiftl 1 12.
Definition lightScryptP : Z := 6.
Definition scryptR : Z := 8.
Definition scryptDklen : Z := 32.
Definition scryptKDFName : string := "scrypt".
Definition pbkdf2Name : string := "pbkdf2".

(** [x.(string)] *)
Definition assert_string (x : option any) : result string :=
  match x with
  | Some (AnyString s) => OK s
  | _ => Panic "interface conversion: interface {} is not string"
  end.

Definition ensureInt (x : option any) : result Z :=
  match x with
  | Some (AnyInt res) => OK res
  | Some (AnyFloat64 f) => OK (int_of_float64 f)
  | _ => Panic "interface conversion: interface {} is not float64"
  end.

(** A parameter that holds the integer [n]: as an [int], or as the
    [float64] the decoder stores for the integer literal [n], which is
    [n] itself up to fifty-three bits. *)
Definition holds_integer (x : option any) (n : Z) : Prop :=
  x = Some (AnyInt n) \/
  (x = Some (AnyFloat64 (float64_of_Z n)) /\ (Z.abs n < 2 ^ 53)%Z).

(** [if scryptN, ok := attrs[name]; ok { scryptN = scryptN.(int) }]: the
    [if] declares a variable of its own, which the assignment sets; the
    variable of the function body keeps its value.  What is left of the
    statement is the assertion, which panics on a value that is no
    [int]. *)
Definition shadowed_int_attr (attrs : option gomap) (name : string) : result unit :=
  match attrs with
  | None => OK tt
  | Some m =>
      match map_lookup name m with
      | None => OK tt
      | Some (AnyInt _) => OK tt
      | Some _ => Panic "interface conversion: interface {} is not int"
      end
  end.

(** The largest allocation the runtime agrees to ([maxAlloc] of
    [runtime/malloc.go], on 64-bit Linux). *)
Definition maxAlloc : Z := 2 ^ 48.

Section Codec.

Context {P : Primitives}.

(** *** pbkdf2.Key

    The function computes [numBlocks := (keyLen + hashLen - 1) / hashLen],
    allocates [make([]byte, 0, numBlocks*hashLen)], fills the blocks and
    returns [dk[:keyLen]].  The allocation panics for a capacity that is
    negative or beyond [maxAlloc], and the slice expression for a
    negative [keyLen]; an allocation the machine cannot serve ends the
    program, and the model has memory for every slice the runtime agrees
    to make. *)
Definition pbkdf2_Key (password salt : list byte) (iter keyLen : Z) : result (list byte) :=
  let hashLen := 32%Z in
  let numBlocks := Z.quot (keyLen + hashLen - 1) hashLen in
  if ((numBlocks * hashLen <? 0) || (maxAlloc <? numBlocks * hashLen))%Z
  then Panic "makeslice: cap out of range"
  else if (keyLen <? 0)%Z then Panic "slice bounds out of range"
  else OK (pbkdf2_hmac_sha256 password salt iter keyLen).

(** *** aesCTRXOR *)

(** The counter is a big-endian number; [incr_le] increments it from
    its last byte. *)
Fixpoint incr_le (c : list byte) : list byte :=
  match c with
  | [] => []
  | b :: c' =>
      let b' := byte_of_Z (Z_of_byte b + 1) in
      if Byte.eqb b' x00 then b' :: incr_le c' else b' :: c'
  end.

Definition ctr_next (ctr : list byte) : list byte := rev (incr_le (rev ctr)).

Fixpoint keyStream (blocks : nat) (key ctr : list byte) : list byte :=
  match blocks with
  | O => []
  | S n => aes_Encrypt key ctr ++ keyStream n key (ctr_next ctr)
  end.

Fixpoint xorBytes (src stream : list byte) : list byte :=
  match src, stream with
  | b :: src', k :: stream' => byte_xor b k :: xorBytes src' stream'
  | _, _ => []
  end.

Definition aesCTRXOR (key inText iv : list byte) : result (list byte) :=
  let n := List.length key in
  if negb ((n =? 16) || (n =? 24) || (n =? 32))%nat then Err (ErrAESKeySize n)
  else if negb (List.length iv =? 16)%nat
       then Panic "cipher.NewCTR: IV length must equal block size"
  else OK (xorBytes inText (keyStream ((List.length inText + 15) / 16) key iv)).

(** *** getKDFKey *)

Definition getKDFKey (cryptoJSON : cryptoJSON) (auth : string) : result (list byte) :=
  let authArray := list_byte_of_string auth in
  bind (assert_string (map_lookup "salt" (KDFParams cryptoJSON))) (fun saltHex =>
  bind (hex_DecodeString saltHex) (fun salt =>
  bind (ensureInt (map_lookup "dklen" (KDFParams cryptoJSON))) (fun dkLen =>
  if String.eqb (KDF cryptoJSON) scryptKDFName then
    bind (ensureInt (map_lookup "n" (KDFParams cryptoJSON))) (fun n =>
    bind (ensureInt (map_lookup "r" (KDFParams cryptoJSON))) (fun r =>
    bind (ensureInt (map_lookup "p" (KDFParams cryptoJSON))) (fun p =>
    scrypt_Key authArray salt n r p dkLen)))
  else if String.eqb (KDF cryptoJSON) "pbkdf2" then
    bind (ensureInt (map_lookup "c" (KDFParams cryptoJSON))) (fun c =>
    bind (assert_string (map_lookup "prf" (KDFParams cryptoJSON))) (fun prf =>
    if negb (String.eqb prf "hmac-sha256") then Err (ErrUnsupportedPRF prf)
    else
      bind (pbkdf2_Key authArray salt c dkLen) (fun key =>
      OK key)))
  else Err (ErrUnsupportedKDF (KDF cryptoJSON))))).

(** *** decryptKeyV3 *)

Definition decryptKeyV3 (keyProtected : encryptedKeyJSONV3) (password : string)
  : result (list byte * list byte) :=
  if negb (String.eqb (Cipher (V3_Crypto keyProtected)) "aes-128-ctr")
  then Err (ErrCipher (Cipher (V3_Crypto keyProtected)))
  else
    let keyID := uuid_Parse (V3_ID keyProtected) in
    bind (hex_DecodeString (MAC (V3_Crypto keyProtected))) (fun mac =>
    bind (hex_DecodeString (IV (CipherParams (V3_Crypto keyProtected)))) (fun iv =>
    bind (hex_DecodeString (CipherText (V3_Crypto keyProtected))) (fun cipherText =>
    bind (getKDFKey (V3_Crypto keyProtected) password) (fun derivedKey =>
    bind (slice derivedKey 16 32) (fun macKey =>
    let calculatedMAC := Keccak256 (macKey ++ cipherText) in
    if negb (bytes_Equal calculatedMAC mac) then Err (ErrDecrypt calculatedMAC mac)
    else
      bind (slice derivedKey 0 16) (fun encryptKey =>
      bind (aesCTRXOR encryptKey cipherText iv) (fun plainText =>
      OK (plainText, keyID)))))))).

(** *** Read *)

Definition Read (data : json) (password : string) : result Key :=
  bind (Unmarshal_map data) (fun kv =>
  let unsupported :=
    match map_lookup "version" kv with
    | Some (AnyString version) => negb (String.eqb version "3")
    | _ => false
    end in
  if unsupported then Err ErrVersion
  else
    bind (Unmarshal_encryptedKeyJSONV3 data) (fun k =>
    bind (decryptKeyV3 k password) (fun r =>
    let (keyBytes, keyID) := r in
    OK {| ID := keyID; Address := V3_Address k; PrivateKey := keyBytes |}))).

(** *** Write *)

(** The block [if len(key.PrivateKey) < 32 { keyBytes := make([]byte, 32);
    copy(keyBytes, key.PrivateKey) }] declares a second [keyBytes]:
    [padded] is that variable, which nothing reads after the block. *)
Definition Write (key : Key) (password : string) (attrs : option gomap) (rand : Reader)
  : result json :=
  let authArray := list_byte_of_string password in
  let (salt, rand) := GetEntropyCSPRNG 32 rand in
  let scryptN := lightScryptN in
  let scryptP := lightScryptP in
  bind (shadowed_int_attr attrs "ScryptN") (fun _ =>
  bind (shadowed_int_attr attrs "ScryptP") (fun _ =>
  bind (scrypt_Key authArray salt scryptN scryptR scryptP scryptDklen) (fun derivedKey =>
  bind (slice derivedKey 0 16) (fun encryptKey =>
  let keyBytes := PrivateKey key in
  let padded :=
    if (List.length (PrivateKey key) <? 32)%nat
    then Some (copy (repeat x00 32) (PrivateKey key))
    else None in
  let (iv, rand) := GetEntropyCSPRNG 16 rand in
  bind (aesCTRXOR encryptKey keyBytes iv) (fun cipherText =>
  bind (slice derivedKey 16 32) (fun macKey =>
  let mac := Keccak256 (macKey ++ cipherText) in
  let scryptParamsJSON :=
    map_insert "salt" (AnyString (hex_EncodeToString salt))
      (map_insert "dklen" (AnyInt scryptDklen)
        (map_insert "p" (AnyInt scryptP)
          (map_insert "r" (AnyInt scryptR)
            (map_insert "n" (AnyInt scryptN) [])))) in
  let cipherParamsJSON := {| IV := hex_EncodeToString iv |} in
  let cryptoStruct :=
    {| Cipher := "aes-128-ctr";
       CipherText := hex_EncodeToString cipherText;
       CipherParams := cipherParamsJSON;
       KDF := scryptKDFName;
       KDFParams := scryptParamsJSON;
       MAC := hex_EncodeToString mac |} in
  let encryptedKeyJSONV3 :=
    {| V3_Address := Address key;
       V3_Crypto := cryptoStruct;
       V3_ID := uuid_String (ID key);
       V3_Version := 3 |} in
  Marshal_encryptedKeyJSONV3 encryptedKeyJSONV3)))))).

Definition KdfTypeName : list string := [scryptKDFName; pbkdf2Name].

(** The salt and the IV [Write] draws from [rand], in this order. *)
Definition Write_salt (rand : Reader) : list byte := fst (GetEntropyCSPRNG 32 rand).

Definition Write_iv (rand : Reader) : list byte :=
  fst (GetEntropyCSPRNG 16 (snd (GetEntropyCSPRNG 32 rand))).

(** The key-derivation call of [Write], which [Read] repeats. *)
Definition Write_derive (password : string) (rand : Reader) : result (list byte) :=
  scrypt_Key (list_byte_of_string password) (Write_salt rand)
    lightScryptN scryptR lightScryptP scryptDklen.

(** The half of the derived key that enters the MAC. *)
Definition macKey (derivedKey : list byte) : list byte := firstn 16 (skipn 16 derivedKey).

End Codec.

(** *** A small implementation of the primitives

    Used to run the codec on concrete inputs.  The key derivation puts
    the password (zero-padded) into the first sixteen bytes of the key,
    then the length of the password, then the salt; the hash is the
    identity; the block function adds the first key byte to every byte
    of the block; a UUID is written as its hexadecimal digits. *)
Module Toy.

Definition pad_to (n : nat) (s : list byte) : list byte :=
  firstn n (s ++ repeat x00 n).

Definition derive (password salt : list byte) (keyLen : Z) : list byte :=
  pad_to (Z.to_nat keyLen)
    (pad_to 16 password ++ byte_of_Z (Z.of_nat (List.length password)) :: salt).

Definition block (key blk : list byte) : list byte :=
  pad_to 16 (map (fun b => byte_of_Z (Z_of_byte b + Z_of_byte (hd x00 key))) blk).

Definition parse_uuid (s : string) : list byte :=
  match hex_DecodeString s with
  | OK id => id
  | _ => []
  end.

#[export] Instance primitives : Primitives := {|
  scrypt_Key := fun password salt N r p keyLen => OK (derive password salt keyLen);
  pbkdf2_hmac_sha256 := fun password salt c keyLen => derive password salt keyLen;
  Keccak256 := fun data => data;
  aes_Encrypt := block;
  uuid_String := hex_EncodeToString;
  uuid_Parse := parse_uuid
|}.

Definition zeros : Reader := fun _ => x00.

Definition key1 : Key :=
  {| ID := repeat x11 16; Address := "00a329c0648769a73afac7f9381e08fb43dbea72";
     PrivateKey := repeat x2a 32 |}.

(** A key whose scalar has a zero first byte, as [D.Bytes()] gives it:
    thirty-one bytes. *)
Definition key_short : Key :=
  {| ID := repeat x11 16; Address := "00a329c0648769a73afac7f9381e08fb43dbea72";
     PrivateKey := repeat x2a 31 |}.

(** What [Write] returns for the two keys under the password [pw]. *)
Definition doc1 : json :=
  Eval vm_compute in
    match Write key1 "pw" None zeros with OK doc => doc | _ => JNull end.

Definition doc_short : json :=
  Eval vm_compute in
    match Write key_short "pw" None zeros with OK doc => doc | _ => JNull end.

(** A PBKDF2 parameter set, as decoded from a document. *)
Definition pbkdf2_crypto (prf : string) : cryptoJSON :=
  {| Cipher := "aes-128-ctr"; CipherText := EmptyString;
     CipherParams := {| IV := EmptyString |};
     KDF := "pbkdf2";
     KDFParams :=
       [ ("salt", AnyString "ab"); ("prf", AnyString prf);
         ("dklen", AnyFloat64 32%float); ("c", AnyFloat64 262144%float) ];
     MAC := EmptyString |}.

End Toy.

End Keystore.

(* ================================================================= *)
(** ** Package eth: from a wallet key to a keystore key *)

Module Eth.

(** [ecdsa.PublicKey] and [ecdsa.PrivateKey]: the curve is always
    [secp256k1.S256()]; [X] and [Y] are pointers, which may be nil; [D]
    is the scalar. *)
Record ecdsa_PublicKey : Type := { X : option Z; Y : option Z }.

Record ecdsa_PrivateKey : Type := { PublicKey : ecdsa_PublicKey; D : Z }.

(** [eth.Key] *)
Record Key : Type := {
  ID : list byte;
  Address : string;
  PrivateKey : ecdsa_PrivateKey
}.

(** What a function of the package returns: its value, the error of
    [toECDSA] (["invalid length, need %d bits"]), or nothing after a
    panic. *)
Inductive outcome (A : Type) : Type :=
| Returned (a : A)
| InvalidLength (bitSize : Z)
| Panicked (msg : string).

Arguments Returned {A} a.
Arguments InvalidLength {A} bitSize.
Arguments Panicked {A} msg.

(** *** math/big *)

Fixpoint le_bytes (fuel : nat) (n : N) : list byte :=
  match fuel with
  | O => []
  | S fuel' =>
      if (n =? 0)%N then []
      else byte_of_Z (Z.of_N (n mod 256)) :: le_bytes fuel' (n / 256)
  end.

(** [Bytes] of a [big.Int]: the absolute value, big-endian, without
    leading zero bytes. *)
Definition big_Int_Bytes (d : Z) : list byte :=
  rev (le_bytes (N.to_nat (N.size (Z.abs_N d))) (Z.abs_N d)).

(** [new(big.Int).SetBytes(buf)]: the number [buf] is, big-endian. *)
Definition big_Int_SetBytes (buf : list byte) : Z :=
  fold_left (fun acc b => (acc * 256 + Z_of_byte b)%Z) buf 0%Z.

(** The number a list of bytes is, least significant byte first; such
    a list is canonical when its most significant byte is not zero. *)
Fixpoint le_value (l : list byte) : Z :=
  match l with
  | [] => 0%Z
  | b :: l' => (Z_of_byte b + 256 * le_value l')%Z
  end.

Definition canonical (l : list byte) : Prop := last l x01 <> x00.

(** [buf] without its leading zero bytes. *)
Fixpoint trim_zeros (buf : list byte) : list byte :=
  match buf with
  | x00 :: buf' => trim_zeros buf'
  | _ => buf
  end.

(** *** What other packages provide *)

Class Curve : Type := {
  (** [secp256k1.S256().ScalarBaseMult(k)] *)
  ScalarBaseMult : list byte -> Z * Z;
  (** [elliptic.Marshal(secp256k1.S256(), x, y)] *)
  elliptic_Marshal : Z -> Z -> list byte;
  (** [uuid.NewRandom()], reading the random source *)
  uuid_NewRandom : Keystore.Reader -> list byte * Keystore.Reader
}.

(** [priv.Params().BitSize] of [secp256k1.S256()] *)
Definition BitSize : Z := 256.

(** [s[lo:]] *)
Definition slice_from (s : list byte) (lo : nat) : outcome (list byte) :=
  if (lo <=? List.length s)%nat then Returned (skipn lo s)
  else Panicked "slice bounds out of range".

Section Keys.

Context {P : Keystore.Primitives} {C : Curve}.

Definition toECDSA (d : list byte) (strict : bool) : outcome ecdsa_PrivateKey :=
  if strict && negb (8 * Z.of_nat (List.length d) =? BitSize)%Z
  then InvalidLength BitSize
  else
    let (x, y) := ScalarBaseMult d in
    Returned {| PublicKey := {| X := Some x; Y := Some y |}; D := big_Int_SetBytes d |}.

Definition fromECDSAPub (pub : ecdsa_PublicKey) : list byte :=
  match X pub, Y pub with
  | Some x, Some y => elliptic_Marshal x y
  | _, _ => []
  end.

Definition keccak256 (data : list (list byte)) : list byte :=
  Keystore.Keccak256 (List.concat data).

Definition pubkeyToAddress (p : ecdsa_PublicKey) : outcome string :=
  let pubBytes := fromECDSAPub p in
  match slice_from pubBytes 1 with
  | Returned tail =>
      match slice_from (keccak256 [tail]) 12 with
      | Returned hash => Returned (hex_EncodeToString hash)
      | InvalidLength b => InvalidLength b
      | Panicked msg => Panicked msg
      end
  | InvalidLength b => InvalidLength b
  | Panicked msg => Panicked msg
  end.

(** Second component: the random source after the call. *)
Definition KeyFromPrivateKey (privateKey : list byte) (rand : Keystore.Reader)
  : outcome Key * Keystore.Reader :=
  match toECDSA privateKey false with
  | InvalidLength b => (InvalidLength b, rand)
  | Panicked msg => (Panicked msg, rand)
  | Returned privateKeyECDSA =>
      let (id, rand) := uuid_NewRandom rand in
      match pubkeyToAddress (PublicKey privateKeyECDSA) with
      | Returned address =>
          (Returned {| ID := id; Address := address; PrivateKey := privateKeyECDSA |}, rand)
      | InvalidLength b => (InvalidLength b, rand)
      | Panicked msg => (Panicked msg, rand)
      end
  end.

Definition keystoreKeyToEthKey (key : Keystore.Key) : outcome Key :=
  match toECDSA (Keystore.PrivateKey key) false with
  | InvalidLength b => InvalidLength b
  | Panicked msg => Panicked msg
  | Returned ecdsaKey =>
      Returned {| ID := Keystore.ID key; Address := Keystore.Address key;
                  PrivateKey := ecdsaKey |}
  end.

End Keys.

Definition ethKeyToKeyStoreKey (key : Key) : Keystore.Key :=
  let bytes := big_Int_Bytes (D (PrivateKey key)) in
  {| Keystore.ID := ID key; Keystore.Address := Address key;
     Keystore.PrivateKey := bytes |}.

(** *** A small curve

    The point of a scalar is the number the scalar is and zero; a point
    is marshalled as [04] and thirty-two bytes. *)
Module Toy.

#[export] Instance curve : Curve := {|
  ScalarBaseMult := fun k => (big_Int_SetBytes k, 0%Z);
  elliptic_Marshal := fun x y => x04 :: repeat (byte_of_Z x) 32;
  uuid_NewRandom := fun rand => Keystore.GetEntropyCSPRNG 16 rand
|}.

(** A key whose scalar is below 2^248. *)
Definition key_small : Key :=
  {| ID := repeat x11 16; Address := "00a329c0648769a73afac7f9381e08fb43dbea72";
     PrivateKey := {| PublicKey := {| X := Some (2 ^ 247 + 5)%Z; Y := Some 0%Z |};
                      D := 2 ^ 247 + 5 |} |}.

End Toy.

End Eth.

(* ================================================================= *)
(** ** Package neo, continued: the wire format and signing *)

Module NeoWire.

Import Neo.

(** *** Writing to a buffer

    The writer the package serializes into is a [bytes.Buffer]
    ([GenerateWithSign]).  A function that writes takes the content of
    the buffer and gives the content afterwards, with the error it
    returned; or it does not return. *)
Inductive written : Type :=
| Wrote (content : list byte) (err : option error)
| Panicked (msg : string).

Definition writing : Type := list byte -> written.

(** [writer.Write(p)]: appends; never fails. *)
Definition Buffer_Write (p : list byte) : writing :=
  fun buff => Wrote (buff ++ p) None.

Definition skip : writing := fun buff => Wrote buff None.

(** [f], and unless it returned an error, [g]. *)
Definition andThen (f g : writing) : writing :=
  fun buff =>
    match f buff with
    | Wrote buff' None => g buff'
    | stopped => stopped
    end.

(** [for _, x := range l { if err := f(x); err != nil { return err } }] *)
Fixpoint forEach {A : Type} (f : A -> writing) (l : list A) : writing :=
  match l with
  | [] => skip
  | x :: l' => andThen (f x) (forEach f l')
  end.

(** [byte(len(l))] *)
Definition byte_len {A : Type} (l : list A) : byte := byte_of_Z (Z.of_nat (List.length l)).

(** [f] leaves what the buffer holds and appends what it appends to an
    empty one. *)
Definition appends (f : writing) : Prop :=
  forall buff,
    f buff = match f [] with
             | Wrote out err => Wrote (buff ++ out) err
             | Panicked msg => Panicked msg
             end.

(** [f] returns without an error. *)
Definition succeeds (f : writing) : bool :=
  match f [] with
  | Wrote _ None => true
  | _ => false
  end.

(** [f] returns without an error, having appended [n] bytes. *)
Definition writes (f : writing) (n : nat) : Prop :=
  forall buff, exists out, f buff = Wrote (buff ++ out) None /\ List.length out = n.

(** *** RawTxAttr.WriteBytes *)

Definition ECDH03 : byte := x03.
Definition Vote : byte := x30.
Definition Hash1 : byte := xa1.
Definition Hash15 : byte := xaf.

Definition byte_leb (a b : byte) : bool := (Byte.to_N a <=? Byte.to_N b)%N.

(** The usages written without a length byte. *)
Definition without_length (usage : byte) : bool :=
  byte_leb usage ECDH03 || Byte.eqb usage Vote
  || (byte_leb usage Hash15 && byte_leb Hash1 usage).

Definition RawTxAttr_WriteBytes (attr : RawTxAttr) : writing :=
  andThen (Buffer_Write [Usage attr])
 (andThen (if negb (without_length (Usage attr))
           then Buffer_Write [byte_len (Data attr)]
           else skip)
          (Buffer_Write (Data attr))).

(** *** RawTxInput.WriteBytes, as a writer *)

Definition Input_WriteBytes (input : RawTxInput) : writing :=
  fun buff => let (buff', err) := RawTxInput_WriteBytes input buff in Wrote buff' err.

(** *** RawTxScript.WriteBytes *)

Definition RawTxScript_WriteBytes (script : RawTxScript) : writing :=
  let length := byte_len (StackScript script) in
  andThen (Buffer_Write [byte_of_Z (Z_of_byte length + 1); length])
 (andThen (Buffer_Write (StackScript script))
 (let length := byte_len (RedeemScript script) in
  andThen (Buffer_Write [byte_of_Z (Z_of_byte length + 2); length])
 (andThen (Buffer_Write (RedeemScript script))
          (Buffer_Write [xac])))).

(** *** What other packages provide *)

Class Externals : Type := {
  (** [base58.CheckDecode(input)] of btcutil: the payload; what lies
      behind it in the capacity of the slice; the version byte *)
  base58_CheckDecode : string -> result (list byte * list byte * byte);
  (** [sha256.Sum256(data)], as a slice *)
  sha256_Sum256 : list byte -> list byte;
  (** [uint64(math.Floor(x))] where the floor is no number of
      [0 .. 2^64-1]: left to the implementation by the language *)
  uint64_out_of_range : float -> Z
}.

(** [neo.Key] is declared outside the sources.  The model keeps what the
    two methods called here return for the key: [PrivateKey.Sign(data,
    elliptic.P256())] and [PrivateKey.PublicKey.ToBytes()]. *)
Record Key : Type := {
  PrivateKey_Sign : list byte -> result (list byte);
  PublicKey_ToBytes : list byte
}.

Section Wire.

Context {E : Externals}.

(** *** decodeAddress *)

(** [result[0:20]] reaches into the capacity of [result] when the
    payload has fewer than twenty bytes. *)
Definition decodeAddress (address : string) : result (list byte) :=
  match base58_CheckDecode address with
  | OK (payload, spare, _) =>
      if (20 <=? List.length payload + List.length spare)%nat
      then OK (firstn 20 (payload ++ spare))
      else Panic "slice bounds out of range"
  | Err err => Err err
  | Panic msg => Panic msg
  end.

(** *** RawTxOutput.WriteBytes *)

(** [uint64(math.Floor(output.Value * 100000000))] *)
Definition amount_uint64 (output : RawTxOutput) : Z :=
  match amount_units (Value output) with
  | Some value => value
  | None => uint64_out_of_range (Value output * 100000000)%float
  end.

Definition RawTxOutput_WriteBytes (output : RawTxOutput) : writing :=
  fun buff =>
    match hex_DecodeString (strings_TrimPrefix (AssertID output) "0x") with
    | Err err => Wrote buff (Some err)
    | Panic msg => Panicked msg
    | OK data =>
        let buff := buff ++ reverseBytes data in
        let value := amount_uint64 output in
        let data := PutUint64 value in
        let buff := buff ++ data in
        match decodeAddress (Address output) with
        | Err err => Wrote buff (Some err)
        | Panic msg => Panicked msg
        | OK data => Wrote (buff ++ data) None
        end
    end.

(** *** The closure NewRawClaimTx installs as XData *)

Definition claims_XData (claims : list RawTxInput) : writing :=
  andThen (Buffer_Write [byte_len claims])
          (forEach Input_WriteBytes claims).

(** *** RawTx.writeSignData and RawTx.WriteBytes *)

Definition writeSignData (tx : RawTx) : writing :=
  andThen (Buffer_Write [TxType tx; x00])
 (andThen (match XData tx with
           | Some claims => claims_XData claims
           | None => skip
           end)
 (andThen (Buffer_Write [byte_len (Attributes tx)])
 (andThen (forEach RawTxAttr_WriteBytes (Attributes tx))
 (andThen (Buffer_Write [byte_len (Inputs tx)])
 (andThen (forEach Input_WriteBytes (Inputs tx))
 (andThen (Buffer_Write [byte_len (Outputs tx)])
          (forEach RawTxOutput_WriteBytes (Outputs tx)))))))).

Definition RawTx_WriteBytes (tx : RawTx) : writing :=
  andThen (writeSignData tx)
 (andThen (Buffer_Write [byte_len (Scripts tx)])
          (forEach RawTxScript_WriteBytes (Scripts tx))).

(** *** RawTx.GenerateWithSign *)

Definition with_Scripts (tx : RawTx) (scripts : list RawTxScript) : RawTx :=
  {| TxType := TxType tx; Version := Version tx; XData := XData tx;
     Attributes := Attributes tx; Inputs := Inputs tx; Outputs := Outputs tx;
     Scripts := scripts |}.

(** First component: the transaction after the call ([tx.Scripts] is
    assigned once the signature is there). *)
Definition GenerateWithSign (tx : RawTx) (key : Key)
  : RawTx * result (list byte * string) :=
  match writeSignData tx [] with
  | Panicked msg => (tx, Panic msg)
  | Wrote _ (Some err) => (tx, Err err)
  | Wrote buff None =>
      let txid := sha256_Sum256 buff in
      let txid := sha256_Sum256 txid in
      match PrivateKey_Sign key buff with
      | Panic msg => (tx, Panic msg)
      | Err err => (tx, Err err)
      | OK sign =>
          let redeemScript := PublicKey_ToBytes key in
          let tx := with_Scripts tx [ {| StackScript := sign;
                                         RedeemScript := redeemScript |} ] in
          match RawTx_WriteBytes tx [] with
          | Panicked msg => (tx, Panic msg)
          | Wrote _ (Some err) => (tx, Err err)
          | Wrote buff None => (tx, OK (buff, hex_EncodeToString (reverseBytes txid)))
          end
      end
  end.

(** *** Sizes on the wire *)

Definition attr_size (attr : RawTxAttr) : nat :=
  (if without_length (Usage attr) then 1 else 2) + List.length (Data attr).

Definition script_size (script : RawTxScript) : nat :=
  List.length (StackScript script) + List.length (RedeemScript script) + 5.

Definition XData_size (tx : RawTx) : nat :=
  match XData tx with
  | Some claims => 1 + 34 * List.length claims
  | None => 0
  end.

(** An id in hexadecimal, with or without [0x]; one of thirty-two
    bytes. *)
Definition hex_id (s : string) : bool :=
  match hex_DecodeString (strings_TrimPrefix s "0x") with
  | OK _ => true
  | _ => false
  end.

Definition id32 (s : string) : bool :=
  match hex_DecodeString (strings_TrimPrefix s "0x") with
  | OK id => (List.length id =? 32)%nat
  | _ => false
  end.

(** An address [decodeAddress] accepts. *)
Definition decodes (address : string) : bool :=
  match decodeAddress address with
  | OK _ => true
  | _ => false
  end.

End Wire.

(** *** A small implementation of what other packages provide

    An address is its own payload, without spare capacity; the hash
    keeps the first byte of its input. *)
Module Toy.

#[export] Instance externals : Externals := {|
  base58_CheckDecode := fun input => OK (list_byte_of_string input, [], x17);
  sha256_Sum256 := fun data => firstn 1 data;
  uint64_out_of_range := fun _ => 0%Z
|}.

Definition key : Key :=
  {| PrivateKey_Sign := fun data => OK (firstn 2 data); PublicKey_ToBytes := [x02; x03] |}.

Definition address : string := "AAAAAAAAAAAAAAAAAAAAAAAA".

Definition txid : string :=
  "0x0000000000000000000000000000000000000000000000000000000000000001".

End Toy.

End NeoWire.

(* ================================================================= *)
(** ** Package wif: a private key from its import format *)

Module Wif.

(** The errors [FromWIF] returns, by the place that builds them. *)
Inductive error : Type :=
| ErrDecode (err : Go.error)   (* the error of [base58.Decode] *)
| ErrLength (n : nat)          (* "Expected length of decoded WIF to be 38, got: %d" *)
| ErrFirstByte (b : byte)      (* "Expected first byte of decoded WIF to be '0x80', got: %x" *)
| ErrByte34 (b : byte)         (* "Expected 34th byte of decoded WIF to be '0x01', got: %x" *)
| ErrChecksum.                 (* "WIF failed checksum validation" *)

Inductive outcome : Type :=
| Returned (key : list byte)
| Failed (err : error)
| Panicked (msg : string).

Class Externals : Type := {
  (** [Decode] of the package base58 of this repository *)
  base58_Decode : string -> result (list byte);
  (** [sha256.Sum256(data)], as a slice *)
  sha256_Sum256 : list byte -> list byte
}.

Section FromWIF.

Context {E : Externals}.

(** The slices are taken within the thirty-eight bytes the length check
    leaves; [nth] reads [decodedWIF[i]]. *)
Definition FromWIF (wif : string) : outcome :=
  match base58_Decode wif with
  | Err err => Failed (ErrDecode err)
  | Panic msg => Panicked msg
  | OK decodedWIF =>
      if negb (List.length decodedWIF =? 38)%nat
      then Failed (ErrLength (List.length decodedWIF))
      else if negb (Byte.eqb (nth 0 decodedWIF x00) x80)
      then Failed (ErrFirstByte (nth 0 decodedWIF x00))
      else if negb (Byte.eqb (nth 33 decodedWIF x00) x01)
      then Failed (ErrByte34 (nth 33 decodedWIF x00))
      else
        let subString := firstn (List.length decodedWIF - 4) decodedWIF in
        let firstSHA := sha256_Sum256 subString in
        let secondSHA := sha256_Sum256 firstSHA in
        let firstFourBytes := firstn 4 secondSHA in
        let lastFourBytes := skipn (List.length decodedWIF - 4) decodedWIF in
        if negb (Keystore.bytes_Equal firstFourBytes lastFourBytes)
        then Failed ErrChecksum
        else Returned (firstn 32 (skipn 1 decodedWIF))
  end.

(** The checksum of a key: the first four bytes of the double hash of
    [80], the key and [01]. *)
Definition checksum (key : list byte) : list byte :=
  firstn 4 (sha256_Sum256 (sha256_Sum256 (x80 :: key ++ [x01]))).

End FromWIF.

(** A small implementation: the text is its own decoding, the hash
    keeps the first four bytes of its input. *)
Module Toy.

#[export] Instance externals : Externals := {|
  base58_Decode := fun s => OK (list_byte_of_string s);
  sha256_Sum256 := fun data => firstn 4 data
|}.

End Toy.

End Wif.

(* ================================================================= *)
(** ** Properties of the shared Go functions *)

Section GoFacts.

Lemma bind_OK {A B : Type} (r : result A) (k : A -> result B) (b : B) :
  bind r k = OK b -> exists a, r = OK a /\ k a = OK b.
Proof.
  destruct r as [a | e | m]; simpl; intro H; try discriminate.
  exists a; split; [reflexivity | exact H].
Qed.

Lemma hex_byte_roundtrip (v : byte) :
  fromHexChar (hex_digit (Byte.to_N v / 16)) = Some (Byte.to_N v / 16)%N /\
  fromHexChar (hex_digit (Byte.to_N v mod 16)) = Some (Byte.to_N v mod 16)%N /\
  byte_of_Z (Z.of_N (Byte.to_N v / 16 * 16 + Byte.to_N v mod 16)) = v.
Proof. destruct v; repeat split; reflexivity. Qed.

Lemma hex_Decode_Encode (src : list byte) : hex_Decode (hex_Encode src) = OK src.
Proof.
  induction src as [| v src IH]; [reflexivity |].
  destruct (hex_byte_roundtrip v) as (Hhi & Hlo & Hv).
  cbn [hex_Encode hex_Decode]. rewrite Hhi, Hlo, IH. cbn [bind]. now rewrite Hv.
Qed.

Lemma hex_DecodeString_EncodeToString (src : list byte) :
  hex_DecodeString (hex_EncodeToString src) = OK src.
Proof.
  unfold hex_DecodeString, hex_EncodeToString.
  rewrite list_byte_of_string_of_list_byte. apply hex_Decode_Encode.
Qed.

(** [hex.Decode] returns or reports an error. *)
Lemma hex_Decode_returns (src : list byte) (msg : string) : hex_Decode src <> Panic msg.
Proof.
  assert (H : forall n src, (List.length src <= n)%nat -> hex_Decode src <> Panic msg).
  { induction n as [| n IH]; intros [| p [| q s]] Hlen; cbn [hex_Decode];
      try discriminate; try (simpl in Hlen; lia).
    - destruct (fromHexChar p); discriminate.
    - destruct (fromHexChar p); [| discriminate].
      destruct (fromHexChar q); [| discriminate].
      specialize (IH s ltac:(simpl in Hlen; lia)).
      destruct (hex_Decode s); [discriminate | discriminate |].
      cbn [bind]. exact IH. }
  exact (H _ src (Nat.le_refl _)).
Qed.

Lemma hex_DecodeString_returns (s : string) (msg : string) :
  hex_DecodeString s <> Panic msg.
Proof. apply hex_Decode_returns. Qed.

Lemma hex_Encode_length (src : list byte) :
  List.length (hex_Encode src) = (2 * List.length src)%nat.
Proof. induction src as [| v src IH]; simpl; [reflexivity | rewrite IH; lia]. Qed.

(** Insertion leaves the elements alone. *)
Lemma insertLeft_perm {A : Type} (less : A -> A -> bool) (x : A) (rp : list A) :
  Permutation (insertLeft less x rp) (x :: rp).
Proof.
  induction rp as [| y rp IH]; simpl; [apply Permutation_refl |].
  destruct (less x y); [| apply Permutation_refl].
  eapply Permutation_trans; [apply perm_skip, IH | apply perm_swap].
Qed.

Lemma fold_insertLeft_perm {A : Type} (less : A -> A -> bool) (data acc : list A) :
  Permutation (fold_left (fun rp x => insertLeft less x rp) data acc) (data ++ acc).
Proof.
  revert acc; induction data as [| x data IH]; intro acc; simpl.
  - apply Permutation_refl.
  - eapply Permutation_trans; [apply IH |].
    eapply Permutation_trans;
      [apply Permutation_app_head, insertLeft_perm | apply Permutation_sym, Permutation_middle].
Qed.

Lemma sort_Sort_perm {A : Type} (less : A -> A -> bool) (data : list A) :
  Permutation data (sort_Sort less data).
Proof.
  unfold sort_Sort, insertionSort. apply Permutation_sym.
  eapply Permutation_trans; [apply Permutation_sym, Permutation_rev |].
  eapply Permutation_trans; [apply fold_insertLeft_perm |].
  rewrite app_nil_r. apply Permutation_refl.
Qed.

(** *** Sorting puts a slice in order *)

Section Sorting.

Context {A : Type} (less : A -> A -> bool).

Hypothesis less_asym : forall a b, less a b = true -> less b a = false.

Lemma in_order_rev_tail (b : A) (rp : list A) :
  in_order_rev less (b :: rp) = true -> in_order_rev less rp = true.
Proof.
  destruct rp as [| a rp]; [reflexivity |]. cbn [in_order_rev].
  intros H. now apply andb_true_iff in H.
Qed.

Lemma insertLeft_head (x : A) (rp : list A) :
  exists t, insertLeft less x rp = x :: t \/
            exists y rp', rp = y :: rp' /\ less x y = true /\ insertLeft less x rp = y :: t.
Proof.
  destruct rp as [| y rp']; cbn [insertLeft].
  - exists []. now left.
  - destruct (less x y) eqn:E.
    + exists (insertLeft less x rp'). right. now exists y, rp'.
    + exists (y :: rp'). now left.
Qed.

Lemma insertLeft_in_order_rev (x : A) (rp : list A) :
  in_order_rev less rp = true -> in_order_rev less (insertLeft less x rp) = true.
Proof.
  induction rp as [| y rp IH]; intros H; [reflexivity |].
  cbn [insertLeft]. destruct (less x y) eqn:Exy.
  - specialize (IH (in_order_rev_tail _ _ H)).
    destruct (insertLeft_head x rp) as (t & [E | (y' & rp' & -> & Hxy' & E)]);
      rewrite E in *.
    + change (negb (less y x) && in_order_rev less (x :: t) = true).
      now rewrite IH, (less_asym _ _ Exy).
    + change (negb (less y y') && in_order_rev less (y' :: t) = true).
      rewrite IH, andb_true_r.
      change (negb (less y y') && in_order_rev less (y' :: rp') = true) in H.
      now apply andb_true_iff in H.
  - change (negb (less x y) && in_order_rev less (y :: rp) = true).
    now rewrite Exy, H.
Qed.

Lemma fold_insertLeft_in_order_rev (data acc : list A) :
  in_order_rev less acc = true ->
  in_order_rev less (fold_left (fun rp x => insertLeft less x rp) data acc) = true.
Proof.
  revert acc; induction data as [| x data IH]; intros acc H; [exact H |].
  cbn [fold_left]. apply IH, insertLeft_in_order_rev, H.
Qed.

End Sorting.

Lemma in_order_snoc {A : Type} (less : A -> A -> bool) (l : list A) (b : A) :
  in_order less (l ++ [b])
  = in_order less l && match rev l with a :: _ => negb (less b a) | [] => true end.
Proof.
  induction l as [| a l IH]; [reflexivity |].
  destruct l as [| a' l].
  - cbn. now rewrite andb_true_r.
  - change (in_order less ((a :: a' :: l) ++ [b]))
      with (negb (less a' a) && in_order less ((a' :: l) ++ [b])).
    rewrite IH. change (in_order less (a :: a' :: l))
      with (negb (less a' a) && in_order less (a' :: l)).
    rewrite <- andb_assoc. do 2 f_equal.
    change (rev (a :: a' :: l)) with (rev (a' :: l) ++ [a]).
    destruct (rev (a' :: l)) eqn:E; [| reflexivity].
    apply (f_equal (@List.length A)) in E. rewrite length_rev in E. discriminate.
Qed.

Lemma in_order_rev_spec {A : Type} (less : A -> A -> bool) (rp : list A) :
  in_order less (rev rp) = in_order_rev less rp.
Proof.
  induction rp as [| b rp IH]; [reflexivity |].
  cbn [rev]. rewrite in_order_snoc, IH, rev_involutive.
  destruct rp as [| a rp]; [reflexivity |].
  cbn [in_order_rev]. apply andb_comm.
Qed.

(** What [sort.Sort] leaves is in order, for any [Less] that never
    holds both ways. *)
Lemma sort_Sort_in_order {A : Type} (less : A -> A -> bool) (data : list A) :
  (forall a b, less a b = true -> less b a = false) ->
  in_order less (sort_Sort less data) = true.
Proof.
  intros Hasym. unfold sort_Sort, insertionSort.
  rewrite in_order_rev_spec. now apply fold_insertLeft_in_order_rev.
Qed.

Lemma fold_insertLeft_in_order {A : Type} (less : A -> A -> bool) (data pre : list A) :
  in_order less (pre ++ data) = true ->
  fold_left (fun rp x => insertLeft less x rp) data (rev pre) = rev (pre ++ data).
Proof.
  revert pre; induction data as [| x data IH]; intros pre H.
  - now rewrite app_nil_r.
  - cbn [fold_left].
    replace (pre ++ x :: data) with ((pre ++ [x]) ++ data) in *
      by (rewrite <- app_assoc; reflexivity).
    rewrite <- IH by exact H. f_equal.
    rewrite rev_app_distr. cbn [rev app].
    destruct (rev pre) as [| y rp] eqn:E; [reflexivity |].
    cbn [insertLeft].
    assert (Hy : less x y = false).
    { assert (Hpre : in_order less (pre ++ [x]) = true).
      { clear IH. revert H. generalize (pre ++ [x]) as l. intros l.
        induction l as [| a l IHl]; [reflexivity |].
        destruct l as [| a' l]; [reflexivity |].
        change (((a :: a' :: l) ++ data)) with (a :: a' :: (l ++ data)).
        cbn [in_order]. intros H. apply andb_true_iff in H as [H1 H2].
        rewrite H1. apply IHl. exact H2. }
      rewrite in_order_snoc, E in Hpre. apply andb_true_iff in Hpre as [_ Hpre].
      now apply negb_true_iff in Hpre. }
    now rewrite Hy.
Qed.

(** A slice that is in order is left as it is. *)
Lemma sort_Sort_id {A : Type} (less : A -> A -> bool) (data : list A) :
  in_order less data = true -> sort_Sort less data = data.
Proof.
  intros H. unfold sort_Sort, insertionSort.
  pose proof (fold_insertLeft_in_order less data [] H) as E. cbn [rev app] in E.
  rewrite E. apply rev_involutive.
Qed.

Lemma string_of_list_byte_length (l : list byte) :
  String.length (string_of_list_byte l) = List.length l.
Proof.
  unfold string_of_list_byte.
  induction l as [| b l IH]; [reflexivity |].
  cbn [map string_of_list_ascii String.length]. now rewrite IH.
Qed.

(** *** Counting byte strings *)

Lemma all_bytes_complete (b : byte) : In b all_bytes.
Proof.
  assert (H : existsb (Byte.eqb b) all_bytes = true) by (destruct b; vm_compute; reflexivity).
  apply existsb_exists in H as (x & Hx & E).
  apply Byte.byte_dec_bl in E. now subst x.
Qed.

Lemma all_bytes_NoDup : NoDup all_bytes.
Proof.
  assert (H : nodup Byte.byte_eq_dec all_bytes = all_bytes) by (vm_compute; reflexivity).
  rewrite <- H. apply NoDup_nodup.
Qed.

Lemma all_lists_spec (n : nat) (l : list byte) : In l (all_lists n) <-> List.length l = n.
Proof.
  revert l; induction n as [| n IH]; intros l; cbn [all_lists].
  - split.
    + intros [<- | []]. reflexivity.
    + intros H. left. symmetry. now apply length_zero_iff_nil.
  - rewrite in_flat_map. split.
    + intros (b & _ & H). apply in_map_iff in H as (t & <- & Ht).
      cbn. f_equal. now apply IH.
    + destruct l as [| b t]; [discriminate |]. intros [= H].
      exists b. split; [apply all_bytes_complete |].
      apply in_map_iff. exists t. split; [reflexivity | now apply IH].
Qed.

Lemma length_all_lists (n : nat) :
  List.length (all_lists (S n)) = (256 * List.length (all_lists n))%nat.
Proof.
  cbn [all_lists].
  assert (H : forall bs : list byte,
             List.length (flat_map (fun b => map (cons b) (all_lists n)) bs)
             = (List.length bs * List.length (all_lists n))%nat).
  { induction bs as [| b bs IH]; [reflexivity |].
    cbn [flat_map]. rewrite length_app, length_map, IH. reflexivity. }
  rewrite H. reflexivity.
Qed.

Lemma all_lists_nonempty (n : nat) : (0 < List.length (all_lists n))%nat.
Proof.
  induction n as [| n IH]; [cbn; lia |]. rewrite length_all_lists. lia.
Qed.

Lemma NoDup_map_cons (b : byte) (ls : list (list byte)) :
  NoDup ls -> NoDup (map (cons b) ls).
Proof.
  induction 1 as [| l ls Hl _ IH]; cbn [map]; constructor; [| exact IH].
  intros H. apply in_map_iff in H as (t & [= ->] & Ht). contradiction.
Qed.

Lemma all_lists_NoDup (n : nat) : NoDup (all_lists n).
Proof.
  induction n as [| n IH]; cbn [all_lists]; [repeat constructor; intros [] |].
  generalize all_bytes_NoDup. generalize all_bytes as bs.
  induction bs as [| b bs IHbs]; intros Hbs; [constructor |].
  cbn [flat_map]. inversion Hbs as [| ? ? Hb Hbs']; subst.
  apply NoDup_app.
  - apply NoDup_map_cons, IH.
  - apply IHbs, Hbs'.
  - intros l Hl Hl'. apply in_map_iff in Hl as (t & <- & _).
    apply in_flat_map in Hl' as (b' & Hb' & H).
    apply in_map_iff in H as (t' & [= -> _] & _). contradiction.
Qed.

(** A function on a list without repetition either keeps it so or
    sends two of its elements to one value. *)
Lemma collision {A B : Type} (eq_dec : forall x y : B, {x = y} + {x <> y})
    (f : A -> B) (l : list A) :
  NoDup l ->
  NoDup (map f l) \/ exists a b, In a l /\ In b l /\ a <> b /\ f a = f b.
Proof.
  induction 1 as [| a l Ha Hl IH]; [left; constructor |].
  destruct IH as [IH | (x & y & Hx & Hy & Hne & E)].
  - destruct (in_dec eq_dec (f a) (map f l)) as [Hin | Hout].
    + right. apply in_map_iff in Hin as (b & E & Hb).
      exists a, b. split; [now left |]. split; [now right |].
      split; [| now symmetry]. intros ->. contradiction.
    + left. cbn [map]. now constructor.
  - right. exists x, y. split; [now right |]. split; [now right |]. now split.
Qed.

(** There are more byte strings of [n + 1] bytes than of [n] bytes: a
    function from the ones to the others takes some value twice. *)
Lemma pigeonhole (n : nat) (f : list byte -> list byte) :
  (forall l, List.length l = S n -> List.length (f l) = n) ->
  exists a b,
    List.length a = S n /\ List.length b = S n /\ a <> b /\ f a = f b.
Proof.
  intros Hf.
  destruct (collision (list_eq_dec Byte.byte_eq_dec) f (all_lists (S n))
              (all_lists_NoDup (S n)))
    as [Hnd | (a & b & Ha & Hb & Hne & E)].
  - exfalso.
    assert (Hincl : incl (map f (all_lists (S n))) (all_lists n)).
    { intros y Hy. apply in_map_iff in Hy as (x & <- & Hx).
      apply all_lists_spec, Hf. now apply all_lists_spec. }
    pose proof (NoDup_incl_length Hnd Hincl) as Hle.
    rewrite length_map, length_all_lists in Hle.
    pose proof (all_lists_nonempty n). lia.
  - exists a, b. repeat split; try assumption; now apply all_lists_spec.
Qed.

End GoFacts.

(* ================================================================= *)
(** ** float64 comparisons *)

Module FloatFacts.

Open Scope float_scope.

Lemma SFcompare_antisym (x y : spec_float) :
  SFcompare y x = option_map CompOpp (SFcompare x y).
Proof.
  destruct x as [sx | sx | | sx mx ex], y as [sy | sy | | sy my ey]; simpl;
    repeat match goal with b : bool |- _ => destruct b end; simpl; try reflexivity.
  - rewrite (Z.compare_antisym ex ey). destruct (ex ?= ey)%Z; simpl; try reflexivity.
    rewrite CompOpp_involutive. f_equal.
    exact (Pos.compare_cont_antisym my mx Eq).
  - rewrite (Z.compare_antisym ex ey). destruct (ex ?= ey)%Z; simpl; try reflexivity.
    f_equal. symmetry. exact (Pos.compare_cont_antisym mx my Eq).
Qed.

(** [<] on [float64] is asymmetric, whatever the operands are. *)
Lemma ltb_asym (x y : float) : (x <? y) = true -> (y <? x) = false.
Proof.
  rewrite !ltb_spec. unfold SFltb.
  rewrite (SFcompare_antisym (Prim2SF x) (Prim2SF y)).
  destruct (SFcompare (Prim2SF x) (Prim2SF y)) as [[| |] |]; simpl; congruence.
Qed.

(** Operands that compare equal are not ordered by [<]. *)
Lemma eqb_not_ltb (x y : float) :
  (x =? y) = true -> (x <? y) = false /\ (y <? x) = false.
Proof.
  rewrite eqb_spec, !ltb_spec. unfold SFeqb, SFltb.
  rewrite (SFcompare_antisym (Prim2SF x) (Prim2SF y)).
  destruct (SFcompare (Prim2SF x) (Prim2SF y)) as [[| |] |]; simpl; intro H;
    (discriminate || split; reflexivity).
Qed.

(** *** Subtraction of binary64 numbers *)

Open Scope Z_scope.

Lemma digits2_pos_lower (m : positive) :
  2 ^ (Z.pos (digits2_pos m) - 1) <= Z.pos m.
Proof.
  induction m as [m IH | m IH |]; cbn [digits2_pos].
  - rewrite Pos2Z.inj_succ. replace (Z.succ (Z.pos (digits2_pos m)) - 1)
      with (Z.succ (Z.pos (digits2_pos m) - 1)) by lia.
    rewrite Z.pow_succ_r by lia. lia.
  - rewrite Pos2Z.inj_succ. replace (Z.succ (Z.pos (digits2_pos m)) - 1)
      with (Z.succ (Z.pos (digits2_pos m) - 1)) by lia.
    rewrite Z.pow_succ_r by lia. lia.
  - simpl. lia.
Qed.

Lemma digits2_pos_upper (m : positive) :
  Z.pos m < 2 ^ Z.pos (digits2_pos m).
Proof.
  induction m as [m IH | m IH |]; cbn [digits2_pos].
  - rewrite Pos2Z.inj_succ, Z.pow_succ_r by lia. lia.
  - rewrite Pos2Z.inj_succ, Z.pow_succ_r by lia. lia.
  - simpl. lia.
Qed.

Lemma shr_1_m (r : shr_record) :
  0 <= shr_m r -> shr_m (shr_1 r) = shr_m r / 2.
Proof.
  destruct r as [m r s]. cbn [shr_m]. intros Hm.
  rewrite <- Z.div2_div.
  destruct m as [| [p | p |] | p]; try reflexivity; lia.
Qed.

Lemma iter_shr_1_m (p : positive) :
  forall r, 0 <= shr_m r -> shr_m (iter_pos shr_1 p r) = shr_m r / 2 ^ Z.pos p.
Proof.
  induction p as [p IH | p IH |]; intros r Hr; cbn [iter_pos].
  - assert (H1 : 0 <= shr_m (shr_1 r)) by (rewrite shr_1_m by lia; apply Z.div_pos; lia).
    assert (H2 : 0 <= shr_m (iter_pos shr_1 p (shr_1 r)))
      by (rewrite IH by lia; apply Z.div_pos; lia).
    rewrite IH, IH, shr_1_m by assumption.
    rewrite !Z.div_div by lia.
    f_equal. replace (Z.pos p~1) with (1 + Z.pos p + Z.pos p) by lia.
    rewrite !Z.pow_add_r by lia. rewrite Z.pow_1_r. ring.
  - assert (H2 : 0 <= shr_m (iter_pos shr_1 p r))
      by (rewrite IH by lia; apply Z.div_pos; lia).
    rewrite IH, IH by assumption.
    rewrite !Z.div_div by lia.
    f_equal. replace (Z.pos p~0) with (Z.pos p + Z.pos p) by lia.
    rewrite !Z.pow_add_r by lia. ring.
  - rewrite shr_1_m by lia. reflexivity.
Qed.

Lemma shr_fexp_pos (m : positive) (e : Z) (l : location) :
  emin64 <= e ->
  0 < shr_m (fst (shr_fexp prec emax (Z.pos m) e l)) /\
  emin64 <= snd (shr_fexp prec emax (Z.pos m) e l).
Proof.
  intros He. unfold shr_fexp, shr. cbn [Zdigits2].
  destruct (SpecFloat.fexp prec emax (Z.pos (digits2_pos m) + e) - e) as [| p | p] eqn:En;
    cbn [fst snd].
  - split; [destruct l as [| []]; cbn; lia | lia].
  - split; [| lia].
    rewrite iter_shr_1_m by (destruct l as [| []]; cbn; lia).
    replace (shr_m (shr_record_of_loc (Z.pos m) l)) with (Z.pos m)
      by (destruct l as [| []]; reflexivity).
    assert (Hp : Z.pos p <= Z.pos (digits2_pos m) - 1).
    { unfold SpecFloat.fexp, emin64, SpecFloat.emin, prec, emax in *. lia. }
    pose proof (digits2_pos_lower m) as Hlow.
    assert (2 ^ Z.pos p <= Z.pos m).
    { eapply Z.le_trans; [| exact Hlow]. apply Z.pow_le_mono_r; lia. }
    apply Z.div_str_pos. lia.
  - split; [destruct l as [| []]; cbn; lia | lia].
Qed.

Lemma binary_round_aux_nonzero (s : bool) (m : positive) (e : Z) (l : location) :
  emin64 <= e ->
  forall s', binary_round_aux prec emax s (Z.pos m) e l <> S754_zero s'.
Proof.
  intros He s'. unfold binary_round_aux.
  pose proof (shr_fexp_pos m e l He) as [H1 H2].
  destruct (shr_fexp prec emax (Z.pos m) e l) as [mrs' e'] eqn:E1. cbn [fst snd] in *.
  set (m2 := round_nearest_even (shr_m mrs') (loc_of_shr_record mrs')).
  assert (Hm2 : 0 < m2).
  { unfold m2, round_nearest_even.
    destruct (loc_of_shr_record mrs') as [| []]; try lia.
    destruct (Z.even (shr_m mrs')); lia. }
  destruct m2 as [| m2 | m2]; try lia.
  pose proof (shr_fexp_pos m2 e' loc_Exact H2) as [H3 H4].
  destruct (shr_fexp prec emax (Z.pos m2) e' loc_Exact) as [mrs'' e''] eqn:E2.
  cbn [fst snd] in *.
  destruct (shr_m mrs'') as [| q | q]; try lia.
  destruct (e'' <=? emax - prec); discriminate.
Qed.

Lemma fexp_ge_emin (e : Z) : emin64 <= SpecFloat.fexp prec emax e.
Proof. unfold SpecFloat.fexp, emin64. lia. Qed.

Lemma binary_round_nonzero (s : bool) (m : positive) (e : Z) :
  emin64 <= e ->
  forall s', binary_round prec emax s m e <> S754_zero s'.
Proof.
  intros He s'. unfold binary_round, shl_align.
  destruct (SpecFloat.fexp prec emax (Z.pos (digits2_pos m) + e) - e);
    apply binary_round_aux_nonzero; try assumption; apply fexp_ge_emin.
Qed.

Lemma binary_normalize_nonzero (m e : Z) (szero : bool) :
  m <> 0 -> emin64 <= e ->
  forall s', binary_normalize prec emax m e szero <> S754_zero s'.
Proof.
  intros Hm He s'. destruct m as [| m | m]; [contradiction | |];
    apply binary_round_nonzero; assumption.
Qed.

Lemma shl_align_value (m : positive) (e ez : Z) :
  ez <= e -> Z.pos (fst (shl_align m e ez)) = Z.pos m * 2 ^ (e - ez).
Proof.
  intros H. unfold shl_align.
  destruct (ez - e) as [| d | d] eqn:E; cbn [fst]; try lia.
  - replace (e - ez) with 0 by lia. lia.
  - change (Pos.iter xO m d) with (shift_pos d m).
    rewrite shift_pos_correct, Z.pow_pos_fold.
    replace (e - ez) with (Z.pos d) by lia. lia.
Qed.

Lemma bounded_facts (m : positive) (e : Z) :
  bounded prec emax m e = true ->
  emin64 <= e /\ Z.pos (digits2_pos m) <= prec /\
  (emin64 < e -> Z.pos (digits2_pos m) = prec).
Proof.
  unfold bounded, canonical_mantissa. intros H.
  apply andb_true_iff in H as [H _]. apply Z.eqb_eq in H.
  unfold SpecFloat.fexp, emin64 in *. lia.
Qed.

Lemma digits2_pos_unique (p : positive) (k : Z) :
  2 ^ (k - 1) <= Z.pos p < 2 ^ k -> Z.pos (digits2_pos p) = k.
Proof.
  intros [Hlo Hhi].
  pose proof (digits2_pos_lower p) as L. pose proof (digits2_pos_upper p) as U.
  assert (Hk : 0 < k).
  { destruct (Z.ltb_spec 0 k) as [H | H]; [exact H |].
    rewrite (Z.pow_neg_r 2 (k - 1)) in Hlo by lia.
    assert (2 ^ k <= 1); [| lia].
    destruct (Z.eq_dec k 0) as [-> | Hne]; [simpl; lia |].
    rewrite Z.pow_neg_r by lia. lia. }
  assert (H1 : Z.pos (digits2_pos p) - 1 < k).
  { apply (Z.pow_lt_mono_r_iff 2); lia. }
  assert (H2 : k - 1 < Z.pos (digits2_pos p)).
  { apply (Z.pow_lt_mono_r_iff 2); lia. }
  lia.
Qed.

Lemma shl_align_snd (m : positive) (e ez : Z) :
  ez <= e -> snd (shl_align m e ez) = ez.
Proof.
  intros H. unfold shl_align.
  destruct (ez - e) as [| d | d] eqn:E; cbn [snd]; lia.
Qed.

(** An integer of at most fifty-three bits is a binary64 number: it is
    rounded to itself, with a mantissa of fifty-three bits. *)
Lemma binary_round_exact (s : bool) (m : positive) :
  Z.pos m < 2 ^ 53 ->
  exists mz ez,
    binary_round prec emax s m 0 = S754_finite s mz ez /\
    bounded prec emax mz ez = true /\
    ez <= 0 /\ Z.pos mz = Z.pos m * 2 ^ (- ez).
Proof.
  intros Hm.
  pose proof (digits2_pos_lower m) as L. pose proof (digits2_pos_upper m) as U.
  set (d := Z.pos (digits2_pos m)) in *.
  assert (Hd : d <= 53).
  { assert (d - 1 < 53); [| lia]. apply (Z.pow_lt_mono_r_iff 2); lia. }
  assert (Hd0 : 0 < d) by (unfold d; lia).
  assert (Hprec : prec = 53) by reflexivity.
  assert (Hemax : emax = 1024) by reflexivity.
  assert (Hfexp : forall e, SpecFloat.fexp prec emax e = Z.max (e - 53) (-1074)).
  { intros e. unfold SpecFloat.fexp, SpecFloat.emin. rewrite Hprec, Hemax. reflexivity. }
  unfold binary_round. fold d. rewrite Hfexp.
  replace (Z.max (d + 0 - 53) (-1074)) with (d - 53) by lia.
  pose proof (shl_align_value m 0 (d - 53) ltac:(lia)) as Hv.
  pose proof (shl_align_snd m 0 (d - 53) ltac:(lia)) as Hs.
  destruct (shl_align m 0 (d - 53)) as [mz ez]. cbn [fst snd] in Hv, Hs. subst ez.
  replace (0 - (d - 53)) with (53 - d) in Hv by lia.
  assert (Hdz : Z.pos (digits2_pos mz) = 53).
  { apply digits2_pos_unique. rewrite Hv. split.
    - replace (53 - 1) with ((d - 1) + (53 - d)) by lia.
      rewrite Z.pow_add_r by lia.
      apply Z.mul_le_mono_nonneg_r; [apply Z.pow_nonneg; lia | exact L].
    - replace 53 with (d + (53 - d)) at 2 by lia.
      rewrite Z.pow_add_r by lia.
      apply Z.mul_lt_mono_pos_r; [apply Z.pow_pos_nonneg; lia | exact U]. }
  exists mz, (d - 53).
  assert (Hshr : shr_fexp prec emax (Z.pos mz) (d - 53) loc_Exact
                 = ({| shr_m := Z.pos mz; shr_r := false; shr_s := false |}, d - 53)).
  { unfold shr_fexp. cbn [Zdigits2]. rewrite Hdz, Hfexp.
    replace (Z.max (53 + (d - 53) - 53) (-1074) - (d - 53)) with 0 by lia.
    reflexivity. }
  split; [| split; [| split]].
  - unfold binary_round_aux. rewrite Hshr.
    cbn [shr_m loc_of_shr_record round_nearest_even]. rewrite Hshr.
    cbn [shr_m]. rewrite Hprec, Hemax.
    destruct (Z.leb_spec (d - 53) (1024 - 53)) as [_ | H]; [reflexivity | lia].
  - unfold bounded, canonical_mantissa. rewrite Hdz, Hfexp, Hprec, Hemax.
    apply andb_true_iff; split; [apply Z.eqb_eq | apply Z.leb_le]; lia.
  - lia.
  - rewrite Hv. f_equal. f_equal. lia.
Qed.

(** A canonical number of smaller exponent is the smaller number. *)
Lemma canonical_lt (m1 : positive) (e1 : Z) (m2 : positive) (e2 : Z) :
  bounded prec emax m1 e1 = true -> bounded prec emax m2 e2 = true ->
  e1 < e2 ->
  Z.pos m1 * 2 ^ (e1 - e1) < Z.pos m2 * 2 ^ (e2 - e1).
Proof.
  intros B1 B2 Hlt.
  apply bounded_facts in B1 as (He1 & Hd1 & _).
  apply bounded_facts in B2 as (He2 & _ & Hd2).
  specialize (Hd2 ltac:(lia)).
  pose proof (digits2_pos_upper m1) as U1.
  pose proof (digits2_pos_lower m2) as L2.
  rewrite Hd2 in L2. rewrite Z.sub_diag, Z.pow_0_r, Z.mul_1_r.
  assert (Z.pos m1 < 2 ^ prec).
  { eapply Z.lt_le_trans; [exact U1 |]. apply Z.pow_le_mono_r; lia. }
  assert (2 ^ 1 <= 2 ^ (e2 - e1)) by (apply Z.pow_le_mono_r; lia).
  assert (2 ^ prec = 2 ^ (prec - 1) * 2 ^ 1)
    by (rewrite <- Z.pow_add_r by (unfold prec; lia); f_equal; lia).
  nia.
Qed.

Lemma SFsub_nonzero (x y : spec_float) :
  valid_binary x = true -> valid_binary y = true ->
  SFltb x y = true ->
  forall s, SFsub prec emax y x <> S754_zero s.
Proof.
  intros Vx Vy Hlt s. unfold SFltb in Hlt.
  destruct x as [sx | sx | | sx mx ex], y as [sy | sy | | sy my ey];
    cbn [SFcompare] in Hlt; try discriminate;
    try (cbn [SFsub]; repeat match goal with b : bool |- _ => destruct b end;
         discriminate).
  cbn [SpecFloat.valid_binary] in Vx, Vy. cbn [SFsub].
  pose proof (bounded_facts _ _ Vx) as (Hex & _ & _).
  pose proof (bounded_facts _ _ Vy) as (Hey & _ & _).
  apply binary_normalize_nonzero; [| lia].
  rewrite !shl_align_value by lia.
  assert (Px : 0 < Z.pos mx * 2 ^ (ex - Z.min ey ex))
    by (apply Z.mul_pos_pos; [lia | apply Z.pow_pos_nonneg; lia]).
  assert (Py : 0 < Z.pos my * 2 ^ (ey - Z.min ey ex))
    by (apply Z.mul_pos_pos; [lia | apply Z.pow_pos_nonneg; lia]).
  destruct sx, sy; cbn [cond_Zopp]; try discriminate; try lia.
  - (* both negative: [ey < ex], or equal exponents and [my < mx] *)
    destruct (Z.compare_spec ex ey) as [E | E | E]; try discriminate.
    + subst ey. rewrite Z.min_id, Z.sub_diag, Z.pow_0_r, !Z.mul_1_r in *.
      destruct (Pos.compare_cont Eq mx my) eqn:C; try discriminate.
      rewrite Pos.compare_gt_iff in C. lia.
    + pose proof (canonical_lt _ _ _ _ Vy Vx E) as H.
      rewrite Z.min_l by lia. lia.
  - (* both positive: [ex < ey], or equal exponents and [mx < my] *)
    destruct (Z.compare_spec ex ey) as [E | E | E]; try discriminate.
    + subst ey. rewrite Z.min_id, Z.sub_diag, Z.pow_0_r, !Z.mul_1_r in *.
      destruct (Pos.compare_cont Eq mx my) eqn:C; try discriminate.
      rewrite Pos.compare_lt_iff in C. lia.
    + pose proof (canonical_lt _ _ _ _ Vx Vy E) as H.
      rewrite Z.min_r by lia. lia.
Qed.

(** A difference of two different numbers is not zero: subtraction
    underflows gradually. *)
Lemma ltb_sub_nonzero (x y : float) :
  (x <? y)%float = true -> (y - x =? 0)%float = false.
Proof.
  rewrite ltb_spec, eqb_spec, sub_spec. intros Hlt.
  pose proof (SFsub_nonzero _ _ (Prim2SF_valid x) (Prim2SF_valid y) Hlt) as Hnz.
  unfold SF64sub. change (Prim2SF 0%float) with (S754_zero false).
  destruct (SFsub prec emax (Prim2SF y) (Prim2SF x)) as [s | s | | s m e];
    [exfalso; exact (Hnz s eq_refl) | destruct s; reflexivity | reflexivity
    | destruct s; reflexivity].
Qed.

End FloatFacts.

(* ================================================================= *)
(** ** Properties of package neo *)

Module NeoFacts.

Import Neo.
Open Scope float_scope.

(** *** reverseBytes reverses *)

Lemma set_index_app (pre : list byte) (a v : byte) (post : list byte) :
  set_index (pre ++ a :: post) (List.length pre) v = pre ++ v :: post.
Proof.
  unfold set_index. induction pre as [| x pre IH]; simpl; [reflexivity |].
  now inversion IH as [E]; rewrite !E.
Qed.

Lemma nth_error_middle (pre : list byte) (a : byte) (post : list byte) :
  nth_error (pre ++ a :: post) (List.length pre) = Some a.
Proof. induction pre as [| x pre IH]; simpl; [reflexivity | exact IH]. Qed.

Lemma swap_ends (pre m post : list byte) (a b : byte) :
  swap (pre ++ a :: m ++ b :: post) (List.length pre) (List.length pre + S (List.length m))
  = pre ++ b :: m ++ a :: post.
Proof.
  unfold swap.
  rewrite nth_error_middle.
  replace (pre ++ a :: m ++ b :: post) with ((pre ++ a :: m) ++ b :: post)
    by (rewrite <- app_assoc; reflexivity).
  replace (List.length pre + S (List.length m))%nat with (List.length (pre ++ a :: m))
    by (rewrite length_app; simpl; lia).
  rewrite nth_error_middle.
  replace ((pre ++ a :: m) ++ b :: post) with (pre ++ a :: (m ++ b :: post))
    by (rewrite <- app_assoc; reflexivity).
  rewrite set_index_app.
  replace (pre ++ b :: m ++ b :: post) with ((pre ++ b :: m) ++ b :: post)
    by (rewrite <- app_assoc; reflexivity).
  replace (List.length (pre ++ a :: m)) with (List.length (pre ++ b :: m))
    by (rewrite !length_app; reflexivity).
  rewrite set_index_app, <- app_assoc. reflexivity.
Qed.

(** The loop invariant: entering with [i = len(pre)] and
    [j = len(pre) + len(mid) - 1], the loop reverses [mid] in place. *)
Lemma reverseBytes_loop_spec (fuel : nat) :
  forall pre mid post : list byte,
    (List.length mid <= fuel)%nat ->
    reverseBytes_loop fuel (Z.of_nat (List.length pre))
      (Z.of_nat (List.length pre + List.length mid) - 1) (pre ++ mid ++ post)
    = pre ++ rev mid ++ post.
Proof.
  induction fuel as [| fuel IH]; intros pre mid post Hlen.
  - destruct mid; [reflexivity | simpl in Hlen; lia].
  - cbn [reverseBytes_loop].
    destruct mid as [| a mid]; [| destruct (exists_last (l := a :: mid)) as (front & b & E);
                                   [discriminate |]].
    + replace (_ <? _)%Z with false by (symmetry; apply Z.ltb_ge; simpl; lia). reflexivity.
    + destruct front as [| a' m].
      * (* one element *)
        simpl in E. injection E as -> ->.
        replace (_ <? _)%Z with false by (symmetry; apply Z.ltb_ge; simpl; lia). reflexivity.
      * simpl in E. injection E as <- ->.
        replace (_ <? _)%Z with true
          by (symmetry; apply Z.ltb_lt; simpl; rewrite length_app; simpl; lia).
        rewrite Nat2Z.id.
        replace (Z.to_nat (Z.of_nat (List.length pre + List.length (a :: m ++ [b])) - 1))
          with (List.length pre + S (List.length m))%nat
          by (simpl; rewrite length_app; simpl; lia).
        replace (pre ++ (a :: m ++ [b]) ++ post) with (pre ++ a :: m ++ b :: post)
          by (simpl; rewrite <- app_assoc; reflexivity).
        rewrite swap_ends.
        replace (pre ++ b :: m ++ a :: post) with ((pre ++ [b]) ++ m ++ (a :: post))
          by (rewrite <- app_assoc; reflexivity).
        replace (Z.of_nat (List.length pre) + 1)%Z with (Z.of_nat (List.length (pre ++ [b])))
          by (rewrite length_app; simpl; lia).
        replace (Z.of_nat (List.length pre + List.length (a :: m ++ [b])) - 1 - 1)%Z
          with (Z.of_nat (List.length (pre ++ [b]) + List.length m) - 1)%Z
          by (simpl; rewrite !length_app; simpl; lia).
        rewrite IH by (simpl in Hlen; rewrite length_app in Hlen; simpl in Hlen; lia).
        simpl. rewrite rev_app_distr. simpl. rewrite <- !app_assoc. reflexivity.
Qed.

Lemma reverseBytes_rev (s : list byte) : reverseBytes s = rev s.
Proof.
  unfold reverseBytes.
  pose proof (reverseBytes_loop_spec (List.length s) [] s [] (Nat.le_refl _)) as H.
  simpl in H. rewrite !app_nil_r in H. exact H.
Qed.

(** *** Serializing an input *)

(** C8.  An input whose [TxID] is the hexadecimal text of a 32-byte id
    (with or without the prefix [0x]) is written as exactly 34 bytes:
    the id in reversed byte order, then [Vout] as two bytes, low byte
    first. *)
Theorem RawTxInput_WriteBytes_layout (input : RawTxInput) (id writer : list byte) :
  hex_DecodeString (strings_TrimPrefix (TxID input) "0x") = OK id ->
  List.length id = 32%nat ->
  exists written,
    RawTxInput_WriteBytes input writer = (writer ++ written, None) /\
    written = rev id ++ [byte_of_Z (Vout input); byte_of_Z (Z.shiftr (Vout input) 8)] /\
    List.length written = 34%nat.
Proof.
  intros Hid Hlen. unfold RawTxInput_WriteBytes. rewrite Hid.
  exists (rev id ++ PutUint16 (Vout input)). repeat split.
  - rewrite reverseBytes_rev, <- app_assoc. reflexivity.
  - rewrite length_app, length_rev, Hlen. reflexivity.
Qed.

(** The input of the scenario: id [00..01], index 5. *)
Lemma RawTxInput_WriteBytes_layout_witness :
  exists written,
    RawTxInput_WriteBytes
      {| TxID := "0x0000000000000000000000000000000000000000000000000000000000000001";
         Vout := 5 |} []
    = (written, None) /\
    written = [x01; x00; x00; x00; x00; x00; x00; x00; x00; x00; x00; x00; x00; x00; x00; x00;
               x00; x00; x00; x00; x00; x00; x00; x00; x00; x00; x00; x00; x00; x00; x00; x00;
               x05; x00] /\
    List.length written = 34%nat.
Proof.
  exact (RawTxInput_WriteBytes_layout
           {| TxID := "0x0000000000000000000000000000000000000000000000000000000000000001";
              Vout := 5 |}
           (repeat x00 31 ++ [x01]) [] eq_refl eq_refl).
Defined.

(** *** What CalcTxInput selects *)

Lemma last_default {A : Type} (l : list A) (a d1 d2 : A) :
  last (a :: l) d1 = last (a :: l) d2.
Proof.
  revert a; induction l as [| b l IH]; intro a; [reflexivity |].
  change (last (b :: l) d1 = last (b :: l) d2). apply IH.
Qed.

(** The loop takes entries up to and including the first one whose own
    value exceeds [amount], and reports the value of the last entry it
    took (or the initial [vinvalue] when it took none). *)
Lemma CalcTxInput_loop_spec (amount : float) :
  forall (unspent selected : list UTXO) (v : float) (sel : list UTXO) (total : float),
    CalcTxInput_loop amount unspent selected v = OK (sel, total) ->
    exists taken rest,
      unspent = taken ++ rest /\
      sel = selected ++ taken /\
      total = last (map Value_float taken) v /\
      Forall (fun u => Value_err u = None) taken /\
      Forall (fun u => (amount <? Value_float u) = false) (removelast taken) /\
      (rest <> [] -> (amount <? total) = true).
Proof.
  induction unspent as [| utxo unspent IH]; intros selected v sel total H.
  - injection H as <- <-. exists [], [].
    split; [reflexivity |]. split; [now rewrite app_nil_r |].
    split; [reflexivity |]. split; [constructor |]. split; [constructor |].
    intros C; now contradiction C.
  - cbn [CalcTxInput_loop UTXO_Value] in H.
    destruct (Value_err utxo) eqn:Herr; [discriminate |].
    destruct (amount <? Value_float utxo) eqn:Hlt.
    + injection H as <- <-. exists [utxo], unspent.
      split; [reflexivity |]. split; [reflexivity |]. split; [reflexivity |].
      split; [now repeat constructor |]. split; [constructor |].
      intros _. exact Hlt.
    + apply IH in H as (taken & rest & -> & -> & -> & Hok & Hsmall & Hstop).
      exists (utxo :: taken), rest.
      split; [reflexivity |]. split; [now rewrite <- app_assoc |].
      split.
      { destruct taken as [| t taken]; [reflexivity |]. cbn [map].
        change (last (Value_float utxo :: Value_float t :: map Value_float taken) v)
          with (last (Value_float t :: map Value_float taken) v).
        apply last_default. }
      split; [now constructor |].
      split.
      * destruct taken as [| t taken]; [constructor |].
        change (removelast (utxo :: t :: taken)) with (utxo :: removelast (t :: taken)).
        now constructor.
      * intros Hr. specialize (Hstop Hr).
        destruct taken as [| t taken]; [simpl in Hstop; congruence | exact Hstop].
Qed.

(** C1, at the scenario's input.  [CalcTxInput(1.0, [0.5, 0.7])] selects
    both entries and reports [0.7], the value of the last entry it
    visited; the selection the specification describes reports the sum
    [1.2]. *)
Theorem CalcTxInput_reports_last_value :
  let unspent := [utxo_of_value "a" 0.5; utxo_of_value "b" 0.7] in
  snd (CalcTxInput 1.0 unspent) = OK (unspent, 0.7) /\
  spec_SelectForAmount 1.0 unspent = (unspent, 1.2) /\
  (0.7 =? 1.2) = false.
Proof. repeat split. Qed.

(** *** The caller's list *)

Lemma utxoSorter_Less_asym (a b : UTXO) :
  utxoSorter_Less a b = true -> utxoSorter_Less b a = false.
Proof. apply FloatFacts.ltb_asym. Qed.

Lemma claimSorter_Less_asym (a b : UTXO) :
  claimSorter_Less a b = true -> claimSorter_Less b a = false.
Proof. unfold claimSorter_Less. intros H. apply Z.ltb_lt in H. apply Z.ltb_ge. lia. Qed.

(** C7, as amended.  [CalcTxInput] and [CreateClaimTx] sort the caller's
    list in place: afterwards it holds the same entries, each as it was,
    in a possibly different order.  A list of at most six entries, which
    [sort.Sort] sorts by insertion, is left in ascending order (no entry
    less than the one before it), and it is left as it was exactly when
    it was in that order before. *)
Theorem selection_permutes_unspent
    (amount val : float) (address : string) (unspent : list UTXO) :
  (Permutation unspent (fst (CalcTxInput amount unspent)) /\
   Permutation unspent (fst (CreateClaimTx val address unspent))) /\
  ((List.length unspent <= 6)%nat ->
   in_order utxoSorter_Less (fst (CalcTxInput amount unspent)) = true /\
   (fst (CalcTxInput amount unspent) = unspent
    <-> in_order utxoSorter_Less unspent = true) /\
   in_order claimSorter_Less (fst (CreateClaimTx val address unspent)) = true /\
   (fst (CreateClaimTx val address unspent) = unspent
    <-> in_order claimSorter_Less unspent = true)).
Proof.
  split; [split; apply sort_Sort_perm |].
  intros _. unfold CalcTxInput, CreateClaimTx. cbn [fst].
  pose proof (sort_Sort_in_order utxoSorter_Less unspent utxoSorter_Less_asym) as H1.
  pose proof (sort_Sort_in_order claimSorter_Less unspent claimSorter_Less_asym) as H2.
  split; [exact H1 |]. split; [| split; [exact H2 |]].
  - split; [intros E; now rewrite E in H1 | apply sort_Sort_id].
  - split; [intros E; now rewrite E in H2 | apply sort_Sort_id].
Qed.

(** Two entries in descending order come back in ascending order. *)
Lemma selection_permutes_unspent_witness :
  Permutation [utxo_b; utxo_a] (fst (CalcTxInput 1.0 [utxo_b; utxo_a])) /\
  fst (CalcTxInput 1.0 [utxo_b; utxo_a]) = [utxo_a; utxo_b] /\
  in_order utxoSorter_Less (fst (CalcTxInput 1.0 [utxo_b; utxo_a])) = true /\
  in_order utxoSorter_Less [utxo_b; utxo_a] = false.
Proof.
  destruct (selection_permutes_unspent 1.0 1.0 "addr" [utxo_b; utxo_a])
    as [[Hperm _] Hsorted].
  destruct Hsorted as (Hord & _); [cbn; lia |].
  split; [exact Hperm |]. split; [reflexivity |]. split; [exact Hord | reflexivity].
Defined.

Lemma selection_reorders_unspent :
  let unspent := [utxo_of_value "b" 0.7; utxo_of_value "a" 0.5] in
  fst (CalcTxInput 1.0 unspent) = [utxo_of_value "a" 0.5; utxo_of_value "b" 0.7] /\
  fst (CalcTxInput 1.0 unspent) <> unspent /\
  fst (CreateClaimTx 1.0 "addr"
         [ {| TransactionID := "x"; Vout_N := 0; SpentBlock := 9;
              Value_float := 1.0; Value_err := None |};
           {| TransactionID := "y"; Vout_N := 0; SpentBlock := 4;
              Value_float := 1.0; Value_err := None |} ])
  <> [ {| TransactionID := "x"; Vout_N := 0; SpentBlock := 9;
          Value_float := 1.0; Value_err := None |};
       {| TransactionID := "y"; Vout_N := 0; SpentBlock := 4;
          Value_float := 1.0; Value_err := None |} ].
Proof. repeat split; discriminate. Qed.

(** *** The outputs of CreateSendAssertTx *)

(** What the function does with the result of [CalcTxInput]. *)
Lemma CreateSendAssertTx_spec (assert from to : string) (amount : float)
    (unspent sendUTXOs : list UTXO) (totalAmount : float) :
  snd (CalcTxInput amount unspent) = OK (sendUTXOs, totalAmount) ->
  snd (CreateSendAssertTx assert from to amount unspent) =
    if totalAmount <? amount then Err ErrNoUTXO
    else OK {| TxType := ContractTransaction; Version := x00; XData := None;
               Attributes := []; Inputs := map input_of_utxo sendUTXOs;
               Outputs := payment assert to amount ::
                            (if amount <? totalAmount
                             then [change assert from (totalAmount - amount)] else []);
               Scripts := [] |}.
Proof.
  unfold CreateSendAssertTx, CalcTxInput. cbn [snd]. intros ->.
  destruct (totalAmount <? amount); [reflexivity |].
  destruct (amount <? totalAmount); reflexivity.
Qed.

Lemma CreateSendAssertTx_OK_inv (assert from to : string) (amount : float)
    (unspent : list UTXO) (tx : RawTx) :
  snd (CreateSendAssertTx assert from to amount unspent) = OK tx ->
  exists sendUTXOs totalAmount,
    snd (CalcTxInput amount unspent) = OK (sendUTXOs, totalAmount).
Proof.
  unfold CreateSendAssertTx, CalcTxInput. cbn [snd].
  destruct (CalcTxInput_loop _ _ _ _) as [[sel total] | e | m]; try discriminate.
  intros _. now exists sel, total.
Qed.

(** C6, as amended.  When [CalcTxInput] reports the total [1.2] for a
    requested [1.0], the transaction has exactly two outputs: the payment
    of [1.0] to the recipient and the change back to the sender, whose
    value is the [float64] difference [1.2 - 1.0 = 0.19999999999999996]. *)
Theorem CreateSendAssertTx_two_outputs (assert from to : string)
    (unspent sendUTXOs : list UTXO) :
  snd (CalcTxInput 1.0 unspent) = OK (sendUTXOs, 1.2) ->
  exists tx,
    snd (CreateSendAssertTx assert from to 1.0 unspent) = OK tx /\
    Outputs tx = [payment assert to 1.0; change assert from 0.19999999999999996] /\
    Inputs tx = map input_of_utxo sendUTXOs.
Proof.
  intros H. rewrite (CreateSendAssertTx_spec _ _ _ _ _ _ _ H).
  eexists; repeat split.
Qed.

Lemma CreateSendAssertTx_two_outputs_witness :
  exists tx,
    snd (CreateSendAssertTx "asset" "sender" "recipient" 1.0 [utxo_of_value "t" 1.2]) = OK tx /\
    Outputs tx = [payment "asset" "recipient" 1.0;
                  change "asset" "sender" 0.19999999999999996] /\
    Inputs tx = map input_of_utxo [utxo_of_value "t" 1.2].
Proof.
  exact (CreateSendAssertTx_two_outputs "asset" "sender" "recipient"
           [utxo_of_value "t" 1.2] [utxo_of_value "t" 1.2] eq_refl).
Defined.

(** At the input [[1.2]] the change is not [0.2]: the claim's second
    output does not occur. *)
Lemma CreateSendAssertTx_change_is_not_0_2 :
  ~ exists tx,
      snd (CreateSendAssertTx "asset" "sender" "recipient" 1.0 [utxo_of_value "t" 1.2])
      = OK tx /\
      Outputs tx = [payment "asset" "recipient" 1.0; change "asset" "sender" 0.2].
Proof.
  intros (tx & H & Hout).
  assert (Hv : Value (nth 1 (Outputs tx) (payment EmptyString EmptyString 0)) = 0.2) by now rewrite Hout.
  vm_compute in H. injection H as <-. cbn in Hv.
  float_discriminate Hv.
Qed.

(** C10.  A transaction [CreateSendAssertTx] returns has the payment as
    its first output and at most one more: the change, present exactly
    when the total [CalcTxInput] reported is strictly greater than the
    amount, and then of a value that is not zero.  A total equal to the
    amount gives the payment alone. *)
Theorem CreateSendAssertTx_change_only_when_greater (assert from to : string)
    (amount : float) (unspent : list UTXO) (tx : RawTx) :
  snd (CreateSendAssertTx assert from to amount unspent) = OK tx ->
  exists sendUTXOs totalAmount,
    snd (CalcTxInput amount unspent) = OK (sendUTXOs, totalAmount) /\
    (totalAmount <? amount) = false /\
    ((totalAmount =? amount) = true -> Outputs tx = [payment assert to amount]) /\
    ((amount <? totalAmount) = false -> Outputs tx = [payment assert to amount]) /\
    ((amount <? totalAmount) = true ->
       Outputs tx = [payment assert to amount; change assert from (totalAmount - amount)]) /\
    Forall (fun output => (Value output =? 0) = false) (tl (Outputs tx)).
Proof.
  intros H.
  destruct (CreateSendAssertTx_OK_inv _ _ _ _ _ _ H) as (sel & total & Hcalc).
  exists sel, total. split; [exact Hcalc |].
  rewrite (CreateSendAssertTx_spec _ _ _ _ _ _ _ Hcalc) in H.
  destruct (total <? amount) eqn:Hlt; [discriminate |]. injection H as <-.
  split; [reflexivity |]. cbn [Outputs].
  split; [| split; [| split]].
  - intros Heq. apply FloatFacts.eqb_not_ltb in Heq as [_ Hgt]. now rewrite Hgt.
  - now intros ->.
  - now intros ->.
  - destruct (amount <? total) eqn:Hgt; cbn [tl]; [| constructor].
    repeat constructor. cbn [change Value]. now apply FloatFacts.ltb_sub_nonzero.
Qed.

(** Equal total: one output.  Greater total: two. *)
Lemma CreateSendAssertTx_change_only_when_greater_witness :
  exists sendUTXOs totalAmount,
    snd (CalcTxInput 1.0 [utxo_of_value "t" 1.0]) = OK (sendUTXOs, totalAmount) /\
    (totalAmount <? 1.0) = false /\
    ((totalAmount =? 1.0) = true -> Outputs tx_exact = [payment "asset" "recipient" 1.0]) /\
    ((1.0 <? totalAmount) = false -> Outputs tx_exact = [payment "asset" "recipient" 1.0]) /\
    ((1.0 <? totalAmount) = true ->
       Outputs tx_exact = [payment "asset" "recipient" 1.0;
                           change "asset" "sender" (totalAmount - 1.0)]) /\
    Forall (fun output => (Value output =? 0) = false) (tl (Outputs tx_exact)).
Proof.
  exact (CreateSendAssertTx_change_only_when_greater "asset" "sender" "recipient" 1.0
           [utxo_of_value "t" 1.0] tx_exact eq_refl).
Defined.

(** [reverseBytes] returns the bytes in reversed order. *)
Theorem reverseBytes_reverses (s : list byte) :
  reverseBytes s = rev s /\ List.length (reverseBytes s) = List.length s.
Proof. rewrite reverseBytes_rev. split; [reflexivity | apply length_rev]. Qed.

(** *** More on selection and on the amount written *)

(** What [CalcTxInput] returns: the entries of the sorted list up to and
    including the first one whose own value exceeds the amount (all of
    them when there is none), and the value of the last entry among
    them. *)
Theorem CalcTxInput_selects_by_entry_value (amount : float)
    (unspent selected : list UTXO) (total : float) :
  snd (CalcTxInput amount unspent) = OK (selected, total) ->
  exists rest,
    fst (CalcTxInput amount unspent) = selected ++ rest /\
    total = last (map Value_float selected) 0 /\
    Forall (fun u => (amount <? Value_float u) = false) (removelast selected) /\
    (rest <> [] -> (amount <? total) = true).
Proof.
  unfold CalcTxInput. cbn [fst snd]. intros H.
  apply CalcTxInput_loop_spec in H as (taken & rest & E & -> & -> & _ & Hsmall & Hstop).
  exists rest. cbn [app]. repeat split; assumption.
Qed.

Lemma CalcTxInput_selects_by_entry_value_witness :
  exists rest,
    fst (CalcTxInput 1.0 [utxo_b; utxo_a]) = [utxo_a; utxo_b] ++ rest /\
    0.7 = last (map Value_float [utxo_a; utxo_b]) 0 /\
    Forall (fun u => (1.0 <? Value_float u) = false) (removelast [utxo_a; utxo_b]) /\
    (rest <> [] -> (1.0 <? 0.7) = true).
Proof.
  exact (CalcTxInput_selects_by_entry_value 1.0 [utxo_b; utxo_a] [utxo_a; utxo_b] 0.7
           eq_refl).
Defined.

(** The caller's list comes back in order (no entry less than the one
    before it), and it comes back unchanged exactly when it was in order
    before the call.  Stated for the lists [sort.Sort] sorts by
    insertion. *)
Theorem selection_sorts_in_place (amount val : float) (address : string)
    (unspent : list UTXO) :
  (List.length unspent <= 6)%nat ->
  in_order utxoSorter_Less (fst (CalcTxInput amount unspent)) = true /\
  (fst (CalcTxInput amount unspent) = unspent <-> in_order utxoSorter_Less unspent = true) /\
  in_order claimSorter_Less (fst (CreateClaimTx val address unspent)) = true /\
  (fst (CreateClaimTx val address unspent) = unspent
   <-> in_order claimSorter_Less unspent = true).
Proof.
  intros _. unfold CalcTxInput, CreateClaimTx. cbn [fst].
  pose proof (sort_Sort_in_order utxoSorter_Less unspent utxoSorter_Less_asym) as H1.
  pose proof (sort_Sort_in_order claimSorter_Less unspent claimSorter_Less_asym) as H2.
  repeat split; try assumption.
  - intros E. now rewrite E in H1.
  - apply sort_Sort_id.
  - intros E. now rewrite E in H2.
  - apply sort_Sort_id.
Qed.

Lemma selection_sorts_in_place_witness :
  in_order utxoSorter_Less (fst (CalcTxInput 1.0 [utxo_b; utxo_a])) = true /\
  (fst (CalcTxInput 1.0 [utxo_b; utxo_a]) = [utxo_b; utxo_a]
   <-> in_order utxoSorter_Less [utxo_b; utxo_a] = true) /\
  in_order claimSorter_Less (fst (CreateClaimTx 1.0 "addr" [utxo_b; utxo_a])) = true /\
  (fst (CreateClaimTx 1.0 "addr" [utxo_b; utxo_a]) = [utxo_b; utxo_a]
   <-> in_order claimSorter_Less [utxo_b; utxo_a] = true).
Proof.
  apply (selection_sorts_in_place 1.0 1.0 "addr" [utxo_b; utxo_a]). cbn. lia.
Defined.

(** The amount written floors [Value * 10^8]: the change for a total
    of [1.2] and an amount of [1.0] is written as 19999999 units (an
    output of [0.2] would be 20000000), and the change for a total of
    [1.00000001] and an amount of [1.0], a positive value, is written as
    0 units. *)
Theorem change_amount_is_floored :
  amount_units (1.2 - 1.0) = Some 19999999%Z /\
  amount_units 0.2 = Some 20000000%Z /\
  (exists tx v,
     snd (CreateSendAssertTx "asset" "sender" "recipient" 1.0
            [utxo_of_value "t" 1.00000001]) = OK tx /\
     Outputs tx = [payment "asset" "recipient" 1.0; change "asset" "sender" v] /\
     (0 <? v) = true /\
     amount_field (change "asset" "sender" v) = Some (repeat x00 8)).
Proof.
  split; [reflexivity |]. split; [reflexivity |].
  eexists; eexists. split; [reflexivity |]. repeat split.
Qed.

(** *** Amounts below one unit *)

Lemma floor_Z_below_one (x : float) :
  (0 <? x) = true -> (x <? 1) = true -> floor_Z x = Some 0%Z.
Proof.
  rewrite !ltb_spec. unfold SFltb, floor_Z.
  change (Prim2SF 0) with (S754_zero false).
  change (Prim2SF 1) with (S754_finite false 4503599627370496 (-52)).
  pose proof (Prim2SF_valid x) as V.
  destruct (Prim2SF x) as [s | s | | s m e]; cbn [SFcompare]; try discriminate.
  - destruct s; discriminate.
  - destruct s; [discriminate |]. intros _ H1.
    cbn [SpecFloat.valid_binary] in V.
    apply FloatFacts.bounded_facts in V as (Hmin & Hdig & Hnorm).
    pose proof (FloatFacts.digits2_pos_lower m) as Hlo.
    pose proof (FloatFacts.digits2_pos_upper m) as Hup.
    assert (Hemin : emin64 = (-1074)%Z) by reflexivity.
    assert (Hprec : prec = 53%Z) by reflexivity.
    rewrite Hemin in *. rewrite Hprec in *. clear Hemin Hprec.
    assert (He : (e < -52)%Z).
    { destruct (Z.compare_spec e (-52)) as [E | E | E]; try discriminate; [| exact E].
      exfalso. subst e. specialize (Hnorm ltac:(lia)). rewrite Hnorm in Hlo.
      destruct (Pos.compare_cont Eq m 4503599627370496) eqn:C; try discriminate.
      assert (Hm : (m < 4503599627370496)%positive) by exact C.
      change (2 ^ (53 - 1))%Z with 4503599627370496%Z in Hlo.
      apply Pos2Z.pos_lt_pos in Hm. clear - Hlo Hm. lia. }
    replace (0 <=? e)%Z with false by (symmetry; apply Z.leb_gt; lia).
    f_equal. apply Z.div_small. split; [lia |].
    eapply Z.lt_le_trans; [exact Hup |].
    apply Z.pow_le_mono_r; lia.
Qed.

(** An output whose value times 10^8 lies between 0 and 1 is written
    with the amount 0: the floor of the product.  The change of a
    transaction, which is never zero as a [float64], can be such a
    value. *)
Theorem amount_below_one_unit (output : RawTxOutput) :
  (0 <? Value output * 100000000) = true ->
  (Value output * 100000000 <? 1) = true ->
  amount_units (Value output) = Some 0%Z /\
  amount_field output = Some (repeat x00 8).
Proof.
  intros H0 H1. unfold amount_field, amount_units.
  rewrite (floor_Z_below_one _ H0 H1). split; reflexivity.
Qed.

(** The change for one entry of [1.00000001] and an amount of [1.0]. *)
Lemma amount_below_one_unit_witness :
  exists tx v,
    snd (CreateSendAssertTx "asset" "sender" "recipient" 1.0
           [utxo_of_value "t" 1.00000001]) = OK tx /\
    Outputs tx = [payment "asset" "recipient" 1.0; change "asset" "sender" v] /\
    (0 <? v) = true /\
    amount_field (change "asset" "sender" v) = Some (repeat x00 8).
Proof.
  eexists. eexists. split; [reflexivity |]. split; [reflexivity |].
  split; [reflexivity |].
  exact (proj2 (amount_below_one_unit (change "asset" "sender" (1.00000001 - 1.0))
                  eq_refl eq_refl)).
Defined.


(** *** When the selection fails *)

Lemma CalcTxInput_loop_all (amount : float) (unspent : list UTXO) :
  Forall (fun utxo => Value_err utxo = None /\ (Value_float utxo <? amount) = true) unspent ->
  forall selected v,
    CalcTxInput_loop amount unspent selected v
    = OK (selected ++ unspent, last (map Value_float unspent) v).
Proof.
  induction 1 as [| utxo unspent [Herr Hlt] _ IH]; intros selected v.
  - cbn [CalcTxInput_loop]. now rewrite app_nil_r.
  - cbn [CalcTxInput_loop UTXO_Value]. rewrite Herr.
    rewrite (FloatFacts.ltb_asym _ _ Hlt), IH, <- app_assoc. cbn [app map].
    destruct unspent as [| u unspent]; [reflexivity |].
    f_equal. f_equal. cbn [map]. symmetry.
    change (last (Value_float utxo :: Value_float u :: map Value_float unspent) v)
      with (last (Value_float u :: map Value_float unspent) v).
    apply last_default.
Qed.

Lemma last_Forall {A : Type} (P : A -> Prop) (l : list A) (d : A) :
  Forall P l -> P d -> P (last l d).
Proof.
  induction 1 as [| x l Hx Hl IH]; intros Hd; [exact Hd |].
  destruct l as [| y l]; [exact Hx |]. exact (IH Hd).
Qed.

(** The amount is compared with one entry at a time.  When every entry
    is worth less than the amount, [CreateSendAssertTx] reports
    [ErrNoUTXO], whatever the entries are worth together; so it does
    when there is no entry. *)
Theorem CreateSendAssertTx_needs_one_large_entry (assert from to : string)
    (amount : float) (unspent : list UTXO) :
  (0 <? amount) = true ->
  Forall (fun utxo => Value_err utxo = None /\ (Value_float utxo <? amount) = true) unspent ->
  snd (CreateSendAssertTx assert from to amount unspent) = Err ErrNoUTXO.
Proof.
  intros Hpos Hall.
  assert (Hsorted : Forall (fun utxo => Value_err utxo = None /\
                                        (Value_float utxo <? amount) = true)
                      (sort_Sort utxoSorter_Less unspent))
    by (eapply Permutation_Forall; [apply sort_Sort_perm | exact Hall]).
  assert (Hcalc : snd (CalcTxInput amount unspent)
                  = OK (sort_Sort utxoSorter_Less unspent,
                        last (map Value_float (sort_Sort utxoSorter_Less unspent)) 0)).
  { unfold CalcTxInput. cbn [snd]. now rewrite (CalcTxInput_loop_all _ _ Hsorted). }
  rewrite (CreateSendAssertTx_spec _ _ _ _ _ _ _ Hcalc).
  replace (last _ 0 <? amount) with true; [reflexivity |]. symmetry.
  apply (last_Forall (fun v => (v <? amount) = true)); [| exact Hpos].
  apply Forall_map. revert Hsorted. apply Forall_impl. now intros utxo [_ H].
Qed.

(** Two entries of [0.5] and [0.7] do not pay [1.0]. *)
Lemma CreateSendAssertTx_needs_one_large_entry_witness :
  (1.0 <? 0.5 + 0.7) = true /\
  snd (CreateSendAssertTx "asset" "sender" "recipient" 1.0 [utxo_a; utxo_b]) = Err ErrNoUTXO.
Proof.
  split; [reflexivity |].
  apply (CreateSendAssertTx_needs_one_large_entry "asset" "sender" "recipient" 1.0
           [utxo_a; utxo_b]); [reflexivity |].
  repeat constructor.
Defined.

(** The transaction [CreateSendAssertTx] returns spends every entry of
    the sorted list up to and including the first one worth more than
    the amount (all of them when there is none).  Its change is the
    value of the last of these less the amount: what the entries before
    it are worth is in no output. *)
Theorem CreateSendAssertTx_spends_selected (assert from to : string)
    (amount : float) (unspent : list UTXO) (tx : RawTx) :
  snd (CreateSendAssertTx assert from to amount unspent) = OK tx ->
  exists selected rest,
    fst (CreateSendAssertTx assert from to amount unspent) = selected ++ rest /\
    Inputs tx = map input_of_utxo selected /\
    Forall (fun utxo => (amount <? Value_float utxo) = false) (removelast selected) /\
    (rest <> [] -> (amount <? last (map Value_float selected) 0) = true) /\
    Outputs tx
    = payment assert to amount ::
        (if amount <? last (map Value_float selected) 0
         then [change assert from (last (map Value_float selected) 0 - amount)]
         else []).
Proof.
  intros H.
  destruct (CreateSendAssertTx_OK_inv _ _ _ _ _ _ H) as (sel & total & Hcalc).
  rewrite (CreateSendAssertTx_spec _ _ _ _ _ _ _ Hcalc) in H.
  destruct (total <? amount); [discriminate |].
  assert (Hfst : fst (CreateSendAssertTx assert from to amount unspent)
                 = fst (CalcTxInput amount unspent)) by reflexivity.
  unfold CalcTxInput in Hcalc. cbn [snd] in Hcalc.
  apply CalcTxInput_loop_spec in Hcalc as (taken & rest & E & -> & -> & _ & Hsmall & Hstop).
  exists taken, rest. cbn [app] in *.
  split; [rewrite Hfst; exact E |].
  assert (Htx : tx = {| TxType := ContractTransaction; Version := x00; XData := None;
                        Attributes := []; Inputs := map input_of_utxo taken;
                        Outputs := payment assert to amount ::
                          (if amount <? last (map Value_float taken) 0
                           then [change assert from (last (map Value_float taken) 0 - amount)]
                           else []);
                        Scripts := [] |}) by congruence.
  rewrite Htx. cbn [Inputs Outputs]. repeat split; assumption.
Qed.

(** Entries of [0.5] and [2.0] for an amount of [1.0]: both are spent,
    the outputs are the payment of [1.0] and a change of [1.0]. *)
Lemma CreateSendAssertTx_spends_selected_witness :
  exists tx,
    snd (CreateSendAssertTx "asset" "sender" "recipient" 1.0
           [utxo_of_value "big" 2.0; utxo_a]) = OK tx /\
    Inputs tx = map input_of_utxo [utxo_a; utxo_of_value "big" 2.0] /\
    Outputs tx = [payment "asset" "recipient" 1.0; change "asset" "sender" 1.0].
Proof.
  eexists. split; [reflexivity |].
  destruct (CreateSendAssertTx_spends_selected "asset" "sender" "recipient" 1.0
              [utxo_of_value "big" 2.0; utxo_a] _ eq_refl)
    as (selected & rest & _ & _ & _ & _ & _).
  split; reflexivity.
Defined.

(** *** The errors of CalcTxInput *)

(** The loop fails at the first entry for which [Value()] fails, when
    it gets there. *)
Lemma CalcTxInput_loop_Err (amount : float) (e : error) (unspent : list UTXO) :
  forall selected v,
    CalcTxInput_loop amount unspent selected v = Err e <->
    exists before utxo after,
      unspent = before ++ utxo :: after /\
      Value_err utxo = Some e /\
      forallb (passed_over amount) before = true.
Proof.
  induction unspent as [| u unspent IH]; intros selected v.
  - cbn [CalcTxInput_loop]. split; [discriminate |].
    intros (before & utxo & after & H & _). now destruct before.
  - cbn [CalcTxInput_loop UTXO_Value]. split.
    + destruct (Value_err u) as [e' |] eqn:Herr.
      * intros [= ->]. exists [], u, unspent. now repeat split.
      * destruct (amount <? Value_float u) eqn:Hgt; [discriminate |].
        intros H. apply IH in H as (before & utxo & after & -> & Hu & Hb).
        exists (u :: before), utxo, after. split; [reflexivity |]. split; [exact Hu |].
        cbn [forallb]. unfold passed_over at 1. now rewrite Herr, Hgt, Hb.
    + intros (before & utxo & after & E & Hu & Hb).
      destruct before as [| b before].
      * injection E as -> ->. now rewrite Hu.
      * injection E as -> ->. cbn [forallb] in Hb. apply andb_true_iff in Hb as [Hb1 Hb2].
        unfold passed_over in Hb1.
        destruct (Value_err b); [discriminate |].
        apply negb_true_iff in Hb1. rewrite Hb1.
        apply IH. now exists before, utxo, after.
Qed.

(** [CalcTxInput] fails exactly when the sorted list holds an entry for
    which [Value()] fails and which the loop reaches: every entry
    before it has a value, not greater than the amount.  The error is
    the one of that entry; an entry that fails behind the first entry
    worth more than the amount is not looked at. *)
Theorem CalcTxInput_errors (amount : float) (unspent : list UTXO) (e : error) :
  snd (CalcTxInput amount unspent) = Err e <->
  exists before utxo after,
    fst (CalcTxInput amount unspent) = before ++ utxo :: after /\
    Value_err utxo = Some e /\
    forallb (passed_over amount) before = true.
Proof. unfold CalcTxInput. cbn [fst snd]. apply CalcTxInput_loop_Err. Qed.

End NeoFacts.

(* ================================================================= *)
(** ** Properties of the wire format *)

Module NeoWireFacts.

Import Neo NeoWire.

(** *** Writers only append *)

Lemma appends_Buffer_Write (p : list byte) : appends (Buffer_Write p).
Proof. intros buff. reflexivity. Qed.

Lemma appends_skip : appends skip.
Proof. intros buff. unfold skip. now rewrite app_nil_r. Qed.

Lemma appends_andThen (f g : writing) : appends f -> appends g -> appends (andThen f g).
Proof.
  intros Hf Hg buff. unfold andThen. rewrite (Hf buff).
  destruct (f []) as [out [e |] | msg]; try reflexivity.
  rewrite (Hg (buff ++ out)), (Hg out).
  destruct (g []) as [out' e' | msg']; [| reflexivity].
  now rewrite app_assoc.
Qed.

Lemma appends_forEach {A : Type} (f : A -> writing) (l : list A) :
  (forall x, appends (f x)) -> appends (forEach f l).
Proof.
  intros Hf. induction l as [| x l IH]; [apply appends_skip |].
  cbn [forEach]. now apply appends_andThen.
Qed.

Lemma appends_Input (input : RawTxInput) : appends (Input_WriteBytes input).
Proof.
  intros buff. unfold Input_WriteBytes, RawTxInput_WriteBytes.
  destruct (hex_DecodeString _) as [data | e | msg]; cbn [app];
    rewrite ?app_nil_r, <- ?app_assoc; reflexivity.
Qed.

Lemma appends_Attr (attr : RawTxAttr) : appends (RawTxAttr_WriteBytes attr).
Proof.
  unfold RawTxAttr_WriteBytes.
  repeat apply appends_andThen; try apply appends_Buffer_Write.
  destruct (negb _); [apply appends_Buffer_Write | apply appends_skip].
Qed.

Lemma appends_Script (script : RawTxScript) : appends (RawTxScript_WriteBytes script).
Proof.
  unfold RawTxScript_WriteBytes. cbv zeta.
  repeat apply appends_andThen; apply appends_Buffer_Write.
Qed.

Section WireFacts.

Context {E : Externals}.

Lemma appends_Output (output : RawTxOutput) : appends (RawTxOutput_WriteBytes output).
Proof.
  intros buff. unfold RawTxOutput_WriteBytes.
  destruct (hex_DecodeString _) as [data | e | msg]; cbn [app];
    rewrite ?app_nil_r; try reflexivity.
  destruct (decodeAddress _) as [hash | e | msg]; cbv zeta;
    rewrite <- ?app_assoc; reflexivity.
Qed.

Lemma appends_claims (claims : list RawTxInput) : appends (claims_XData claims).
Proof.
  unfold claims_XData.
  apply appends_andThen; [apply appends_Buffer_Write |].
  apply appends_forEach, appends_Input.
Qed.

Lemma appends_writeSignData (tx : RawTx) : appends (writeSignData tx).
Proof.
  unfold writeSignData.
  repeat apply appends_andThen; try apply appends_Buffer_Write;
    try (apply appends_forEach;
         first [apply appends_Input | apply appends_Attr | apply appends_Output]).
  destruct (XData tx); [apply appends_claims | apply appends_skip].
Qed.

Lemma appends_WriteBytes (tx : RawTx) : appends (RawTx_WriteBytes tx).
Proof.
  unfold RawTx_WriteBytes.
  apply appends_andThen; [apply appends_writeSignData |].
  apply appends_andThen; [apply appends_Buffer_Write |].
  apply appends_forEach, appends_Script.
Qed.

(** Serializing a transaction leaves what the buffer holds and appends
    to it what it appends to an empty buffer, also when it stops with an
    error. *)
Theorem RawTx_WriteBytes_appends (tx : RawTx) (buff : list byte) :
  RawTx_WriteBytes tx buff
  = match RawTx_WriteBytes tx [] with
    | Wrote out err => Wrote (buff ++ out) err
    | Panicked msg => Panicked msg
    end /\
  writeSignData tx buff
  = match writeSignData tx [] with
    | Wrote out err => Wrote (buff ++ out) err
    | Panicked msg => Panicked msg
    end.
Proof. split; [apply appends_WriteBytes | apply appends_writeSignData]. Qed.

(** *** When serialization succeeds *)

Lemma succeeds_spec (f : writing) (buff : list byte) :
  appends f -> (exists out, f buff = Wrote out None) <-> succeeds f = true.
Proof.
  intros Hf. unfold succeeds. rewrite (Hf buff).
  destruct (f []) as [out [e |] | msg]; split; intros H;
    try discriminate; try reflexivity; try (destruct H as (o & H); discriminate).
  now exists (buff ++ out).
Qed.

Lemma succeeds_andThen (f g : writing) :
  appends g -> succeeds (andThen f g) = succeeds f && succeeds g.
Proof.
  intros Hg. unfold succeeds, andThen.
  destruct (f []) as [out [e |] | msg]; try reflexivity.
  rewrite (Hg out). destruct (g []) as [out' [e' |] | msg']; reflexivity.
Qed.

Lemma succeeds_forEach {A : Type} (f : A -> writing) (l : list A) :
  (forall x, appends (f x)) ->
  succeeds (forEach f l) = forallb (fun x => succeeds (f x)) l.
Proof.
  intros Hf. induction l as [| x l IH]; [reflexivity |].
  cbn [forEach forallb].
  rewrite succeeds_andThen by (apply appends_forEach, Hf). now rewrite IH.
Qed.

Lemma succeeds_Input (input : RawTxInput) :
  succeeds (Input_WriteBytes input) = hex_id (TxID input).
Proof.
  unfold succeeds, Input_WriteBytes, RawTxInput_WriteBytes, hex_id.
  destruct (hex_DecodeString _) as [data | e | msg] eqn:H; try reflexivity.
  now apply hex_DecodeString_returns in H.
Qed.

Lemma succeeds_Attr (attr : RawTxAttr) : succeeds (RawTxAttr_WriteBytes attr) = true.
Proof.
  unfold succeeds, RawTxAttr_WriteBytes, andThen, Buffer_Write, skip.
  destruct (negb _); reflexivity.
Qed.

Lemma succeeds_Script (script : RawTxScript) :
  succeeds (RawTxScript_WriteBytes script) = true.
Proof. reflexivity. Qed.

Lemma succeeds_Output (output : RawTxOutput) :
  succeeds (RawTxOutput_WriteBytes output)
  = hex_id (AssertID output) && decodes (Address output).
Proof.
  unfold succeeds, RawTxOutput_WriteBytes, hex_id, decodes.
  destruct (hex_DecodeString _) as [data | e | msg]; try reflexivity.
  cbv zeta. destruct (decodeAddress _); reflexivity.
Qed.

Lemma forallb_true {A : Type} (l : list A) : forallb (fun _ => true) l = true.
Proof. induction l; [reflexivity | assumption]. Qed.

Lemma forallb_ext {A : Type} (f g : A -> bool) (H : forall x, f x = g x) (l : list A) :
  forallb f l = forallb g l.
Proof. induction l as [| x l IH]; [reflexivity |]. cbn [forallb]. now rewrite H, IH. Qed.

(** Serializing a transaction returns without an error exactly when
    every claim and every input has an id in hexadecimal, and every
    output an asset id in hexadecimal and an address that decodes.
    Attributes and scripts cannot make it fail. *)
Theorem RawTx_WriteBytes_succeeds (tx : RawTx) (buff : list byte) :
  (exists out, RawTx_WriteBytes tx buff = Wrote out None) <->
  forallb (fun claim => hex_id (TxID claim))
          (match XData tx with Some claims => claims | None => [] end)
  && forallb (fun input => hex_id (TxID input)) (Inputs tx)
  && forallb (fun output => hex_id (AssertID output) && decodes (Address output))
             (Outputs tx) = true.
Proof.
  rewrite (succeeds_spec _ buff (appends_WriteBytes tx)).
  unfold RawTx_WriteBytes, writeSignData.
  repeat (rewrite succeeds_andThen;
          [| repeat apply appends_andThen; try apply appends_Buffer_Write;
             try (apply appends_forEach;
                  first [apply appends_Input | apply appends_Attr | apply appends_Output
                        | apply appends_Script])]).
  rewrite !succeeds_forEach
    by first [apply appends_Input | apply appends_Attr | apply appends_Output
             | apply appends_Script].
  rewrite (forallb_ext _ _ succeeds_Input (Inputs tx)).
  rewrite (forallb_ext _ _ succeeds_Output (Outputs tx)).
  rewrite (forallb_ext _ _ succeeds_Attr (Attributes tx)), forallb_true.
  rewrite (forallb_ext _ _ succeeds_Script (Scripts tx)), forallb_true.
  change (succeeds (Buffer_Write ?p)) with true.
  assert (HX : succeeds (match XData tx with
                         | Some claims => claims_XData claims
                         | None => skip
                         end)
               = forallb (fun claim => hex_id (TxID claim))
                   (match XData tx with Some claims => claims | None => [] end)).
  { destruct (XData tx) as [claims |]; [| reflexivity].
    unfold claims_XData.
    rewrite succeeds_andThen by (apply appends_forEach, appends_Input).
    rewrite succeeds_forEach by apply appends_Input.
    now rewrite (forallb_ext _ _ succeeds_Input claims). }
  - rewrite HX. cbn [andb]. rewrite !andb_true_r, andb_assoc. reflexivity.
  - destruct (XData tx); [apply appends_claims | apply appends_skip].
Qed.

(** *** How many bytes are written *)

Lemma writes_Buffer_Write (p : list byte) : writes (Buffer_Write p) (List.length p).
Proof. intros buff. now exists p. Qed.

Lemma writes_skip : writes skip 0.
Proof. intros buff. exists []. unfold skip. now rewrite app_nil_r. Qed.

Lemma writes_andThen (f g : writing) (n m : nat) :
  writes f n -> writes g m -> writes (andThen f g) (n + m).
Proof.
  intros Hf Hg buff. unfold andThen.
  destruct (Hf buff) as (out & -> & <-).
  destruct (Hg (buff ++ out)) as (out' & -> & <-).
  exists (out ++ out'). now rewrite app_assoc, length_app.
Qed.

Lemma writes_forEach {A : Type} (f : A -> writing) (size : A -> nat) (l : list A) :
  Forall (fun x => writes (f x) (size x)) l ->
  writes (forEach f l) (list_sum (map size l)).
Proof.
  induction 1 as [| x l Hx _ IH]; [apply writes_skip |].
  cbn [forEach map list_sum]. now apply writes_andThen.
Qed.

Lemma list_sum_const {A : Type} (n : nat) (l : list A) :
  list_sum (map (fun _ => n) l) = (n * List.length l)%nat.
Proof. induction l as [| x l IH]; simpl; [lia | rewrite IH; lia]. Qed.

Lemma writes_Attr (attr : RawTxAttr) : writes (RawTxAttr_WriteBytes attr) (attr_size attr).
Proof.
  unfold RawTxAttr_WriteBytes, attr_size.
  destruct (without_length (Usage attr)); cbn [negb].
  - apply (writes_andThen _ _ 1 (0 + _)); [apply writes_Buffer_Write |].
    apply writes_andThen; [apply writes_skip | apply writes_Buffer_Write].
  - apply (writes_andThen _ _ 1 (1 + _)); [apply writes_Buffer_Write |].
    apply writes_andThen; apply writes_Buffer_Write.
Qed.

Lemma writes_Script (script : RawTxScript) :
  writes (RawTxScript_WriteBytes script) (script_size script).
Proof.
  intros buff. unfold RawTxScript_WriteBytes, andThen, Buffer_Write, script_size.
  eexists. split; [rewrite <- !app_assoc; reflexivity |].
  rewrite !length_app. simpl. lia.
Qed.

Lemma PutUint64_length (v : Z) : List.length (PutUint64 v) = 8%nat.
Proof. reflexivity. Qed.

Lemma writes_Input (input : RawTxInput) :
  id32 (TxID input) = true -> writes (Input_WriteBytes input) 34.
Proof.
  unfold id32. intros H buff. unfold Input_WriteBytes, RawTxInput_WriteBytes.
  destruct (hex_DecodeString _) as [id | e | msg]; try discriminate.
  apply Nat.eqb_eq in H.
  exists (reverseBytes id ++ PutUint16 (Vout input)).
  split; [now rewrite app_assoc |].
  rewrite length_app, NeoFacts.reverseBytes_rev, length_rev, H. reflexivity.
Qed.

(** An output whose asset id is the hexadecimal text of thirty-two
    bytes, whose value times 10^8 has its floor in the range of
    [uint64], and whose address decodes to a payload of twenty bytes or
    more, is written as exactly sixty bytes: the asset id in reversed
    byte order, the floor as eight bytes, low byte first, and the first
    twenty bytes of the payload. *)
Theorem RawTxOutput_WriteBytes_layout (output : RawTxOutput) (id payload spare : list byte)
    (units : Z) (version : byte) (buff : list byte) :
  hex_DecodeString (strings_TrimPrefix (AssertID output) "0x") = OK id ->
  List.length id = 32%nat ->
  amount_units (Value output) = Some units ->
  base58_CheckDecode (Address output) = OK (payload, spare, version) ->
  (20 <= List.length payload)%nat ->
  exists written,
    RawTxOutput_WriteBytes output buff = Wrote (buff ++ written) None /\
    written = rev id ++ PutUint64 units ++ firstn 20 payload /\
    List.length written = 60%nat.
Proof.
  intros Hid Hlen Hunits Haddr Hpay.
  unfold RawTxOutput_WriteBytes, decodeAddress, amount_uint64.
  rewrite Hid, Hunits, Haddr. cbv zeta.
  replace (20 <=? _)%nat with true by (symmetry; apply Nat.leb_le; lia).
  exists (rev id ++ PutUint64 units ++ firstn 20 payload).
  split; [| split; [reflexivity |]].
  - rewrite NeoFacts.reverseBytes_rev, <- !app_assoc.
    rewrite firstn_app. replace (20 - List.length payload)%nat with 0%nat by lia.
    cbn [firstn]. now rewrite app_nil_r.
  - rewrite !length_app, length_rev, Hlen, PutUint64_length, length_firstn. lia.
Qed.

Lemma decodeAddress_length (address : string) (hash : list byte) :
  decodeAddress address = OK hash -> List.length hash = 20%nat.
Proof.
  unfold decodeAddress.
  destruct (base58_CheckDecode _) as [[[payload spare] v] | e | msg]; try discriminate.
  destruct (20 <=? _)%nat eqn:Hcap; [| discriminate].
  intros H. apply Nat.leb_le in Hcap.
  assert (Eq : hash = firstn 20 (payload ++ spare)) by congruence.
  rewrite Eq, length_firstn, length_app. lia.
Qed.

Lemma writes_Output (output : RawTxOutput) :
  id32 (AssertID output) = true -> decodes (Address output) = true ->
  writes (RawTxOutput_WriteBytes output) 60.
Proof.
  unfold id32, decodes. intros Hid Haddr buff. unfold RawTxOutput_WriteBytes.
  destruct (hex_DecodeString _) as [id | e | msg]; try discriminate.
  apply Nat.eqb_eq in Hid. cbv zeta.
  destruct (decodeAddress _) as [hash | e | msg] eqn:Hd; try discriminate.
  exists (reverseBytes id ++ PutUint64 (amount_uint64 output) ++ hash).
  split; [now rewrite <- !app_assoc |].
  rewrite !length_app, NeoFacts.reverseBytes_rev, length_rev, Hid, PutUint64_length.
  now rewrite (decodeAddress_length _ _ Hd).
Qed.

Lemma forallb_Forall {A : Type} (f : A -> bool) (l : list A) :
  forallb f l = true -> Forall (fun x => f x = true) l.
Proof. intros H. apply Forall_forall. now apply forallb_forall. Qed.

Lemma writes_Inputs (inputs : list RawTxInput) :
  forallb (fun input => id32 (TxID input)) inputs = true ->
  writes (forEach Input_WriteBytes inputs) (34 * List.length inputs).
Proof.
  intros H. rewrite <- list_sum_const. apply writes_forEach.
  apply forallb_Forall in H. revert H. apply Forall_impl. intros input. apply writes_Input.
Qed.

Lemma writes_writeSignData (tx : RawTx) :
  forallb (fun claim => id32 (TxID claim))
          (match XData tx with Some claims => claims | None => [] end) = true ->
  forallb (fun input => id32 (TxID input)) (Inputs tx) = true ->
  forallb (fun output => id32 (AssertID output) && decodes (Address output))
          (Outputs tx) = true ->
  writes (writeSignData tx)
    (2 + (XData_size tx
          + (1 + (list_sum (map attr_size (Attributes tx))
                  + (1 + (34 * List.length (Inputs tx)
                          + (1 + 60 * List.length (Outputs tx)))))))).
Proof.
  intros Hclaims Hin Hout. unfold writeSignData.
  apply writes_andThen; [apply (writes_Buffer_Write [_; _]) |].
  apply writes_andThen.
  { unfold XData_size. destruct (XData tx) as [claims |]; [| apply writes_skip].
    apply writes_andThen; [apply (writes_Buffer_Write [_]) | now apply writes_Inputs]. }
  apply writes_andThen; [apply (writes_Buffer_Write [_]) |].
  apply writes_andThen.
  { apply writes_forEach, Forall_forall. intros attr _. apply writes_Attr. }
  apply writes_andThen; [apply (writes_Buffer_Write [_]) |].
  apply writes_andThen; [now apply writes_Inputs |].
  apply writes_andThen; [apply (writes_Buffer_Write [_]) |].
  rewrite <- list_sum_const. apply writes_forEach.
  apply forallb_Forall in Hout. revert Hout. apply Forall_impl. intros output H.
  apply andb_true_iff in H as [H1 H2]. now apply writes_Output.
Qed.

(** The size of a serialized transaction whose ids have thirty-two
    bytes and whose addresses decode: two bytes of header, a count byte
    before each list, thirty-four bytes for a claim or an input, sixty
    for an output, and for an attribute and a script their data and the
    bytes that frame it. *)
Theorem RawTx_WriteBytes_size (tx : RawTx) (buff : list byte) :
  forallb (fun claim => id32 (TxID claim))
          (match XData tx with Some claims => claims | None => [] end) = true ->
  forallb (fun input => id32 (TxID input)) (Inputs tx) = true ->
  forallb (fun output => id32 (AssertID output) && decodes (Address output))
          (Outputs tx) = true ->
  exists out,
    RawTx_WriteBytes tx buff = Wrote (buff ++ out) None /\
    List.length out
    = (2 + XData_size tx
       + (1 + list_sum (map attr_size (Attributes tx)))
       + (1 + 34 * List.length (Inputs tx))
       + (1 + 60 * List.length (Outputs tx))
       + (1 + list_sum (map script_size (Scripts tx))))%nat.
Proof.
  intros Hclaims Hin Hout.
  pose proof (writes_writeSignData tx Hclaims Hin Hout) as Hsign.
  assert (Hscripts : writes (andThen (Buffer_Write [byte_len (Scripts tx)])
                               (forEach RawTxScript_WriteBytes (Scripts tx)))
                       (1 + list_sum (map script_size (Scripts tx)))).
  { apply writes_andThen; [apply (writes_Buffer_Write [_]) |].
    apply writes_forEach, Forall_forall. intros script _. apply writes_Script. }
  destruct (writes_andThen _ _ _ _ Hsign Hscripts buff) as (out & Hw & Hlen).
  exists out. split; [exact Hw |]. rewrite Hlen. lia.
Qed.

(** *** Signing *)

Lemma WriteBytes_one_script (tx : RawTx) (script : RawTxScript) (signData : list byte) :
  writeSignData tx [] = Wrote signData None ->
  RawTx_WriteBytes (with_Scripts tx [script]) []
  = Wrote (signData ++ x01 ::
             [byte_of_Z (Z_of_byte (byte_len (StackScript script)) + 1);
              byte_len (StackScript script)]
             ++ StackScript script
             ++ [byte_of_Z (Z_of_byte (byte_len (RedeemScript script)) + 2);
                 byte_len (RedeemScript script)]
             ++ RedeemScript script ++ [xac]) None.
Proof.
  intros Hsd. unfold RawTx_WriteBytes. unfold andThen at 1.
  change (writeSignData (with_Scripts tx [script]) []) with (writeSignData tx []).
  rewrite Hsd.
  cbv [andThen Buffer_Write RawTxScript_WriteBytes forEach skip with_Scripts Scripts].
  f_equal. rewrite <- !app_assoc. reflexivity.
Qed.

(** When the data to sign can be written and the key signs it,
    [GenerateWithSign] returns the data that was signed, followed by the
    count [01] and the one script: the signature and the public key,
    each behind its two length bytes, and [ac].  The id returned is the
    double hash of the signed data, reversed, in hexadecimal.  The
    transaction holds this script afterwards. *)
Theorem GenerateWithSign_layout (tx : RawTx) (key : Key) (signData sign : list byte) :
  writeSignData tx [] = Wrote signData None ->
  PrivateKey_Sign key signData = OK sign ->
  let redeemScript := PublicKey_ToBytes key in
  let script := {| StackScript := sign; RedeemScript := redeemScript |} in
  let scriptBytes :=
    [byte_of_Z (Z_of_byte (byte_len sign) + 1); byte_len sign] ++ sign
    ++ [byte_of_Z (Z_of_byte (byte_len redeemScript) + 2); byte_len redeemScript]
    ++ redeemScript ++ [xac] in
  GenerateWithSign tx key
  = (with_Scripts tx [script],
     OK (signData ++ x01 :: scriptBytes,
         hex_EncodeToString (rev (sha256_Sum256 (sha256_Sum256 signData))))).
Proof.
  intros Hsd Hsign. cbv zeta. unfold GenerateWithSign.
  rewrite Hsd, Hsign. cbv zeta.
  rewrite (WriteBytes_one_script tx _ signData Hsd).
  cbn [StackScript RedeemScript]. now rewrite NeoFacts.reverseBytes_rev.
Qed.

(** [GenerateWithSign] replaces the scripts of the transaction and what
    it returns does not depend on them; when it fails, the
    transaction is left as it was. *)
Theorem GenerateWithSign_replaces_scripts (tx : RawTx) (key : Key) :
  (forall scripts,
     snd (GenerateWithSign (with_Scripts tx scripts) key) = snd (GenerateWithSign tx key)) /\
  match snd (GenerateWithSign tx key) with
  | OK _ =>
      exists sign,
        fst (GenerateWithSign tx key)
        = with_Scripts tx [ {| StackScript := sign; RedeemScript := PublicKey_ToBytes key |} ]
  | _ => fst (GenerateWithSign tx key) = tx
  end.
Proof.
  split.
  - intros scripts. unfold GenerateWithSign.
    change (writeSignData (with_Scripts tx scripts) []) with (writeSignData tx []).
    destruct (writeSignData tx []) as [signData [e |] | msg] eqn:Hsd; try reflexivity.
    destruct (PrivateKey_Sign key signData) as [sign | e | msg]; reflexivity.
  - unfold GenerateWithSign.
    destruct (writeSignData tx []) as [signData [e |] | msg] eqn:Hsd; try reflexivity.
    destruct (PrivateKey_Sign key signData) as [sign | e | msg]; try reflexivity.
    cbv zeta. rewrite (WriteBytes_one_script tx _ signData Hsd). cbn [fst snd].
    now exists sign.
Qed.

(** *** The claim transaction on the wire *)

Lemma forallb_map_eq {A B : Type} (f : B -> bool) (g : A -> B) (l : list A) :
  forallb f (map g l) = forallb (fun x => f (g x)) l.
Proof. induction l as [| x l IH]; [reflexivity |]. cbn [map forallb]. now rewrite IH. Qed.

Lemma forallb_Permutation {A : Type} (f : A -> bool) (l l' : list A) :
  Permutation l l' -> forallb f l = true -> forallb f l' = true.
Proof.
  intros Hp H. apply forallb_forall. intros x Hx.
  apply (proj1 (forallb_forall f l) H). now apply (Permutation_in x (Permutation_sym Hp)).
Qed.

(** The transaction [CreateClaimTx] returns for entries whose ids are
    the hexadecimal text of thirty-two bytes and an address that
    decodes: the data to sign is the type [02], [00], the number of
    entries, and then 34 bytes for every entry and 63 more: no
    attribute, no input, one output. *)
Theorem CreateClaimTx_signData (val : float) (address : string) (unspent : list UTXO)
    (buff : list byte) :
  forallb (fun utxo => id32 (TransactionID utxo)) unspent = true ->
  decodes address = true ->
  exists tx out,
    snd (CreateClaimTx val address unspent) = OK tx /\
    writeSignData tx buff = Wrote (buff ++ out) None /\
    List.length out = (66 + 34 * List.length unspent)%nat /\
    firstn 3 out = [ClaimTransaction; x00; byte_len unspent].
Proof.
  intros Hids Haddr. unfold CreateClaimTx. cbn [snd].
  set (sorted := sort_Sort claimSorter_Less unspent).
  assert (Hperm : Permutation unspent sorted) by apply sort_Sort_perm.
  assert (Hlen : List.length sorted = List.length unspent)
    by (symmetry; now apply Permutation_length).
  eexists. 
  set (claims := map input_of_utxo sorted).
  assert (Hclaims : forallb (fun claim => id32 (TxID claim)) claims = true).
  { unfold claims. rewrite forallb_map_eq. cbn [input_of_utxo TxID].
    exact (forallb_Permutation _ _ _ Hperm Hids). }
  set (rest :=
         andThen (Buffer_Write [byte_len (@nil RawTxAttr)])
        (andThen (forEach RawTxAttr_WriteBytes [])
        (andThen (Buffer_Write [byte_len (@nil RawTxInput)])
        (andThen (forEach Input_WriteBytes [])
        (andThen (Buffer_Write [byte_len [ {| AssertID := GasAssert; Value := val;
                                              Address := address |} ]])
                 (forEach RawTxOutput_WriteBytes
                    [ {| AssertID := GasAssert; Value := val; Address := address |} ])))))).
  assert (Hrest : writes rest (1 + (0 + (1 + (0 + (1 + (60 + 0))))))).
  { unfold rest.
    apply writes_andThen; [apply (writes_Buffer_Write [_]) |].
    apply writes_andThen; [apply writes_skip |].
    apply writes_andThen; [apply (writes_Buffer_Write [_]) |].
    apply writes_andThen; [apply writes_skip |].
    apply writes_andThen; [apply (writes_Buffer_Write [_]) |].
    apply writes_andThen; [| apply writes_skip].
    apply writes_Output; [reflexivity | exact Haddr]. }
  destruct (writes_andThen _ _ _ _ (writes_Inputs claims Hclaims) Hrest
              ((buff ++ [ClaimTransaction; x00]) ++ [byte_len claims]))
    as (out & Hw & Hout).
  exists ([ClaimTransaction; x00; byte_len claims] ++ out).
  split; [reflexivity |]. split; [| split].
  - transitivity (andThen (forEach Input_WriteBytes claims) rest
                    ((buff ++ [ClaimTransaction; x00]) ++ [byte_len claims]));
      [reflexivity |].
    rewrite Hw. f_equal. now rewrite <- !app_assoc.
  - rewrite length_app, Hout. unfold claims. rewrite length_map, Hlen. simpl. lia.
  - unfold byte_len, claims. now rewrite length_map, Hlen.
Qed.

End WireFacts.

(** *** The theorems at concrete inputs *)

Open Scope float_scope.

(** An output of [1.0]: the amount field is 100000000, low byte first. *)
Lemma RawTxOutput_WriteBytes_layout_witness :
  exists written,
    RawTxOutput_WriteBytes (E := Toy.externals)
      {| AssertID := Toy.txid; Value := 1.0; Address := Toy.address |} []
    = Wrote written None /\
    written = x01 :: repeat x00 31
              ++ [x00; xe1; xf5; x05; x00; x00; x00; x00]
              ++ repeat x41 20 /\
    List.length written = 60%nat.
Proof.
  exact (RawTxOutput_WriteBytes_layout (E := Toy.externals)
           {| AssertID := Toy.txid; Value := 1.0; Address := Toy.address |}
           (repeat x00 31 ++ [x01]) (list_byte_of_string Toy.address) [] 100000000 x17 []
           eq_refl eq_refl eq_refl eq_refl
           (proj1 (Nat.leb_le 20 24) eq_refl)).
Defined.

(** One attribute with a length byte, one input, one output, one script:
    2 + (1 + 5) + (1 + 34) + (1 + 60) + (1 + 9) bytes. *)
Lemma RawTx_WriteBytes_size_witness :
  exists out,
    RawTx_WriteBytes (E := Toy.externals)
      {| TxType := ContractTransaction; Version := x00; XData := None;
         Attributes := [ {| Usage := xf0; Data := [x01; x02; x03] |} ];
         Inputs := [ {| TxID := Toy.txid; Vout := 0 |} ];
         Outputs := [ {| AssertID := Toy.txid; Value := 1.0; Address := Toy.address |} ];
         Scripts := [ {| StackScript := [x0a; x0b]; RedeemScript := [x0c; x0d] |} ] |} []
    = Wrote out None /\
    List.length out = 114%nat.
Proof.
  exact (RawTx_WriteBytes_size (E := Toy.externals)
           {| TxType := ContractTransaction; Version := x00; XData := None;
              Attributes := [ {| Usage := xf0; Data := [x01; x02; x03] |} ];
              Inputs := [ {| TxID := Toy.txid; Vout := 0 |} ];
              Outputs := [ {| AssertID := Toy.txid; Value := 1.0; Address := Toy.address |} ];
              Scripts := [ {| StackScript := [x0a; x0b]; RedeemScript := [x0c; x0d] |} ] |}
           [] eq_refl eq_refl eq_refl).
Defined.

(** A transaction with one input and no output, signed with the small
    key: the signature is the first two bytes of the signed data. *)
Lemma GenerateWithSign_layout_witness :
  snd (GenerateWithSign (E := Toy.externals)
         {| TxType := ContractTransaction; Version := x00; XData := None;
            Attributes := []; Inputs := []; Outputs := []; Scripts := [] |} Toy.key)
  = OK ([x80; x00; x00; x00; x00] ++ [x01] ++ [x03; x02; x80; x00; x04; x02; x02; x03; xac],
        "80"%string).
Proof.
  exact (f_equal snd
           (GenerateWithSign_layout (E := Toy.externals)
              {| TxType := ContractTransaction; Version := x00; XData := None;
                 Attributes := []; Inputs := []; Outputs := []; Scripts := [] |}
              Toy.key [x80; x00; x00; x00; x00] [x80; x00] eq_refl eq_refl)).
Defined.

(** Two entries to claim: 66 + 68 bytes to sign. *)
Lemma CreateClaimTx_signData_witness :
  exists tx out,
    snd (CreateClaimTx 1.0 Toy.address
           [ {| TransactionID := Toy.txid; Vout_N := 0; SpentBlock := 9;
                Value_float := 1.0; Value_err := None |};
             {| TransactionID := Toy.txid; Vout_N := 1; SpentBlock := 4;
                Value_float := 1.0; Value_err := None |} ]) = OK tx /\
    writeSignData (E := Toy.externals) tx [] = Wrote ([] ++ out) None /\
    List.length out = 134%nat /\
    firstn 3 out = [x02; x00; x02].
Proof.
  exact (CreateClaimTx_signData (E := Toy.externals) 1.0 Toy.address
           [ {| TransactionID := Toy.txid; Vout_N := 0; SpentBlock := 9;
                Value_float := 1.0; Value_err := None |};
             {| TransactionID := Toy.txid; Vout_N := 1; SpentBlock := 4;
                Value_float := 1.0; Value_err := None |} ] [] eq_refl eq_refl).
Defined.

End NeoWireFacts.

(* ================================================================= *)
(** ** Properties of package keystore *)

Module KeystoreFacts.

Import Keystore.
Open Scope string_scope.
Open Scope list_scope.

(** *** Bytes *)

Lemma byte_xor_involutive (a k : byte) : byte_xor (byte_xor a k) k = a.
Proof.
  unfold byte_xor.
  destruct (Byte.to_bits a) as (a0 & a1 & a2 & a3 & a4 & a5 & a6 & a7) eqn:Ea.
  destruct (Byte.to_bits k) as (k0 & k1 & k2 & k3 & k4 & k5 & k6 & k7) eqn:Ek.
  rewrite Byte.to_bits_of_bits.
  rewrite !xorb_assoc, !xorb_nilpotent, !xorb_false_r, <- Ea.
  apply Byte.of_bits_to_bits.
Qed.

Lemma slice_length (s : list byte) (lo hi : nat) (t : list byte) :
  slice s lo hi = OK t -> List.length t = (hi - lo)%nat.
Proof.
  unfold slice. destruct ((lo <=? hi) && (hi <=? List.length s))%nat eqn:E; [| discriminate].
  apply andb_true_iff in E as [H1 H2]. apply Nat.leb_le in H1, H2.
  intros [= <-]. rewrite length_firstn, length_skipn. lia.
Qed.

Lemma slice_OK (s : list byte) (lo hi : nat) :
  (lo <= hi <= List.length s)%nat -> slice s lo hi = OK (firstn (hi - lo) (skipn lo s)).
Proof.
  intros [H1 H2]. unfold slice.
  apply Nat.leb_le in H1, H2. now rewrite H1, H2.
Qed.

Lemma bytes_Equal_refl (a : list byte) : bytes_Equal a a = true.
Proof. unfold bytes_Equal. destruct (list_eq_dec _ a a); congruence. Qed.

Lemma bytes_Equal_false (a b : list byte) : a <> b -> bytes_Equal a b = false.
Proof. unfold bytes_Equal. destruct (list_eq_dec _ a b); congruence. Qed.

(** *** Text that JSON leaves alone *)

Lemma toValidUTF8_ascii (s : list byte) : ascii_bytes s -> toValidUTF8 s = s.
Proof.
  induction 1 as [| b s Hb _ IH]; [reflexivity |].
  cbn [toValidUTF8]. cbv zeta. rewrite Hb, IH. reflexivity.
Qed.

Lemma hex_digit_ascii (v : byte) :
  (Byte.to_N (hex_digit (Byte.to_N v / 16)) <? 128)%N = true /\
  (Byte.to_N (hex_digit (Byte.to_N v mod 16)) <? 128)%N = true.
Proof. destruct v; split; reflexivity. Qed.

Lemma hex_Encode_ascii (src : list byte) : ascii_bytes (hex_Encode src).
Proof.
  induction src as [| v src IH]; [constructor |].
  destruct (hex_digit_ascii v). cbn [hex_Encode]. now repeat constructor.
Qed.

Lemma ToValidUTF8_hex (src : list byte) :
  ToValidUTF8 (hex_EncodeToString src) = hex_EncodeToString src.
Proof.
  unfold ToValidUTF8, hex_EncodeToString.
  rewrite list_byte_of_string_of_list_byte, toValidUTF8_ascii; [reflexivity |].
  apply hex_Encode_ascii.
Qed.

(** *** Numbers of a document *)

(** An integer of at most fifty-three bits goes through [float64]
    unchanged. *)
Lemma int_of_float64_of_Z (n : Z) :
  (Z.abs n < 2 ^ 53)%Z -> int_of_float64 (float64_of_Z n) = n.
Proof.
  intros Hn. unfold float64_of_Z, int_of_float64.
  destruct n as [| m | m]; cbn [binary_normalize]; [reflexivity | |].
  - destruct (FloatFacts.binary_round_exact false m Hn) as (mz & ez & -> & Hb & Hez & Hv).
    rewrite Prim2SF_SF2Prim by exact Hb.
    assert (Hmag : (if 0 <=? ez then Z.pos mz * 2 ^ ez else Z.pos mz / 2 ^ (- ez))%Z
                   = Z.pos m).
    { destruct (Z.leb_spec 0 ez).
      - replace ez with 0%Z in * by lia. simpl in Hv. lia.
      - rewrite Hv. apply Z.div_mul. apply Z.pow_nonzero; lia. }
    rewrite Hmag.
    assert (E : ((min_int64 <=? Z.pos m) && (Z.pos m <? 2 ^ 63))%Z = true).
    { apply andb_true_iff; split; [apply Z.leb_le | apply Z.ltb_lt]; unfold min_int64; lia. }
    now rewrite E.
  - destruct (FloatFacts.binary_round_exact true m Hn) as (mz & ez & -> & Hb & Hez & Hv).
    rewrite Prim2SF_SF2Prim by exact Hb.
    assert (Hmag : (if 0 <=? ez then Z.pos mz * 2 ^ ez else Z.pos mz / 2 ^ (- ez))%Z
                   = Z.pos m).
    { destruct (Z.leb_spec 0 ez).
      - replace ez with 0%Z in * by lia. simpl in Hv. lia.
      - rewrite Hv. apply Z.div_mul. apply Z.pow_nonzero; lia. }
    rewrite Hmag.
    assert (E : ((min_int64 <=? - Z.pos m) && (- Z.pos m <? 2 ^ 63))%Z = true).
    { apply andb_true_iff; split; [apply Z.leb_le | apply Z.ltb_lt]; unfold min_int64; lia. }
    now rewrite E.
Qed.

Lemma ensureInt_integer (x : option any) (n : Z) :
  holds_integer x n -> ensureInt x = OK n.
Proof.
  intros [-> | [-> Hn]]; cbn [ensureInt]; [reflexivity |].
  now rewrite int_of_float64_of_Z.
Qed.

Section CodecFacts.

Context {P : Primitives} {L : PrimitiveLaws P}.

(** *** pbkdf2.Key returns for the lengths the runtime can allocate *)

Lemma pbkdf2_Key_OK (password salt : list byte) (iter keyLen : Z) :
  (0 <= keyLen <= maxAlloc)%Z ->
  pbkdf2_Key password salt iter keyLen
  = OK (pbkdf2_hmac_sha256 password salt iter keyLen).
Proof.
  intros H. unfold pbkdf2_Key. cbv zeta.
  change maxAlloc with 281474976710656%Z in *.
  rewrite Z.quot_div_nonneg by lia.
  pose proof (Z.div_mod (keyLen + 32 - 1) 32 ltac:(lia)) as Hq.
  pose proof (Z.mod_pos_bound (keyLen + 32 - 1) 32 ltac:(lia)) as Hr.
  destruct (Z.ltb_spec ((keyLen + 32 - 1) / 32 * 32) 0); [lia |].
  destruct (Z.ltb_spec 281474976710656 ((keyLen + 32 - 1) / 32 * 32)); [lia |].
  destruct (Z.ltb_spec keyLen 0); [lia | reflexivity].
Qed.

Lemma pbkdf2_Key_Panic (password salt : list byte) (iter keyLen : Z) :
  (keyLen < 0 \/ maxAlloc < keyLen)%Z ->
  exists msg, pbkdf2_Key password salt iter keyLen = Panic msg.
Proof.
  intros H. unfold pbkdf2_Key. cbv zeta.
  change maxAlloc with 281474976710656%Z in *.
  destruct (_ || _)%bool eqn:E; [now eexists |].
  apply orb_false_iff in E as [E1 E2].
  apply Z.ltb_ge in E1, E2.
  destruct (Z.ltb_spec keyLen 0) as [Hneg | Hpos]; [now eexists | exfalso].
  rewrite Z.quot_div_nonneg in E2 by lia.
  pose proof (Z.div_mod (keyLen + 32 - 1) 32 ltac:(lia)) as Hq.
  pose proof (Z.mod_pos_bound (keyLen + 32 - 1) 32 ltac:(lia)) as Hr.
  lia.
Qed.

(** *** AES in counter mode is its own inverse *)

Lemma keyStream_length (blocks : nat) (key ctr : list byte) :
  List.length (keyStream blocks key ctr) = (16 * blocks)%nat.
Proof.
  revert ctr; induction blocks as [| n IH]; intro ctr; [reflexivity |].
  cbn [keyStream]. rewrite length_app, aes_Encrypt_length, IH. lia.
Qed.

Lemma xorBytes_length (src stream : list byte) :
  (List.length src <= List.length stream)%nat ->
  List.length (xorBytes src stream) = List.length src.
Proof.
  revert stream; induction src as [| b src IH]; intros [| k stream] H; simpl in *;
    try reflexivity; try lia.
  rewrite IH; [reflexivity | lia].
Qed.

Lemma xorBytes_involutive (src stream : list byte) :
  (List.length src <= List.length stream)%nat ->
  xorBytes (xorBytes src stream) stream = src.
Proof.
  revert stream; induction src as [| b src IH]; intros [| k stream] H; simpl in *;
    try reflexivity; try lia.
  rewrite byte_xor_involutive, IH; [reflexivity | lia].
Qed.

Lemma keyStream_covers (n : nat) (key ctr : list byte) :
  (n <= List.length (keyStream ((n + 15) / 16) key ctr))%nat.
Proof.
  rewrite keyStream_length.
  pose proof (Nat.div_mod_eq (n + 15) 16) as E.
  pose proof (Nat.mod_upper_bound (n + 15) 16 ltac:(lia)) as B.
  lia.
Qed.

Lemma aesCTRXOR_OK (key inText iv : list byte) :
  List.length key = 16%nat -> List.length iv = 16%nat ->
  aesCTRXOR key inText iv
  = OK (xorBytes inText (keyStream ((List.length inText + 15) / 16) key iv)).
Proof. intros Hk Hiv. unfold aesCTRXOR. now rewrite Hk, Hiv. Qed.

Lemma aesCTRXOR_length (key inText iv outText : list byte) :
  aesCTRXOR key inText iv = OK outText -> List.length outText = List.length inText.
Proof.
  unfold aesCTRXOR.
  destruct (negb _); [discriminate |]. destruct (negb _); [discriminate |].
  intros [= <-]. apply xorBytes_length, keyStream_covers.
Qed.

Lemma aesCTRXOR_involutive (key inText iv outText : list byte) :
  aesCTRXOR key inText iv = OK outText -> aesCTRXOR key outText iv = OK inText.
Proof.
  intros H. pose proof (aesCTRXOR_length _ _ _ _ H) as Hlen.
  revert H. unfold aesCTRXOR.
  destruct (negb _); [discriminate |]. destruct (negb _); [discriminate |].
  intros [= <-]. rewrite Hlen. f_equal.
  apply xorBytes_involutive, keyStream_covers.
Qed.


Lemma Marshal_document (a ct iv salt mac id : string) :
  Marshal_encryptedKeyJSONV3
    {| V3_Address := a;
       V3_Crypto :=
         {| Cipher := "aes-128-ctr"; CipherText := ct; CipherParams := {| IV := iv |};
            KDF := scryptKDFName;
            KDFParams :=
              map_insert "salt" (AnyString salt)
                (map_insert "dklen" (AnyInt scryptDklen)
                  (map_insert "p" (AnyInt lightScryptP)
                    (map_insert "r" (AnyInt scryptR)
                      (map_insert "n" (AnyInt lightScryptN) []))));
            MAC := mac |};
       V3_ID := id; V3_Version := 3 |}
  = OK (keystore_document (ToValidUTF8 a) (ToValidUTF8 ct) (ToValidUTF8 iv)
          (ToValidUTF8 salt) (ToValidUTF8 mac) (ToValidUTF8 id) (JNumber (IntLit 3))).
Proof. reflexivity. Qed.

(** A number of [int64] is in the range of [float64]. *)
Lemma float64_of_number_int (n : Z) :
  (min_int64 <= n < 2 ^ 63)%Z ->
  float64_of_number (IntLit n) = Some (float64_of_Z n).
Proof.
  intros Hn. unfold float64_of_number.
  assert (H : (2 ^ 63 < 2 ^ 1024 - 2 ^ 970)%Z) by reflexivity.
  destruct (Z.ltb_spec (Z.abs n) (2 ^ 1024 - 2 ^ 970)) as [_ | H']; [reflexivity |].
  unfold min_int64 in Hn. lia.
Qed.

Lemma decode_any_int (n : Z) :
  (min_int64 <= n < 2 ^ 63)%Z ->
  decode_any (JNumber (IntLit n)) = OK (AnyFloat64 (float64_of_Z n)).
Proof. intros Hn. cbn [decode_any]. now rewrite float64_of_number_int. Qed.

Lemma Unmarshal_map_document (a ct iv salt mac id : string) (version : json) (v : any) :
  decode_any version = OK v ->
  exists kv,
    Unmarshal_map (keystore_document a ct iv salt mac id version) = OK kv /\
    map_lookup "version" kv = Some v.
Proof.
  intros Hv. unfold Unmarshal_map, keystore_document, decode_map.
  cbn [traverse decode_member bind]. rewrite Hv.
  eexists; split; reflexivity.
Qed.

Lemma Unmarshal_document (a ct iv salt mac id : string) (n : Z) :
  (min_int64 <= n < 2 ^ 63)%Z ->
  Unmarshal_encryptedKeyJSONV3 (keystore_document a ct iv salt mac id (JNumber (IntLit n)))
  = OK (keystore_record a ct iv salt mac id n).
Proof.
  intros [H1 H2].
  assert (E : ((min_int64 <=? n) && (n <? 2 ^ 63))%Z = true)
    by (apply andb_true_iff; split; [apply Z.leb_le | apply Z.ltb_lt]; assumption).
  change (Unmarshal_encryptedKeyJSONV3
            (keystore_document a ct iv salt mac id (JNumber (IntLit n))))
    with (bind (bind (decode_int 0 (JNumber (IntLit n)))
                  (fun v => OK (keystore_record a ct iv salt mac id v)))
            (fun t => OK t)).
  unfold decode_int. rewrite E. reflexivity.
Qed.

Lemma getKDFKey_document (a ct iv saltHex mac id : string) (n : Z)
    (salt : list byte) (password : string) :
  hex_DecodeString saltHex = OK salt ->
  getKDFKey (V3_Crypto (keystore_record a ct iv saltHex mac id n)) password
  = scrypt_Key (list_byte_of_string password) salt lightScryptN scryptR lightScryptP scryptDklen.
Proof.
  intros Hsalt. unfold getKDFKey, keystore_record.
  cbn [V3_Crypto KDFParams KDF map_lookup String.eqb Ascii.eqb Bool.eqb assert_string bind].
  rewrite Hsalt. reflexivity.
Qed.

(** *** What a successful Write returns *)

Lemma shadowed_int_attr_OK (attrs : option gomap) (name : string) (u : unit) :
  shadowed_int_attr attrs name = OK u -> u = tt.
Proof. now destruct u. Qed.

Lemma GetEntropyCSPRNG_length (n : nat) (rand : Reader) :
  List.length (fst (GetEntropyCSPRNG n rand)) = n.
Proof. unfold GetEntropyCSPRNG. cbn [fst]. now rewrite length_map, length_seq. Qed.

Lemma Write_inv (key : Key) (password : string) (attrs : option gomap) (rand : Reader)
    (doc : json) :
  Write key password attrs rand = OK doc ->
  exists derivedKey cipherText,
    Write_derive password rand = OK derivedKey /\
    List.length derivedKey = 32%nat /\
    aesCTRXOR (firstn 16 derivedKey) (PrivateKey key) (Write_iv rand) = OK cipherText /\
    doc = keystore_document
            (ToValidUTF8 (Address key))
            (hex_EncodeToString cipherText)
            (hex_EncodeToString (Write_iv rand))
            (hex_EncodeToString (Write_salt rand))
            (hex_EncodeToString (Keccak256 (macKey derivedKey ++ cipherText)))
            (uuid_String (ID key))
            (JNumber (IntLit 3)).
Proof.
  unfold Write.
  change (GetEntropyCSPRNG 32 rand)
    with (Write_salt rand, snd (GetEntropyCSPRNG 32 rand)).
  cbv iota beta zeta.
  change (GetEntropyCSPRNG 16 (snd (GetEntropyCSPRNG 32 rand)))
    with (Write_iv rand, snd (GetEntropyCSPRNG 16 (snd (GetEntropyCSPRNG 32 rand)))).
  cbv iota beta zeta.
  intros H.
  apply bind_OK in H as (_ & _ & H). apply bind_OK in H as (_ & _ & H).
  apply bind_OK in H as (derivedKey & Hdk & H).
  apply bind_OK in H as (encryptKey & Hek & H).
  apply bind_OK in H as (cipherText & Hct & H).
  apply bind_OK in H as (mk & Hmk & H).
  pose proof (scrypt_Key_length _ _ _ _ _ _ _ Hdk) as Hlen.
  change (Z.to_nat scryptDklen) with 32%nat in Hlen.
  rewrite slice_OK in Hek by lia. injection Hek as <-.
  rewrite slice_OK in Hmk by lia. injection Hmk as <-.
  cbn [Nat.sub skipn] in Hct.
  exists derivedKey, cipherText.
  split; [exact Hdk |]. split; [exact Hlen |]. split; [exact Hct |].
  rewrite Marshal_document in H. injection H as <-.
  rewrite !ToValidUTF8_hex, uuid_String_valid. reflexivity.
Qed.

(** [Write] succeeds as soon as the key derivation does and the
    attributes, if any are given, hold [int]s. *)
Lemma Write_OK (key : Key) (password : string) (rand : Reader) (derivedKey : list byte) :
  Write_derive password rand = OK derivedKey ->
  exists doc, Write key password None rand = OK doc.
Proof.
  intros Hdk. unfold Write.
  change (GetEntropyCSPRNG 32 rand)
    with (Write_salt rand, snd (GetEntropyCSPRNG 32 rand)).
  cbv iota beta zeta.
  change (GetEntropyCSPRNG 16 (snd (GetEntropyCSPRNG 32 rand)))
    with (Write_iv rand, snd (GetEntropyCSPRNG 16 (snd (GetEntropyCSPRNG 32 rand)))).
  cbv iota beta zeta. cbn [shadowed_int_attr bind].
  unfold Write_derive in Hdk. rewrite Hdk. cbn [bind].
  pose proof (scrypt_Key_length _ _ _ _ _ _ _ Hdk) as Hlen.
  change (Z.to_nat scryptDklen) with 32%nat in Hlen.
  rewrite !slice_OK by lia. cbn [bind Nat.sub skipn].
  rewrite aesCTRXOR_OK;
    [| rewrite length_firstn; lia | apply GetEntropyCSPRNG_length].
  cbn [bind]. rewrite Marshal_document. eexists; reflexivity.
Qed.

(** *** Reading a document Write produced *)

Lemma decryptKeyV3_document (a id : string) (ct iv salt mac : list byte) (n : Z)
    (password : string) (derivedKey : list byte) :
  scrypt_Key (list_byte_of_string password) salt
    lightScryptN scryptR lightScryptP scryptDklen = OK derivedKey ->
  decryptKeyV3
    (keystore_record a (hex_EncodeToString ct) (hex_EncodeToString iv)
       (hex_EncodeToString salt) (hex_EncodeToString mac) id n) password
  = if bytes_Equal (Keccak256 (macKey derivedKey ++ ct)) mac
    then bind (aesCTRXOR (firstn 16 derivedKey) ct iv)
           (fun plainText => OK (plainText, uuid_Parse id))
    else Err (ErrDecrypt (Keccak256 (macKey derivedKey ++ ct)) mac).
Proof.
  intros Hdk. unfold decryptKeyV3.
  rewrite (getKDFKey_document _ _ _ _ _ _ _ salt password
             (hex_DecodeString_EncodeToString salt)).
  cbn [keystore_record V3_Crypto V3_ID Cipher MAC CipherText CipherParams IV
       String.eqb Ascii.eqb Bool.eqb negb].
  rewrite !hex_DecodeString_EncodeToString, Hdk. cbn [bind].
  pose proof (scrypt_Key_length _ _ _ _ _ _ _ Hdk) as Hlen.
  change (Z.to_nat scryptDklen) with 32%nat in Hlen.
  rewrite !slice_OK by lia. cbn [bind Nat.sub skipn].
  fold (macKey derivedKey).
  destruct (bytes_Equal _ mac); reflexivity.
Qed.

Lemma Read_document (a ct iv salt mac id : string) (n : Z) (password : string) :
  (min_int64 <= n < 2 ^ 63)%Z ->
  Read (keystore_document a ct iv salt mac id (JNumber (IntLit n))) password
  = bind (decryptKeyV3 (keystore_record a ct iv salt mac id n) password)
      (fun r => OK {| ID := snd r; Address := a; PrivateKey := fst r |}).
Proof.
  intros Hn. unfold Read.
  destruct (Unmarshal_map_document a ct iv salt mac id (JNumber (IntLit n)) _
              (decode_any_int n Hn))
    as (kv & -> & Hver).
  cbn [bind]. rewrite Hver.
  rewrite (Unmarshal_document _ _ _ _ _ _ _ Hn). cbn [bind].
  destruct (decryptKeyV3 _ password) as [[keyBytes keyID] | e | m]; reflexivity.
Qed.

(** Reading what [Write] returned, with a password whose derived key is
    [derivedKey2]: everything up to the MAC comparison succeeds, and the
    comparison decides. *)
Lemma Read_Write (key : Key) (password password2 : string) (attrs : option gomap)
    (rand : Reader) (doc : json) (n : Z) (derivedKey2 : list byte) :
  (min_int64 <= n < 2 ^ 63)%Z ->
  Write key password attrs rand = OK doc ->
  Write_derive password2 rand = OK derivedKey2 ->
  exists derivedKey cipherText,
    Write_derive password rand = OK derivedKey /\
    aesCTRXOR (firstn 16 derivedKey) (PrivateKey key) (Write_iv rand) = OK cipherText /\
    Read (with_version (JNumber (IntLit n)) doc) password2
    = if bytes_Equal (Keccak256 (macKey derivedKey2 ++ cipherText))
                     (Keccak256 (macKey derivedKey ++ cipherText))
      then bind (aesCTRXOR (firstn 16 derivedKey2) cipherText (Write_iv rand))
             (fun plainText =>
                OK {| ID := uuid_Parse (uuid_String (ID key));
                      Address := ToValidUTF8 (Address key);
                      PrivateKey := plainText |})
      else Err (ErrDecrypt (Keccak256 (macKey derivedKey2 ++ cipherText))
                           (Keccak256 (macKey derivedKey ++ cipherText))).
Proof.
  intros Hn HW Hdk2.
  destruct (Write_inv _ _ _ _ _ HW) as (dk & ct & Hdk & Hlen & Hct & ->).
  exists dk, ct. split; [exact Hdk |]. split; [exact Hct |].
  change (with_version (JNumber (IntLit n)) (keystore_document ?a ?c ?i ?s ?m ?u _))
    with (keystore_document a c i s m u (JNumber (IntLit n))).
  rewrite (Read_document _ _ _ _ _ _ _ _ Hn).
  rewrite (decryptKeyV3_document _ _ _ _ _ _ _ _ _ Hdk2).
  destruct (bytes_Equal _ _); [| reflexivity].
  destruct (aesCTRXOR _ ct _); reflexivity.
Qed.

Lemma three_in_range : (min_int64 <= 3 < 2 ^ 63)%Z.
Proof. unfold min_int64. lia. Qed.

(** *** The claims about the codec *)

(** C2.  Reading back what [Write] returned, with the same password,
    gives the key that was written: the same id (a UUID of sixteen
    bytes), the same address (text that JSON carries unchanged, that is,
    valid UTF-8) and the same private-key bytes. *)
Theorem Read_Write_roundtrip (key : Key) (password : string) (attrs : option gomap)
    (rand : Reader) (doc : json) :
  List.length (ID key) = 16%nat ->
  ToValidUTF8 (Address key) = Address key ->
  Write key password attrs rand = OK doc ->
  Read doc password = OK key.
Proof.
  intros Hid Haddr HW.
  destruct (Write_inv _ _ _ _ _ HW) as (dk & ct & Hdk & Hlen & Hct & Hdoc).
  assert (Hn : (min_int64 <= 3 < 2 ^ 63)%Z) by (unfold min_int64; lia).
  destruct (Read_Write key password password attrs rand doc 3 dk Hn HW Hdk)
    as (dk' & ct' & Hdk' & Hct' & HR).
  rewrite Hdk in Hdk'. injection Hdk' as <-.
  rewrite Hct in Hct'. injection Hct' as <-.
  replace (with_version (JNumber (IntLit 3)) doc) with doc in HR
    by (rewrite Hdoc; reflexivity).
  rewrite HR, bytes_Equal_refl, (aesCTRXOR_involutive _ _ _ _ Hct). cbn [bind].
  rewrite (uuid_Parse_String _ Hid), Haddr. destruct key; reflexivity.
Qed.


(** Derived keys have thirty-two bytes and passwords any number: where
    the key derivation accepts every password, two different passwords
    of thirty-three bytes have one derived key, and what [Write]
    returned under the one is read under the other. *)
Lemma two_passwords_one_key (key : Key) (rand : Reader) :
  (forall password, exists derivedKey, Write_derive password rand = OK derivedKey) ->
  List.length (ID key) = 16%nat ->
  ToValidUTF8 (Address key) = Address key ->
  exists password password2 doc,
    password <> password2 /\
    String.length password = 33%nat /\ String.length password2 = 33%nat /\
    Write key password None rand = OK doc /\
    Read doc password2 = OK key.
Proof.
  intros Htotal Hid Haddr.
  set (f := fun pw : list byte =>
              match scrypt_Key pw (Write_salt rand) lightScryptN scryptR lightScryptP
                      scryptDklen with
              | OK dk => dk
              | _ => []
              end).
  assert (Hf : forall l, Write_derive (string_of_list_byte l) rand = OK (f l)).
  { intros l. destruct (Htotal (string_of_list_byte l)) as (dk & Hdk).
    rewrite Hdk. unfold Write_derive in Hdk.
    rewrite list_byte_of_string_of_list_byte in Hdk. unfold f. now rewrite Hdk. }
  destruct (pigeonhole 32 f) as (a & b & Ha & Hb & Hne & E).
  { intros l _. exact (scrypt_Key_length _ _ _ _ _ _ _ (Hf l)). }
  pose proof (Hf a) as Hdk. pose proof (Hf b) as Hdk2. rewrite <- E in Hdk2.
  destruct (Write_OK key _ rand _ Hdk) as (doc & HW).
  exists (string_of_list_byte a), (string_of_list_byte b), doc.
  split.
  { intros Heq. apply Hne.
    rewrite <- (list_byte_of_string_of_list_byte a), Heq.
    apply list_byte_of_string_of_list_byte. }
  split; [now rewrite string_of_list_byte_length |].
  split; [now rewrite string_of_list_byte_length |].
  split; [exact HW |].
  destruct (Write_inv _ _ _ _ _ HW) as (dk & ct & Hdk' & Hlen & Hct & Hdoc).
  destruct (Read_Write key _ _ None rand doc 3 (f a) three_in_range HW Hdk2)
    as (dk'' & ct' & Hdk'' & Hct' & HR).
  rewrite Hdk in Hdk', Hdk''. injection Hdk' as <-. injection Hdk'' as <-.
  rewrite Hct in Hct'. injection Hct' as <-.
  replace (with_version (JNumber (IntLit 3)) doc) with doc in HR
    by (rewrite Hdoc; reflexivity).
  rewrite HR, bytes_Equal_refl, (aesCTRXOR_involutive _ _ _ _ Hct). cbn [bind].
  rewrite (uuid_Parse_String _ Hid), Haddr. destruct key; reflexivity.
Qed.

(** C4, on the code.  The text [Write] encrypts is [key.PrivateKey]
    itself: the ciphertext in the document has the length of the
    private-key bytes, thirty-one bytes for a scalar of thirty-one
    bytes. *)
Theorem Write_encrypts_unpadded (key : Key) (password : string) (attrs : option gomap)
    (rand : Reader) (doc : json) :
  Write key password attrs rand = OK doc ->
  exists derivedKey cipherText crypto,
    Write_derive password rand = OK derivedKey /\
    aesCTRXOR (firstn 16 derivedKey) (PrivateKey key) (Write_iv rand) = OK cipherText /\
    member "crypto" doc = Some crypto /\
    member "ciphertext" crypto = Some (JString (hex_EncodeToString cipherText)) /\
    List.length cipherText = List.length (PrivateKey key).
Proof.
  intros HW.
  destruct (Write_inv _ _ _ _ _ HW) as (dk & ct & Hdk & Hlen & Hct & ->).
  exists dk, ct. eexists. split; [exact Hdk |]. split; [exact Hct |].
  split; [reflexivity |]. split; [reflexivity |].
  exact (aesCTRXOR_length _ _ _ _ Hct).
Qed.

(** C5, on the code.  A document whose member [version] is a number,
    whatever the number, passes the version check: [Read] goes on to
    decrypt it and returns the key. *)
Theorem Read_ignores_numeric_version (key : Key) (password : string)
    (attrs : option gomap) (rand : Reader) (doc : json) (n : Z) :
  (min_int64 <= n < 2 ^ 63)%Z ->
  List.length (ID key) = 16%nat ->
  ToValidUTF8 (Address key) = Address key ->
  Write key password attrs rand = OK doc ->
  Read (with_version (JNumber (IntLit n)) doc) password = OK key.
Proof.
  intros Hn Hid Haddr HW.
  destruct (Write_inv _ _ _ _ _ HW) as (dk & ct & Hdk & Hlen & Hct & Hdoc).
  destruct (Read_Write key password password attrs rand doc n dk Hn HW Hdk)
    as (dk' & ct' & Hdk' & Hct' & HR).
  rewrite Hdk in Hdk'. injection Hdk' as <-.
  rewrite Hct in Hct'. injection Hct' as <-.
  rewrite HR, bytes_Equal_refl, (aesCTRXOR_involutive _ _ _ _ Hct). cbn [bind].
  rewrite (uuid_Parse_String _ Hid), Haddr. destruct key; reflexivity.
Qed.

(** A member [version] that is a string other than ["3"] is refused
    before anything is decoded. *)
Theorem Read_refuses_version_string (data : json) (kv : gomap)
    (version password : string) :
  Unmarshal_map data = OK kv ->
  map_lookup "version" kv = Some (AnyString version) ->
  version <> "3" ->
  Read data password = Err ErrVersion.
Proof.
  intros Hkv Hver Hne. unfold Read. rewrite Hkv. cbn [bind]. rewrite Hver.
  destruct (String.eqb version "3") eqn:E; [| reflexivity].
  apply String.eqb_eq in E. contradiction.
Qed.

(** C9.  On the PBKDF2 path, with a salt in hexadecimal and integers
    for [dklen] and [c] (as the decoder stores them, or as [int]s): a
    [prf] other than ["hmac-sha256"] fails with the unsupported-PRF
    error; ["hmac-sha256"] returns the PBKDF2 key for the password, the
    decoded salt, [c] and [dklen], which has [dklen] bytes, for every
    [dklen] from 0 to the largest allocation, and panics in
    [pbkdf2.Key] for any other [dklen]. *)
Theorem getKDFKey_pbkdf2 (cryptoJSON : cryptoJSON) (auth saltHex prf : string)
    (salt : list byte) (dklen c : Z) :
  KDF cryptoJSON = "pbkdf2" ->
  map_lookup "salt" (KDFParams cryptoJSON) = Some (AnyString saltHex) ->
  hex_DecodeString saltHex = OK salt ->
  holds_integer (map_lookup "dklen" (KDFParams cryptoJSON)) dklen ->
  holds_integer (map_lookup "c" (KDFParams cryptoJSON)) c ->
  map_lookup "prf" (KDFParams cryptoJSON) = Some (AnyString prf) ->
  (prf <> "hmac-sha256" -> getKDFKey cryptoJSON auth = Err (ErrUnsupportedPRF prf)) /\
  (prf = "hmac-sha256" -> (0 <= dklen <= maxAlloc)%Z ->
     exists key,
       getKDFKey cryptoJSON auth = OK key /\
       key = pbkdf2_hmac_sha256 (list_byte_of_string auth) salt c dklen /\
       List.length key = Z.to_nat dklen) /\
  (prf = "hmac-sha256" -> (dklen < 0 \/ maxAlloc < dklen)%Z ->
     exists msg, getKDFKey cryptoJSON auth = Panic msg).
Proof.
  intros Hkdf Hsalt Hhex Hdk Hc Hprf.
  unfold getKDFKey. rewrite Hkdf, Hsalt. cbn [assert_string bind].
  rewrite Hhex, (ensureInt_integer _ _ Hdk). cbn [bind].
  change (String.eqb "pbkdf2" scryptKDFName) with false.
  change (String.eqb "pbkdf2" "pbkdf2") with true. cbv iota.
  rewrite (ensureInt_integer _ _ Hc), Hprf. cbn [assert_string bind].
  split; [| split].
  - intros Hne. destruct (String.eqb prf "hmac-sha256") eqn:E; [| reflexivity].
    apply String.eqb_eq in E. contradiction.
  - intros -> Hrange. change (String.eqb "hmac-sha256" "hmac-sha256") with true.
    cbn [negb]. rewrite pbkdf2_Key_OK by exact Hrange. cbn [bind].
    eexists. split; [reflexivity |]. split; [reflexivity |].
    apply pbkdf2_hmac_sha256_length. lia.
  - intros -> Hrange. change (String.eqb "hmac-sha256" "hmac-sha256") with true.
    cbn [negb]. destruct (pbkdf2_Key_Panic (list_byte_of_string auth) salt c dklen Hrange)
      as (msg & ->).
    now exists msg.
Qed.


(** *** Documents in general *)

Lemma Unmarshal_map_general (a c ct iv kdf : string) (kdfparams : json)
    (mac id : string) (version : json) (params v : any) :
  decode_any kdfparams = OK params ->
  decode_any version = OK v ->
  exists kv,
    Unmarshal_map (document a c ct iv kdf kdfparams mac id version) = OK kv /\
    map_lookup "version" kv = Some v.
Proof.
  intros Hp Hv. unfold Unmarshal_map, document, decode_map.
  cbn [traverse decode_member decode_any bind]. rewrite Hp. cbn [bind]. rewrite Hv.
  eexists; split; reflexivity.
Qed.

(** The members of an object decode into a map exactly when the object
    decodes into an [interface{}]. *)
Lemma decode_any_object (ms : list (string * json)) (m : gomap) :
  decode_map [] (JObject ms) = OK m -> decode_any (JObject ms) = OK (AnyMap m).
Proof.
  cbn [decode_map decode_any]. fold decode_member.
  destruct (traverse decode_member ms) as [l | e | msg]; cbn [bind]; try discriminate.
  rewrite app_nil_r. now intros [= <-].
Qed.

Lemma Unmarshal_general (a c ct iv kdf : string) (kdfparams : json) (m : gomap)
    (mac id : string) (n : Z) :
  (min_int64 <= n < 2 ^ 63)%Z ->
  decode_map [] kdfparams = OK m ->
  Unmarshal_encryptedKeyJSONV3 (document a c ct iv kdf kdfparams mac id (JNumber (IntLit n)))
  = OK (record a c ct iv kdf m mac id n).
Proof.
  intros [H1 H2] Hm.
  assert (E : ((min_int64 <=? n) && (n <? 2 ^ 63))%Z = true)
    by (apply andb_true_iff; split; [apply Z.leb_le | apply Z.ltb_lt]; assumption).
  unfold Unmarshal_encryptedKeyJSONV3, document, decode_struct.
  cbn -[decode_map decode_int Z.pow min_int64].
  rewrite Hm. cbn [bind Cipher CipherText CipherParams KDF KDFParams V3_Version].
  unfold decode_int. rewrite E. reflexivity.
Qed.

Lemma Read_general (a c ct iv kdf : string) (kdfparams : list (string * json)) (m : gomap)
    (mac id : string) (n : Z) (password : string) :
  (min_int64 <= n < 2 ^ 63)%Z ->
  decode_map [] (JObject kdfparams) = OK m ->
  Read (document a c ct iv kdf (JObject kdfparams) mac id (JNumber (IntLit n))) password
  = bind (decryptKeyV3 (record a c ct iv kdf m mac id n) password)
      (fun r => OK {| ID := snd r; Address := a; PrivateKey := fst r |}).
Proof.
  intros Hn Hm. unfold Read.
  pose proof (decode_any_object _ _ Hm) as Hp.
  destruct (Unmarshal_map_general a c ct iv kdf (JObject kdfparams) mac id
              (JNumber (IntLit n)) _ _ Hp (decode_any_int n Hn))
    as (kv & -> & Hver).
  cbn [bind]. rewrite Hver.
  rewrite (Unmarshal_general _ _ _ _ _ _ _ _ _ _ Hn Hm). cbn [bind].
  destruct (decryptKeyV3 _ password) as [[keyBytes keyID] | e | msg]; reflexivity.
Qed.

(** *** What Write returns *)

(** The document [Write] returns: the address as JSON carries it, the
    cipher [aes-128-ctr], the private-key bytes encrypted under the
    first half of the derived key, the key derivation [scrypt] with the
    light parameters, the MAC over the second half of the derived key
    and the ciphertext, the id as text, and the version 3.  The salt is
    the first thirty-two bytes read from the random source, the IV the
    next sixteen. *)
Theorem Write_document (key : Key) (password : string) (attrs : option gomap)
    (rand : Reader) (doc : json) :
  Write key password attrs rand = OK doc ->
  exists derivedKey cipherText,
    scrypt_Key (list_byte_of_string password) (map rand (seq 0 32)) 4096 8 6 32
    = OK derivedKey /\
    aesCTRXOR (firstn 16 derivedKey) (PrivateKey key) (map rand (seq 32 16))
    = OK cipherText /\
    doc = document (ToValidUTF8 (Address key)) "aes-128-ctr"
            (hex_EncodeToString cipherText)
            (hex_EncodeToString (map rand (seq 32 16)))
            "scrypt"
            (scrypt_params (hex_EncodeToString (map rand (seq 0 32))))
            (hex_EncodeToString (Keccak256 (firstn 16 (skipn 16 derivedKey) ++ cipherText)))
            (uuid_String (ID key))
            (JNumber (IntLit 3)).
Proof.
  intros HW. destruct (Write_inv _ _ _ _ _ HW) as (dk & ct & Hdk & _ & Hct & ->).
  exists dk, ct. split; [exact Hdk |]. split; [exact Hct | reflexivity].
Qed.

(** *** What Read does not check *)

(** The address and the id of a document are returned as they stand in
    it: with another address, or another id, in the document [Write]
    returned, [Read] returns the private key under that address or
    id. *)
Theorem Read_trusts_address_and_id (key : Key) (password : string)
    (attrs : option gomap) (rand : Reader) (doc : json) (address id : string) :
  Write key password attrs rand = OK doc ->
  Read (with_member "address" (JString address) doc) password
  = OK {| ID := uuid_Parse (uuid_String (ID key)); Address := address;
          PrivateKey := PrivateKey key |} /\
  Read (with_member "id" (JString id) doc) password
  = OK {| ID := uuid_Parse id; Address := ToValidUTF8 (Address key);
          PrivateKey := PrivateKey key |}.
Proof.
  intros HW. destruct (Write_inv _ _ _ _ _ HW) as (dk & ct & Hdk & Hlen & Hct & ->).
  split.
  - change (with_member "address" (JString address)
              (keystore_document ?a ?c ?i ?s ?m ?u ?v))
      with (keystore_document address c i s m u v).
    rewrite (Read_document _ _ _ _ _ _ _ _ three_in_range).
    rewrite (decryptKeyV3_document _ _ _ _ _ _ _ _ _ Hdk).
    now rewrite bytes_Equal_refl, (aesCTRXOR_involutive _ _ _ _ Hct).
  - change (with_member "id" (JString id) (keystore_document ?a ?c ?i ?s ?m ?u ?v))
      with (keystore_document a c i s m id v).
    rewrite (Read_document _ _ _ _ _ _ _ _ three_in_range).
    rewrite (decryptKeyV3_document _ _ _ _ _ _ _ _ _ Hdk).
    now rewrite bytes_Equal_refl, (aesCTRXOR_involutive _ _ _ _ Hct).
Qed.

(** The MAC does not cover the IV.  With another IV of sixteen bytes in
    the document [Write] returned, [Read] returns a key without an
    error: the ciphertext decrypted under that IV.  With an IV of
    another length, [Read] panics. *)
Theorem Read_trusts_iv (key : Key) (password : string) (attrs : option gomap)
    (rand : Reader) (doc : json) (iv : list byte) :
  Write key password attrs rand = OK doc ->
  exists derivedKey cipherText,
    Write_derive password rand = OK derivedKey /\
    aesCTRXOR (firstn 16 derivedKey) (PrivateKey key) (Write_iv rand) = OK cipherText /\
    Read (with_iv (hex_EncodeToString iv) doc) password
    = if (List.length iv =? 16)%nat
      then OK {| ID := uuid_Parse (uuid_String (ID key));
                 Address := ToValidUTF8 (Address key);
                 PrivateKey :=
                   xorBytes cipherText
                     (keyStream ((List.length cipherText + 15) / 16)
                        (firstn 16 derivedKey) iv) |}
      else Panic "cipher.NewCTR: IV length must equal block size".
Proof.
  intros HW. destruct (Write_inv _ _ _ _ _ HW) as (dk & ct & Hdk & Hlen & Hct & ->).
  exists dk, ct. split; [exact Hdk |]. split; [exact Hct |].
  change (with_iv (hex_EncodeToString iv) (keystore_document ?a ?c ?i ?s ?m ?u ?v))
    with (keystore_document a c (hex_EncodeToString iv) s m u v).
  rewrite (Read_document _ _ _ _ _ _ _ _ three_in_range).
  rewrite (decryptKeyV3_document _ _ _ _ _ _ _ _ _ Hdk).
  rewrite bytes_Equal_refl. unfold aesCTRXOR.
  rewrite length_firstn, Hlen. cbn [Nat.min Nat.eqb orb negb].
  destruct (List.length iv =? 16)%nat; reflexivity.
Qed.

(** *** What Read refuses *)

(** With another MAC in the document [Write] returned, [Read] fails
    with [ErrDecrypt]; so it does with another ciphertext, unless the
    hash of the other ciphertext collides. *)
Theorem Read_detects_changes (key : Key) (password : string) (attrs : option gomap)
    (rand : Reader) (doc : json) (mac cipherText' : list byte) :
  Write key password attrs rand = OK doc ->
  exists derivedKey cipherText,
    Write_derive password rand = OK derivedKey /\
    aesCTRXOR (firstn 16 derivedKey) (PrivateKey key) (Write_iv rand) = OK cipherText /\
    (mac <> Keccak256 (macKey derivedKey ++ cipherText) ->
     Read (with_crypto_member "mac" (JString (hex_EncodeToString mac)) doc) password
     = Err (ErrDecrypt (Keccak256 (macKey derivedKey ++ cipherText)) mac)) /\
    (Keccak256 (macKey derivedKey ++ cipherText')
     <> Keccak256 (macKey derivedKey ++ cipherText) ->
     Read (with_crypto_member "ciphertext" (JString (hex_EncodeToString cipherText')) doc)
       password
     = Err (ErrDecrypt (Keccak256 (macKey derivedKey ++ cipherText'))
                       (Keccak256 (macKey derivedKey ++ cipherText)))).
Proof.
  intros HW. destruct (Write_inv _ _ _ _ _ HW) as (dk & ct & Hdk & Hlen & Hct & ->).
  exists dk, ct. split; [exact Hdk |]. split; [exact Hct |]. split.
  - intros Hne.
    change (with_crypto_member "mac" (JString (hex_EncodeToString mac))
              (keystore_document ?a ?c ?i ?s ?m ?u ?v))
      with (keystore_document a c i s (hex_EncodeToString mac) u v).
    rewrite (Read_document _ _ _ _ _ _ _ _ three_in_range).
    rewrite (decryptKeyV3_document _ _ _ _ _ _ _ _ _ Hdk).
    rewrite bytes_Equal_false by congruence. reflexivity.
  - intros Hne.
    change (with_crypto_member "ciphertext" (JString (hex_EncodeToString cipherText'))
              (keystore_document ?a ?c ?i ?s ?m ?u ?v))
      with (keystore_document a (hex_EncodeToString cipherText') i s m u v).
    rewrite (Read_document _ _ _ _ _ _ _ _ three_in_range).
    rewrite (decryptKeyV3_document _ _ _ _ _ _ _ _ _ Hdk).
    rewrite bytes_Equal_false by exact Hne. reflexivity.
Qed.


(** A value that is no hexadecimal text, in the place of the MAC, the
    IV, the ciphertext or the salt of the document [Write] returned,
    makes [Read] fail with the error of [hex.DecodeString], under any
    password. *)
Theorem Read_reports_bad_hex (key : Key) (password password' : string)
    (attrs : option gomap) (rand : Reader) (doc : json) (s : string) (e : error) :
  Write key password attrs rand = OK doc ->
  hex_DecodeString s = Err e ->
  Read (with_crypto_member "mac" (JString s) doc) password' = Err e /\
  Read (with_iv s doc) password' = Err e /\
  Read (with_crypto_member "ciphertext" (JString s) doc) password' = Err e /\
  Read (with_kdfparam "salt" (JString s) doc) password' = Err e.
Proof.
  intros HW Hs. destruct (Write_inv _ _ _ _ _ HW) as (dk & ct & Hdk & Hlen & Hct & ->).
  repeat split.
  - change (with_crypto_member "mac" (JString s) (keystore_document ?a ?c ?i ?sa ?m ?u ?v))
      with (keystore_document a c i sa s u v).
    rewrite (Read_document _ _ _ _ _ _ _ _ three_in_range).
    unfold decryptKeyV3.
    cbn [keystore_record V3_Crypto Cipher MAC String.eqb Ascii.eqb Bool.eqb negb].
    now rewrite Hs.
  - change (with_iv s (keystore_document ?a ?c ?i ?sa ?m ?u ?v))
      with (keystore_document a c s sa m u v).
    rewrite (Read_document _ _ _ _ _ _ _ _ three_in_range).
    unfold decryptKeyV3.
    cbn [keystore_record V3_Crypto Cipher MAC CipherParams IV
         String.eqb Ascii.eqb Bool.eqb negb].
    now rewrite hex_DecodeString_EncodeToString, Hs.
  - change (with_crypto_member "ciphertext" (JString s)
              (keystore_document ?a ?c ?i ?sa ?m ?u ?v))
      with (keystore_document a s i sa m u v).
    rewrite (Read_document _ _ _ _ _ _ _ _ three_in_range).
    unfold decryptKeyV3.
    cbn [keystore_record V3_Crypto Cipher MAC CipherParams IV CipherText
         String.eqb Ascii.eqb Bool.eqb negb].
    now rewrite !hex_DecodeString_EncodeToString, Hs.
  - change (with_kdfparam "salt" (JString s) (keystore_document ?a ?c ?i ?sa ?m ?u ?v))
      with (keystore_document a c i s m u v).
    rewrite (Read_document _ _ _ _ _ _ _ _ three_in_range).
    unfold decryptKeyV3, getKDFKey.
    cbn [keystore_record V3_Crypto Cipher MAC CipherParams IV CipherText KDFParams
         map_lookup assert_string String.eqb Ascii.eqb Bool.eqb negb].
    rewrite !hex_DecodeString_EncodeToString. cbn [bind]. now rewrite Hs.
Qed.

Lemma map_lookup_app (key : string) (m1 m2 : gomap) :
  map_lookup key (m1 ++ m2)
  = match map_lookup key m1 with
    | Some v => Some v
    | None => map_lookup key m2
    end.
Proof.
  induction m1 as [| [k v] m1 IH]; [reflexivity |].
  cbn [app map_lookup]. destruct (String.eqb k key); [reflexivity | exact IH].
Qed.

Lemma traverse_absent (key : string) (ms : list (string * json)) :
  forallb (fun kv => negb (String.eqb (fst kv) key)) ms = true ->
  forall l, traverse decode_member ms = OK l -> map_lookup key (rev l) = None.
Proof.
  induction ms as [| [k v] ms IH]; intros Hms l Hl.
  - injection Hl as <-. reflexivity.
  - cbn [forallb fst] in Hms. apply andb_true_iff in Hms as [Hk Hms].
    cbn [traverse decode_member] in Hl.
    destruct (decode_any v) as [x | e | msg]; cbn [bind] in Hl; try discriminate.
    destruct (traverse decode_member ms) as [l' | e | msg]; cbn [bind] in Hl;
      try discriminate.
    injection Hl as <-. cbn [rev].
    rewrite map_lookup_app, (IH Hms l' eq_refl). cbn [map_lookup].
    apply negb_true_iff in Hk. now rewrite Hk.
Qed.

(** A document whose [kdfparams] have no member [salt] makes [Read]
    panic, under any password: the salt is taken from the parameters by
    a type assertion, before the key derivation is looked at.  Where
    the parameters hold a number that is no [float64], [Read] has
    returned the decoder's error before. *)
Theorem Read_panics_without_salt (key : Key) (password password' : string)
    (attrs : option gomap) (rand : Reader) (doc : json) (params : list (string * json)) :
  Write key password attrs rand = OK doc ->
  forallb (fun kv => negb (String.eqb (fst kv) "salt")) params = true ->
  Read (with_crypto_member "kdfparams" (JObject params) doc) password'
  = match decode_map [] (JObject params) with
    | OK _ => Panic "interface conversion: interface {} is not string"
    | Err e => Err e
    | Panic msg => Panic msg
    end.
Proof.
  intros HW Hsalt. destruct (Write_inv _ _ _ _ _ HW) as (dk & ct & Hdk & Hlen & Hct & ->).
  change (with_crypto_member "kdfparams" (JObject params)
            (keystore_document ?a ?c ?i ?sa ?m ?u ?v))
    with (document a "aes-128-ctr" c i "scrypt" (JObject params) m u v).
  destruct (decode_map [] (JObject params)) as [m | e | msg] eqn:Hm.
  - rewrite (Read_general _ _ _ _ _ _ _ _ _ _ _ three_in_range Hm).
    unfold decryptKeyV3, getKDFKey.
    cbn [record V3_Crypto Cipher MAC CipherParams IV CipherText KDFParams
         String.eqb Ascii.eqb Bool.eqb negb].
    rewrite !hex_DecodeString_EncodeToString. cbn [bind].
    cbn [decode_map] in Hm.
    destruct (traverse decode_member params) as [l | e | msg] eqn:Hl; cbn [bind] in Hm;
      try discriminate.
    injection Hm as <-.
    rewrite map_lookup_app, (traverse_absent _ _ Hsalt l Hl). reflexivity.
  - cbn [decode_map] in Hm.
    destruct (traverse decode_member params) as [l | e' | msg] eqn:Hl; cbn [bind] in Hm;
      try discriminate.
    injection Hm as <-.
    unfold Read, Unmarshal_map, document, decode_map.
    cbn [traverse decode_member decode_any bind]. fold decode_member.
    rewrite Hl. reflexivity.
  - cbn [decode_map] in Hm.
    destruct (traverse decode_member params) as [l | e' | msg'] eqn:Hl; cbn [bind] in Hm;
      try discriminate.
    injection Hm as <-.
    unfold Read, Unmarshal_map, document, decode_map.
    cbn [traverse decode_member decode_any bind]. fold decode_member.
    rewrite Hl. reflexivity.
Qed.

(** A cipher other than [aes-128-ctr], or a key derivation that
    [KdfTypeName] does not list, in the document [Write] returned makes
    [Read] fail with the error that names it, under any password. *)
Theorem Read_refuses_unsupported (key : Key) (password password' : string)
    (attrs : option gomap) (rand : Reader) (doc : json) (name : string) :
  Write key password attrs rand = OK doc ->
  (name <> "aes-128-ctr" ->
   Read (with_crypto_member "cipher" (JString name) doc) password' = Err (ErrCipher name)) /\
  (~ In name KdfTypeName ->
   Read (with_crypto_member "kdf" (JString name) doc) password'
   = Err (ErrUnsupportedKDF name)).
Proof.
  intros HW. destruct (Write_inv _ _ _ _ _ HW) as (dk & ct & Hdk & Hlen & Hct & ->).
  split.
  - intros Hne.
    change (with_crypto_member "cipher" (JString name)
              (keystore_document ?a ?c ?i ?sa ?m ?u ?v))
      with (document a name c i "scrypt" (scrypt_params sa) m u v).
    unfold scrypt_params.
    erewrite Read_general; [| exact three_in_range | reflexivity].
    unfold decryptKeyV3. cbn [record V3_Crypto Cipher].
    destruct (String.eqb name "aes-128-ctr") eqn:E; [| reflexivity].
    apply String.eqb_eq in E. contradiction.
  - intros Hout.
    assert (H1 : String.eqb name scryptKDFName = false).
    { apply String.eqb_neq. intros ->. apply Hout. now left. }
    assert (H2 : String.eqb name "pbkdf2" = false).
    { apply String.eqb_neq. intros ->. apply Hout. right. now left. }
    change (with_crypto_member "kdf" (JString name)
              (keystore_document ?a ?c ?i ?sa ?m ?u ?v))
      with (document a "aes-128-ctr" c i name (scrypt_params sa) m u v).
    unfold scrypt_params.
    erewrite Read_general; [| exact three_in_range | reflexivity].
    unfold decryptKeyV3, getKDFKey.
    cbn [record V3_Crypto Cipher MAC CipherParams IV CipherText KDFParams KDF
         String.eqb Ascii.eqb Bool.eqb negb].
    rewrite !hex_DecodeString_EncodeToString. cbn [bind].
    cbn [rev map app map_lookup decode_any String.eqb Ascii.eqb Bool.eqb
         assert_string bind].
    rewrite hex_DecodeString_EncodeToString. cbn [bind ensureInt].
    now rewrite H1, H2.
Qed.


(** *** The attributes of Write *)

(** [Write] asserts that the attributes [ScryptN] and [ScryptP], where
    present, hold [int]s, and uses neither: with [int]s or without the
    attributes it returns what it returns without any attribute; with
    another value in one of them it panics. *)
Theorem Write_attrs (key : Key) (password : string) (attrs : gomap) (rand : Reader) :
  Write key password (Some attrs) rand
  = if int_or_absent (map_lookup "ScryptN" attrs)
       && int_or_absent (map_lookup "ScryptP" attrs)
    then Write key password None rand
    else Panic "interface conversion: interface {} is not int".
Proof.
  unfold Write, shadowed_int_attr, int_or_absent.
  destruct (map_lookup "ScryptN" attrs) as [[] |];
    destruct (map_lookup "ScryptP" attrs) as [[] |]; reflexivity.
Qed.

(** *** Reading a PBKDF2 document *)

(** [Read] decrypts a document whose key derivation is [pbkdf2] with
    [hmac-sha256]: when the ciphertext is the private key encrypted
    under the first half of the PBKDF2 key and the MAC is the hash of
    the second half and the ciphertext, it returns the private key.
    The iteration count reaches [pbkdf2.Key] through a [float64], which
    keeps a count of at most fifty-three bits as it is. *)
Theorem Read_pbkdf2 (address id : string) (privateKey iv salt cipherText : list byte)
    (c : Z) (password : string) :
  (Z.abs c < 2 ^ 53)%Z ->
  let derivedKey := pbkdf2_hmac_sha256 (list_byte_of_string password) salt c 32 in
  aesCTRXOR (firstn 16 derivedKey) privateKey iv = OK cipherText ->
  Read (document address "aes-128-ctr" (hex_EncodeToString cipherText)
          (hex_EncodeToString iv) "pbkdf2"
          (pbkdf2_params c "hmac-sha256" (hex_EncodeToString salt))
          (hex_EncodeToString (Keccak256 (macKey derivedKey ++ cipherText)))
          id (JNumber (IntLit 3))) password
  = OK {| ID := uuid_Parse id; Address := address; PrivateKey := privateKey |}.
Proof.
  intros Hc derivedKey Hct.
  assert (Hlen : List.length derivedKey = 32%nat)
    by (unfold derivedKey; rewrite pbkdf2_hmac_sha256_length; [reflexivity | lia]).
  assert (Hm : decode_map []
                 (JObject [ ("c", JNumber (IntLit c));
                            ("dklen", JNumber (IntLit 32));
                            ("prf", JString "hmac-sha256");
                            ("salt", JString (hex_EncodeToString salt)) ])
               = OK [ ("salt", AnyString (hex_EncodeToString salt));
                      ("prf", AnyString "hmac-sha256");
                      ("dklen", AnyFloat64 (float64_of_Z 32));
                      ("c", AnyFloat64 (float64_of_Z c)) ]).
  { cbn [decode_map traverse decode_member decode_any bind].
    rewrite !float64_of_number_int by (unfold min_int64; lia). reflexivity. }
  unfold pbkdf2_params.
  rewrite (Read_general _ _ _ _ _ _ _ _ _ _ _ three_in_range Hm).
  unfold decryptKeyV3. cbn [record V3_Crypto V3_ID Cipher MAC CipherParams IV CipherText].
  change (String.eqb "aes-128-ctr" "aes-128-ctr") with true. cbn [negb].
  rewrite !hex_DecodeString_EncodeToString. cbn [bind].
  assert (Hkdf : getKDFKey
                   {| Cipher := "aes-128-ctr"; CipherText := hex_EncodeToString cipherText;
                      CipherParams := {| IV := hex_EncodeToString iv |};
                      KDF := "pbkdf2";
                      KDFParams :=
                        [ ("salt", AnyString (hex_EncodeToString salt));
                          ("prf", AnyString "hmac-sha256");
                          ("dklen", AnyFloat64 (float64_of_Z 32));
                          ("c", AnyFloat64 (float64_of_Z c)) ];
                      MAC := hex_EncodeToString (Keccak256 (macKey derivedKey ++ cipherText)) |}
                   password
                 = OK derivedKey).
  { unfold getKDFKey. cbn [KDFParams KDF].
    change (map_lookup "salt" _) with (Some (AnyString (hex_EncodeToString salt))).
    cbn [assert_string bind]. rewrite hex_DecodeString_EncodeToString. cbn [bind].
    change (map_lookup "dklen" _) with (Some (AnyFloat64 (float64_of_Z 32))).
    change (map_lookup "c" _) with (Some (AnyFloat64 (float64_of_Z c))).
    change (map_lookup "prf" _) with (Some (AnyString "hmac-sha256")).
    cbn [ensureInt bind assert_string].
    rewrite (int_of_float64_of_Z c Hc).
    change (int_of_float64 (float64_of_Z 32)) with 32%Z.
    change (String.eqb "pbkdf2" scryptKDFName) with false.
    change (String.eqb "pbkdf2" "pbkdf2") with true.
    change (String.eqb "hmac-sha256" "hmac-sha256") with true.
    cbn [negb]. rewrite pbkdf2_Key_OK by (change maxAlloc with 281474976710656%Z; lia).
    reflexivity. }
  rewrite Hkdf. cbn [bind].
  rewrite !slice_OK by lia. cbn [bind Nat.sub skipn].
  fold (macKey derivedKey). rewrite bytes_Equal_refl. cbn [negb].
  now rewrite (aesCTRXOR_involutive _ _ _ _ Hct).
Qed.

End CodecFacts.

(** *** The small implementation satisfies the laws *)

Lemma pad_to_length (n : nat) (s : list byte) : List.length (Toy.pad_to n s) = n.
Proof.
  unfold Toy.pad_to. rewrite length_firstn, length_app, repeat_length. lia.
Qed.

Lemma toy_laws : PrimitiveLaws Toy.primitives.
Proof.
  constructor.
  - intros password salt N r p keyLen key H. injection H as <-. apply pad_to_length.
  - intros key block. exact (pad_to_length 16 _).
  - intros id _. exact (f_equal (fun r => match r with OK v => v | _ => [] end)
                          (hex_DecodeString_EncodeToString id)).
  - intros id. exact (ToValidUTF8_hex id).
  - intros password salt c keyLen _. exact (pad_to_length _ _).
Qed.

(** *** The claims at concrete inputs *)

Lemma Read_Write_roundtrip_witness :
  Write (P := Toy.primitives) Toy.key1 "pw" None Toy.zeros = OK Toy.doc1 /\
  Read (P := Toy.primitives) Toy.doc1 "pw" = OK Toy.key1.
Proof.
  split; [reflexivity |].
  apply (Read_Write_roundtrip (P := Toy.primitives) (L := toy_laws)
           Toy.key1 "pw" None Toy.zeros Toy.doc1); reflexivity.
Defined.



(** A private key of thirty-one bytes: the ciphertext has thirty-one
    bytes. *)
Lemma Write_encrypts_unpadded_witness :
  Write (P := Toy.primitives) Toy.key_short "pw" None Toy.zeros = OK Toy.doc_short /\
  exists cipherText crypto,
    member "crypto" Toy.doc_short = Some crypto /\
    member "ciphertext" crypto = Some (JString (hex_EncodeToString cipherText)) /\
    List.length cipherText = 31%nat.
Proof.
  split; [reflexivity |].
  destruct (Write_encrypts_unpadded (P := Toy.primitives) (L := toy_laws)
              Toy.key_short "pw" None Toy.zeros Toy.doc_short eq_refl)
    as (dk & ct & crypto & _ & _ & Hcrypto & Hct & Hlen).
  exists ct, crypto. split; [exact Hcrypto |]. split; [exact Hct | exact Hlen].
Defined.

(** The document of [key1] with [version] set to the number 4. *)
Lemma Read_ignores_numeric_version_witness :
  Read (P := Toy.primitives) (with_version (JNumber (IntLit 4)) Toy.doc1) "pw"
  = OK Toy.key1.
Proof.
  apply (Read_ignores_numeric_version (P := Toy.primitives) (L := toy_laws)
           Toy.key1 "pw" None Toy.zeros Toy.doc1 4);
    [unfold min_int64; lia | reflexivity | reflexivity | reflexivity].
Defined.

(** The parameters [dklen] 32 and [c] 262144, as decoded from a
    document, under two names of a [prf]. *)
Lemma getKDFKey_pbkdf2_witness :
  getKDFKey (P := Toy.primitives) (Toy.pbkdf2_crypto "hmac-sha1") "pw"
  = Err (ErrUnsupportedPRF "hmac-sha1") /\
  exists key,
    getKDFKey (P := Toy.primitives) (Toy.pbkdf2_crypto "hmac-sha256") "pw" = OK key /\
    List.length key = 32%nat.
Proof.
  assert (Hdklen : holds_integer (Some (AnyFloat64 32%float)) 32)
    by (right; split; reflexivity).
  assert (Hc : holds_integer (Some (AnyFloat64 262144%float)) 262144)
    by (right; split; reflexivity).
  split.
  - apply (getKDFKey_pbkdf2 (P := Toy.primitives) (L := toy_laws)
             (Toy.pbkdf2_crypto "hmac-sha1") "pw" "ab" "hmac-sha1" [xab] 32 262144
             eq_refl eq_refl eq_refl Hdklen Hc eq_refl).
    discriminate.
  - destruct (proj1 (proj2 (getKDFKey_pbkdf2 (P := Toy.primitives) (L := toy_laws)
                              (Toy.pbkdf2_crypto "hmac-sha256") "pw" "ab" "hmac-sha256"
                              [xab] 32 262144
                              eq_refl eq_refl eq_refl Hdklen Hc eq_refl))
                eq_refl)
      as (key & Hkey & _ & Hlen).
    + change maxAlloc with 281474976710656%Z. lia.
    + exists key. split; [exact Hkey | exact Hlen].
Defined.

(** *** More on the codec *)

(** [aesCTRXOR] under the same key and IV undoes itself, and keeps the
    length of its input. *)
Theorem aesCTRXOR_decrypts {P : Primitives} {L : PrimitiveLaws P}
    (key inText iv outText : list byte) :
  aesCTRXOR key inText iv = OK outText ->
  aesCTRXOR key outText iv = OK inText /\ List.length outText = List.length inText.
Proof.
  intros H. split; [exact (aesCTRXOR_involutive _ _ _ _ H) | exact (aesCTRXOR_length _ _ _ _ H)].
Qed.

Lemma aesCTRXOR_decrypts_witness :
  exists outText,
    aesCTRXOR (P := Toy.primitives) (repeat x07 16) [x01; x02; x03] (repeat x00 16)
    = OK outText /\
    aesCTRXOR (P := Toy.primitives) (repeat x07 16) outText (repeat x00 16)
    = OK [x01; x02; x03] /\
    List.length outText = 3%nat.
Proof.
  eexists. split; [reflexivity |].
  exact (aesCTRXOR_decrypts (P := Toy.primitives) (L := toy_laws)
           (repeat x07 16) [x01; x02; x03] (repeat x00 16) _ eq_refl).
Defined.

(** A document whose member [version] is a string other than ["3"]:
    the document of [key1] with the version ["4"]. *)
Lemma Read_refuses_version_string_witness :
  Read (P := Toy.primitives) (with_version (JString "4") Toy.doc1) "pw" = Err ErrVersion.
Proof.
  eapply (Read_refuses_version_string (P := Toy.primitives));
    [vm_compute; reflexivity | vm_compute; reflexivity | discriminate].
Defined.

(** A document with a number out of the range of [float64] does not get
    as far as the version check: [Read] returns the decoder's error. *)
Example Read_number_out_of_range :
  Read (P := Toy.primitives)
    (JObject [ ("version", JString "4"); ("big", JNumber (IntLit (10 ^ 309))) ]) "pw"
  = Err (type_error "float64").
Proof. vm_compute. reflexivity. Qed.



(** *** More theorems at concrete inputs *)

(** The document of [key1]: salt and IV are the zero bytes the source
    [zeros] delivers. *)
Lemma Write_document_witness :
  exists cipherText mac : list byte,
    Toy.doc1
    = document "00a329c0648769a73afac7f9381e08fb43dbea72" "aes-128-ctr"
        (hex_EncodeToString cipherText) (hex_EncodeToString (repeat x00 16)) "scrypt"
        (scrypt_params (hex_EncodeToString (repeat x00 32)))
        (hex_EncodeToString mac) (hex_EncodeToString (repeat x11 16)) (JNumber (IntLit 3)).
Proof.
  destruct (Write_document (P := Toy.primitives) (L := toy_laws)
              Toy.key1 "pw" None Toy.zeros Toy.doc1 eq_refl)
    as (dk & ct & _ & _ & H).
  exists ct, (@Keccak256 Toy.primitives (firstn 16 (skipn 16 dk) ++ ct)).
  exact H.
Defined.

Lemma Read_trusts_address_and_id_witness :
  Read (P := Toy.primitives) (with_member "address" (JString "ffff") Toy.doc1) "pw"
  = OK {| ID := ID Toy.key1; Address := "ffff"; PrivateKey := PrivateKey Toy.key1 |}.
Proof.
  exact (proj1 (Read_trusts_address_and_id (P := Toy.primitives) (L := toy_laws)
                  Toy.key1 "pw" None Toy.zeros Toy.doc1 "ffff" "00" eq_refl)).
Defined.

(** Another IV: a key comes back, with other private-key bytes. *)
Lemma Read_trusts_iv_witness :
  exists key',
    Read (P := Toy.primitives)
      (with_iv (hex_EncodeToString (repeat x01 16)) Toy.doc1) "pw" = OK key' /\
    PrivateKey key' <> PrivateKey Toy.key1.
Proof.
  destruct (Read_trusts_iv (P := Toy.primitives) (L := toy_laws)
              Toy.key1 "pw" None Toy.zeros Toy.doc1 (repeat x01 16) eq_refl)
    as (dk & ct & Hdk & Hct & HR).
  injection Hdk as <-. injection Hct as <-.
  eexists. split; [exact HR |]. vm_compute. discriminate.
Defined.

Lemma Read_detects_changes_witness :
  exists calculatedMAC,
    Read (P := Toy.primitives)
      (with_crypto_member "mac" (JString (hex_EncodeToString [x00])) Toy.doc1) "pw"
    = Err (ErrDecrypt calculatedMAC [x00]).
Proof.
  destruct (Read_detects_changes (P := Toy.primitives) (L := toy_laws)
              Toy.key1 "pw" None Toy.zeros Toy.doc1 [x00] [] eq_refl)
    as (dk & ct & Hdk & Hct & Hmac & _).
  injection Hdk as <-. injection Hct as <-.
  eexists. apply Hmac. vm_compute. discriminate.
Defined.

Lemma Read_reports_bad_hex_witness :
  Read (P := Toy.primitives) (with_crypto_member "mac" (JString "zz") Toy.doc1) "other"
  = Err (ErrHexInvalidByte x7a).
Proof.
  exact (proj1 (Read_reports_bad_hex (P := Toy.primitives) (L := toy_laws)
                  Toy.key1 "pw" "other" None Toy.zeros Toy.doc1 "zz" (ErrHexInvalidByte x7a)
                  eq_refl eq_refl)).
Defined.

Lemma Read_panics_without_salt_witness :
  Read (P := Toy.primitives)
    (with_crypto_member "kdfparams" (JObject [ ("dklen", JNumber (IntLit 32)) ]) Toy.doc1)
    "pw"
  = Panic "interface conversion: interface {} is not string".
Proof.
  exact (Read_panics_without_salt (P := Toy.primitives) (L := toy_laws)
           Toy.key1 "pw" "pw" None Toy.zeros Toy.doc1 [ ("dklen", JNumber (IntLit 32)) ]
           eq_refl eq_refl).
Defined.

Lemma Read_refuses_unsupported_witness :
  Read (P := Toy.primitives) (with_crypto_member "kdf" (JString "argon2") Toy.doc1) "pw"
  = Err (ErrUnsupportedKDF "argon2").
Proof.
  apply (Read_refuses_unsupported (P := Toy.primitives) (L := toy_laws)
           Toy.key1 "pw" "pw" None Toy.zeros Toy.doc1 "argon2" eq_refl).
  intros [H | [H | []]]; discriminate H.
Defined.

Lemma Read_pbkdf2_witness :
  exists cipherText mac,
    Read (P := Toy.primitives)
      (document "addr" "aes-128-ctr" (hex_EncodeToString cipherText)
         (hex_EncodeToString (repeat x00 16)) "pbkdf2"
         (pbkdf2_params 262144 "hmac-sha256" (hex_EncodeToString [xab]))
         (hex_EncodeToString mac) (hex_EncodeToString (repeat x11 16))
         (JNumber (IntLit 3))) "pw"
    = OK {| ID := repeat x11 16; Address := "addr"; PrivateKey := repeat x2a 32 |}.
Proof.
  eexists. eexists.
  apply (Read_pbkdf2 (P := Toy.primitives) (L := toy_laws)
           "addr" (hex_EncodeToString (repeat x11 16)) (repeat x2a 32) (repeat x00 16)
           [xab] _ 262144 "pw"); [reflexivity |].
  vm_compute. reflexivity.
Defined.

End KeystoreFacts.

(* ================================================================= *)
(** ** Properties of package eth *)

Module EthFacts.

Import Eth.
Open Scope Z_scope.

(** *** Bytes of a number and back *)

Lemma Z_of_byte_range (b : byte) : 0 <= Z_of_byte b < 256.
Proof.
  unfold Z_of_byte. pose proof (Byte.to_N_bounded b) as H. lia.
Qed.

Lemma Z_of_byte_of_Z (z : Z) : 0 <= z < 256 -> Z_of_byte (byte_of_Z z) = z.
Proof.
  intros Hz. unfold byte_of_Z, Z_of_byte. rewrite Z.mod_small by lia.
  destruct (Byte.of_N (Z.to_N z)) as [b |] eqn:E.
  - apply Byte.to_of_N in E. rewrite E. lia.
  - apply Byte.of_N_None_iff in E. lia.
Qed.

Lemma Z_of_byte_zero (b : byte) : Z_of_byte b = 0 -> b = x00.
Proof.
  intros H. unfold Z_of_byte in H.
  assert (E : Byte.to_N b = 0%N) by lia.
  apply (f_equal Byte.of_N) in E. rewrite Byte.of_to_N in E. now injection E.
Qed.

Lemma le_value_nonneg (l : list byte) : 0 <= le_value l.
Proof.
  induction l as [| b l IH]; cbn [le_value]; [lia |].
  pose proof (Z_of_byte_range b). lia.
Qed.

Lemma SetBytes_fold (buf : list byte) (acc : Z) :
  fold_left (fun acc b => acc * 256 + Z_of_byte b) buf acc
  = acc * 256 ^ Z.of_nat (List.length buf) + big_Int_SetBytes buf.
Proof.
  unfold big_Int_SetBytes. revert acc.
  induction buf as [| b buf IH]; intros acc.
  - cbn. lia.
  - cbn [fold_left List.length]. rewrite (IH (acc * 256 + Z_of_byte b)), (IH (0 * 256 + _)).
    rewrite Nat2Z.inj_succ, Z.pow_succ_r by lia. ring.
Qed.

Lemma SetBytes_app (buf : list byte) (b : byte) :
  big_Int_SetBytes (buf ++ [b]) = big_Int_SetBytes buf * 256 + Z_of_byte b.
Proof. unfold big_Int_SetBytes. now rewrite fold_left_app. Qed.

Lemma SetBytes_rev (l : list byte) : big_Int_SetBytes (rev l) = le_value l.
Proof.
  induction l as [| b l IH]; [reflexivity |].
  cbn [rev le_value]. rewrite SetBytes_app, IH. ring.
Qed.

Lemma N_mod_range (n : N) : 0 <= Z.of_N (n mod 256) < 256.
Proof.
  split; [apply N2Z.is_nonneg |].
  change 256 with (Z.of_N 256). apply N2Z.inj_lt. now apply N.mod_upper_bound.
Qed.

Lemma N_div_mod_Z (n : N) : Z.of_N n = Z.of_N (n mod 256) + 256 * Z.of_N (n / 256).
Proof.
  rewrite (N.div_mod' n 256) at 1. rewrite N2Z.inj_add, N2Z.inj_mul.
  change (Z.of_N 256) with 256. ring.
Qed.

Lemma le_bytes_value (fuel : nat) :
  forall n : N, (n < 256 ^ N.of_nat fuel)%N -> le_value (le_bytes fuel n) = Z.of_N n.
Proof.
  induction fuel as [| fuel IH]; intros n Hn.
  - cbn in Hn. assert (n = 0%N) by lia. now subst.
  - cbn [le_bytes]. destruct (n =? 0)%N eqn:E.
    + apply N.eqb_eq in E. now subst.
    + cbn [le_value].
      rewrite Nat2N.inj_succ, N.pow_succ_r' in Hn.
      rewrite IH by (apply N.Div0.div_lt_upper_bound; exact Hn).
      rewrite Z_of_byte_of_Z by apply N_mod_range.
      symmetry. apply N_div_mod_Z.
Qed.

Lemma le_bytes_length (fuel : nat) :
  forall (n : N) (k : nat),
    (n < 256 ^ N.of_nat k)%N -> (List.length (le_bytes fuel n) <= k)%nat.
Proof.
  induction fuel as [| fuel IH]; intros n k Hn; [cbn; lia |].
  cbn [le_bytes]. destruct (n =? 0)%N eqn:E; [cbn; lia |].
  apply N.eqb_neq in E.
  destruct k as [| k]; [cbn in Hn; lia |].
  rewrite Nat2N.inj_succ, N.pow_succ_r' in Hn.
  cbn [List.length]. apply le_n_S, IH, N.Div0.div_lt_upper_bound. exact Hn.
Qed.

Lemma canonical_tail (b : byte) (l : list byte) : canonical (b :: l) -> canonical l.
Proof. unfold canonical. destruct l as [| c l]; [discriminate | exact (fun H => H)]. Qed.

Lemma le_bytes_canonical (fuel : nat) :
  forall n : N, (n < 256 ^ N.of_nat fuel)%N -> canonical (le_bytes fuel n).
Proof.
  induction fuel as [| fuel IH]; intros n Hn; [discriminate |].
  cbn [le_bytes]. destruct (n =? 0)%N eqn:E; [discriminate |].
  apply N.eqb_neq in E.
  rewrite Nat2N.inj_succ, N.pow_succ_r' in Hn.
  assert (Hq : (n / 256 < 256 ^ N.of_nat fuel)%N)
    by (apply N.Div0.div_lt_upper_bound; exact Hn).
  specialize (IH _ Hq). unfold canonical in *.
  destruct (le_bytes fuel (n / 256)) as [| c r] eqn:Er; [| exact IH].
  cbn [last]. intros Hb.
  assert (Hv : le_value (le_bytes fuel (n / 256)) = Z.of_N (n / 256))
    by now apply le_bytes_value.
  rewrite Er in Hv. cbn [le_value] in Hv.
  apply (f_equal Z_of_byte) in Hb.
  rewrite Z_of_byte_of_Z in Hb by apply N_mod_range.
  change (Z_of_byte x00) with 0 in Hb.
  pose proof (N_div_mod_Z n) as Hn'. rewrite Hb, <- Hv in Hn'. lia.
Qed.

Lemma canonical_positive (l : list byte) : l <> [] -> canonical l -> 0 < le_value l.
Proof.
  induction l as [| b l IH]; intros Hne Hc; [contradiction |].
  cbn [le_value]. pose proof (Z_of_byte_range b) as Hb.
  destruct l as [| c l].
  - cbn [le_value]. unfold canonical in Hc. cbn [last] in Hc.
    assert (Z_of_byte b <> 0) by (intros H; apply Hc, Z_of_byte_zero, H). lia.
  - specialize (IH ltac:(discriminate) (canonical_tail _ _ Hc)). lia.
Qed.

(** A number has one canonical list of bytes. *)
Lemma canonical_unique (l1 : list byte) :
  forall l2, canonical l1 -> canonical l2 -> le_value l1 = le_value l2 -> l1 = l2.
Proof.
  induction l1 as [| b1 l1 IH]; intros [| b2 l2] H1 H2 Hv; [reflexivity | | |].
  - pose proof (canonical_positive (b2 :: l2) ltac:(discriminate) H2). cbn [le_value] in *. lia.
  - pose proof (canonical_positive (b1 :: l1) ltac:(discriminate) H1). cbn [le_value] in *. lia.
  - cbn [le_value] in Hv.
    pose proof (Z_of_byte_range b1). pose proof (Z_of_byte_range b2).
    assert (Hb : Z_of_byte b1 = Z_of_byte b2) by lia.
    assert (Hl : le_value l1 = le_value l2) by lia.
    f_equal.
    + unfold Z_of_byte in Hb. apply N2Z.inj in Hb.
      apply (f_equal Byte.of_N) in Hb. rewrite !Byte.of_to_N in Hb. now injection Hb.
    + apply IH; [exact (canonical_tail _ _ H1) | exact (canonical_tail _ _ H2) | exact Hl].
Qed.

Lemma size_fuel (n : N) : (n < 256 ^ N.of_nat (N.to_nat (N.size n)))%N.
Proof.
  rewrite N2Nat.id. eapply N.lt_le_trans; [apply N.size_gt |].
  apply N.pow_le_mono_l. lia.
Qed.

Lemma Bytes_value (d : Z) : 0 <= d -> big_Int_SetBytes (big_Int_Bytes d) = d.
Proof.
  intros Hd. unfold big_Int_Bytes. rewrite SetBytes_rev, le_bytes_value by apply size_fuel.
  lia.
Qed.

Lemma last_rev_hd (l : list byte) (d : byte) : last (rev l) d = hd d l.
Proof.
  destruct l as [| b l]; [reflexivity |]. cbn [rev hd]. apply last_last.
Qed.

Lemma trim_zeros_value (buf : list byte) :
  big_Int_SetBytes (trim_zeros buf) = big_Int_SetBytes buf.
Proof.
  induction buf as [| b buf IH]; [reflexivity |].
  destruct b; try reflexivity.
  cbn [trim_zeros]. rewrite IH. unfold big_Int_SetBytes at 2. cbn [fold_left].
  now rewrite SetBytes_fold.
Qed.

Lemma trim_zeros_hd (buf : list byte) : hd x01 (trim_zeros buf) <> x00.
Proof.
  induction buf as [| b buf IH]; [discriminate |].
  destruct b; try discriminate. exact IH.
Qed.

Lemma SetBytes_Bytes (buf : list byte) :
  big_Int_Bytes (big_Int_SetBytes buf) = trim_zeros buf.
Proof.
  rewrite <- (rev_involutive (trim_zeros buf)). unfold big_Int_Bytes. f_equal.
  apply canonical_unique.
  - apply le_bytes_canonical, size_fuel.
  - unfold canonical. rewrite last_rev_hd. apply trim_zeros_hd.
  - rewrite le_bytes_value by apply size_fuel.
    rewrite <- SetBytes_rev, rev_involutive, trim_zeros_value.
    assert (0 <= big_Int_SetBytes buf)
      by (rewrite <- (rev_involutive buf), SetBytes_rev; apply le_value_nonneg).
    lia.
Qed.


(** *** From one key to the other *)

(** The private-key bytes [ethKeyToKeyStoreKey] hands over are the
    scalar without leading zero bytes: they give the scalar back, their
    first byte is not zero, and a scalar below 256^n has at most [n] of
    them (fewer than thirty-two for a scalar below 2^248, none for
    zero). *)
Theorem ethKeyToKeyStoreKey_bytes (key : Key) (n : nat) :
  0 <= D (PrivateKey key) ->
  let bytes := Keystore.PrivateKey (ethKeyToKeyStoreKey key) in
  big_Int_SetBytes bytes = D (PrivateKey key) /\
  hd x01 bytes <> x00 /\
  (D (PrivateKey key) < 256 ^ Z.of_nat n -> (List.length bytes <= n)%nat).
Proof.
  intros Hd. cbn [ethKeyToKeyStoreKey Keystore.PrivateKey].
  split; [now apply Bytes_value |]. split.
  - unfold big_Int_Bytes. rewrite <- last_rev_hd, rev_involutive.
    apply le_bytes_canonical, size_fuel.
  - intros Hlt. unfold big_Int_Bytes. rewrite length_rev. apply le_bytes_length.
    apply N2Z.inj_lt. rewrite N2Z.inj_pow, nat_N_Z, N2Z.inj_abs_N.
    change (Z.of_N 256) with 256. lia.
Qed.

Lemma ethKeyToKeyStoreKey_bytes_witness :
  (List.length (Keystore.PrivateKey (ethKeyToKeyStoreKey Toy.key_small)) <= 31)%nat.
Proof.
  apply (ethKeyToKeyStoreKey_bytes Toy.key_small 31); [cbn; lia | reflexivity].
Defined.

Section KeyFacts.

Context {P : Keystore.Primitives} {C : Curve}.

Lemma toECDSA_Returned (d : list byte) :
  exists pub, toECDSA d false = Returned {| PublicKey := pub; D := big_Int_SetBytes d |}.
Proof.
  unfold toECDSA. cbn [andb]. destruct (ScalarBaseMult d) as [x y]. now eexists.
Qed.

(** A wallet key made into a keystore key and back is the same key: the
    same id, the same address and the same scalar. *)
Theorem keystoreKeyToEthKey_of_eth_key (key : Key) :
  0 <= D (PrivateKey key) ->
  exists key',
    keystoreKeyToEthKey (ethKeyToKeyStoreKey key) = Returned key' /\
    ID key' = ID key /\ Address key' = Address key /\
    D (PrivateKey key') = D (PrivateKey key).
Proof.
  intros Hd. unfold keystoreKeyToEthKey.
  destruct (toECDSA_Returned (Keystore.PrivateKey (ethKeyToKeyStoreKey key))) as (pub & ->).
  eexists. split; [reflexivity |]. cbn [ID Address PrivateKey D].
  repeat split. cbn [ethKeyToKeyStoreKey Keystore.PrivateKey]. now apply Bytes_value.
Qed.

(** [keystoreKeyToEthKey] takes private-key bytes of any number and
    never fails.  Made into a keystore key again, the key has lost the
    leading zero bytes of its private key and nothing else. *)
Theorem ethKeyToKeyStoreKey_of_keystore_key (key : Keystore.Key) :
  exists key',
    keystoreKeyToEthKey key = Returned key' /\
    ethKeyToKeyStoreKey key'
    = {| Keystore.ID := Keystore.ID key; Keystore.Address := Keystore.Address key;
         Keystore.PrivateKey := trim_zeros (Keystore.PrivateKey key) |}.
Proof.
  unfold keystoreKeyToEthKey.
  destruct (toECDSA_Returned (Keystore.PrivateKey key)) as (pub & ->).
  eexists. split; [reflexivity |].
  unfold ethKeyToKeyStoreKey. cbn [ID Address PrivateKey D]. now rewrite SetBytes_Bytes.
Qed.

(** [KeyFromPrivateKey] takes bytes of any number, the empty list
    among them, and returns no error: the scalar of the key is the
    number the bytes are, big-endian.  With a curve point that marshals
    to at least one byte and a hash of thirty-two bytes, the address is
    forty hexadecimal digits: the last twenty bytes of the hash of the
    marshalled point without its first byte. *)
Theorem KeyFromPrivateKey_key (privateKey : list byte) (rand : Keystore.Reader) :
  let marshalled :=
    elliptic_Marshal (fst (ScalarBaseMult privateKey)) (snd (ScalarBaseMult privateKey)) in
  let hash := Keystore.Keccak256 (skipn 1 marshalled) in
  marshalled <> [] ->
  List.length hash = 32%nat ->
  exists key,
    fst (KeyFromPrivateKey privateKey rand) = Returned key /\
    ID key = fst (uuid_NewRandom rand) /\
    D (PrivateKey key) = big_Int_SetBytes privateKey /\
    hex_DecodeString (Address key) = OK (skipn 12 hash) /\
    String.length (Address key) = 40%nat.
Proof.
  intros marshalled hash Hm Hh. unfold KeyFromPrivateKey, toECDSA. cbn [andb].
  subst hash marshalled.
  destruct (ScalarBaseMult privateKey) as [x y]. cbn [fst snd] in *.
  destruct (uuid_NewRandom rand) as [id rand'].
  unfold pubkeyToAddress, fromECDSAPub, keccak256, slice_from.
  cbn [PublicKey X Y List.concat].
  destruct (elliptic_Marshal x y) as [| b tail] eqn:Em; [contradiction |].
  change (skipn 1 (b :: tail)) with tail in *.
  cbn [List.length Nat.leb]. rewrite app_nil_r, Hh.
  change (12 <=? 32)%nat with true. cbv iota.
  eexists. split; [reflexivity |].
  cbn [ID Address PrivateKey D fst]. repeat split.
  - apply hex_DecodeString_EncodeToString.
  - unfold hex_EncodeToString.
    rewrite string_of_list_byte_length, hex_Encode_length, length_skipn, Hh. reflexivity.
Qed.

Context {L : Keystore.PrimitiveLaws P}.

(** A wallet key written to a keystore document and read back under
    the same password is the same key: the scalar comes back whole,
    also when its bytes are fewer than thirty-two and the document
    holds a shorter ciphertext. *)
Theorem eth_key_through_keystore (key : Key) (password : string)
    (attrs : option Keystore.gomap) (rand : Keystore.Reader) (doc : Keystore.json) :
  0 <= D (PrivateKey key) ->
  List.length (ID key) = 16%nat ->
  Keystore.ToValidUTF8 (Address key) = Address key ->
  Keystore.Write (ethKeyToKeyStoreKey key) password attrs rand = OK doc ->
  exists stored key',
    Keystore.Read doc password = OK stored /\
    keystoreKeyToEthKey stored = Returned key' /\
    ID key' = ID key /\ Address key' = Address key /\
    D (PrivateKey key') = D (PrivateKey key).
Proof.
  intros Hd Hid Haddr HW.
  assert (HR : Keystore.Read doc password = OK (ethKeyToKeyStoreKey key)).
  { destruct (KeystoreFacts.Write_inv _ _ _ _ _ HW) as (dk & ct & Hdk & Hlen & Hct & Hdoc).
    destruct (KeystoreFacts.Read_Write _ password password attrs rand doc 3 dk
                KeystoreFacts.three_in_range HW Hdk)
      as (dk' & ct' & Hdk' & Hct' & HR).
    rewrite Hdk in Hdk'. injection Hdk' as <-.
    rewrite Hct in Hct'. injection Hct' as <-.
    replace (Keystore.with_version (Keystore.JNumber (Keystore.IntLit 3)) doc) with doc in HR
      by (rewrite Hdoc; reflexivity).
    rewrite HR, KeystoreFacts.bytes_Equal_refl,
      (KeystoreFacts.aesCTRXOR_involutive _ _ _ _ Hct).
    cbn [bind]. cbn [ethKeyToKeyStoreKey Keystore.ID Keystore.Address].
    now rewrite (Keystore.uuid_Parse_String _ Hid), Haddr. }
  destruct (keystoreKeyToEthKey_of_eth_key key Hd) as (key' & Hk & H1 & H2 & H3).
  now exists (ethKeyToKeyStoreKey key), key'.
Qed.

End KeyFacts.

(** *** The theorems at concrete inputs *)

Lemma keystoreKeyToEthKey_of_eth_key_witness :
  exists key',
    keystoreKeyToEthKey (C := Toy.curve) (ethKeyToKeyStoreKey Toy.key_small)
    = Returned key' /\
    D (PrivateKey key') = 2 ^ 247 + 5.
Proof.
  destruct (keystoreKeyToEthKey_of_eth_key (C := Toy.curve)
              Toy.key_small ltac:(cbn; lia))
    as (key' & H & _ & _ & Hd).
  exists key'. split; [exact H | exact Hd].
Defined.

Lemma KeyFromPrivateKey_key_witness :
  exists key,
    fst (KeyFromPrivateKey (P := Keystore.Toy.primitives) (C := Toy.curve)
           [x00; x01; x02] Keystore.Toy.zeros) = Returned key /\
    D (PrivateKey key) = 258 /\
    String.length (Address key) = 40%nat.
Proof.
  destruct (KeyFromPrivateKey_key (P := Keystore.Toy.primitives) (C := Toy.curve)
              [x00; x01; x02] Keystore.Toy.zeros ltac:(discriminate) eq_refl)
    as (key & H & _ & Hd & _ & Hlen).
  exists key. split; [exact H |]. split; [exact Hd | exact Hlen].
Defined.

(** The key of 31 bytes: written, read and made a wallet key again. *)
Lemma eth_key_through_keystore_witness :
  exists doc stored key',
    Keystore.Write (P := Keystore.Toy.primitives) (ethKeyToKeyStoreKey Toy.key_small)
      "pw" None Keystore.Toy.zeros = OK doc /\
    List.length (Keystore.PrivateKey (ethKeyToKeyStoreKey Toy.key_small)) = 31%nat /\
    Keystore.Read (P := Keystore.Toy.primitives) doc "pw" = OK stored /\
    keystoreKeyToEthKey (C := Toy.curve) stored = Returned key' /\
    D (PrivateKey key') = 2 ^ 247 + 5.
Proof.
  eexists.
  destruct (eth_key_through_keystore (P := Keystore.Toy.primitives) (C := Toy.curve)
              (L := KeystoreFacts.toy_laws) Toy.key_small "pw" None Keystore.Toy.zeros _
              ltac:(cbn; lia) eq_refl eq_refl eq_refl)
    as (stored & key' & HR & Hk & _ & _ & Hd).
  exists stored, key'. split; [reflexivity |]. split; [reflexivity |].
  split; [exact HR |]. split; [exact Hk | exact Hd].
Defined.

End EthFacts.

(* ================================================================= *)
(** ** Properties of package wif *)

Module WifFacts.

Import Wif.

Lemma Byte_eqb_true (a b : byte) : Byte.eqb a b = true -> a = b.
Proof. intros H. now apply Byte.byte_dec_bl. Qed.

Lemma bytes_Equal_true (a b : list byte) : Keystore.bytes_Equal a b = true -> a = b.
Proof. unfold Keystore.bytes_Equal. now destruct (list_eq_dec _ a b). Qed.

(** A list of thirty-eight bytes: a byte, thirty-two, a byte, four. *)
Lemma split_38 (l : list byte) :
  List.length l = 38%nat ->
  exists key sum,
    l = nth 0 l x00 :: key ++ nth 33 l x00 :: sum /\
    key = firstn 32 (skipn 1 l) /\
    sum = skipn 34 l /\
    firstn 34 l = nth 0 l x00 :: key ++ [nth 33 l x00] /\
    List.length key = 32%nat /\ List.length sum = 4%nat.
Proof.
  intros H.
  do 38 (destruct l as [| ? l]; [discriminate H |]).
  destruct l; [| discriminate H].
  match goal with
  | |- exists key sum, ?l = _ /\ _ => exists (firstn 32 (skipn 1 l)), (skipn 34 l)
  end.
  repeat split.
Qed.

Section FromWIFFacts.

Context {E : Externals}.

(** [FromWIF] returns a key exactly when the text decodes to thirty-eight
    bytes that are [80], the key, [01] and the checksum of the key; the
    key it returns has thirty-two bytes. *)
Theorem FromWIF_key (wif : string) (key : list byte) :
  FromWIF wif = Returned key <->
  List.length key = 32%nat /\
  List.length (checksum key) = 4%nat /\
  base58_Decode wif = OK (x80 :: key ++ x01 :: checksum key).
Proof.
  unfold FromWIF. split.
  - destruct (base58_Decode wif) as [decodedWIF | err | msg]; try discriminate.
    destruct (List.length decodedWIF =? 38)%nat eqn:Hlen; [| discriminate].
    apply Nat.eqb_eq in Hlen. cbn [negb].
    destruct (split_38 _ Hlen) as (k & sum & Hl & Hk & Hs & Hf & Hklen & Hslen).
    destruct (Byte.eqb (nth 0 decodedWIF x00) x80) eqn:H0; [| discriminate].
    destruct (Byte.eqb (nth 33 decodedWIF x00) x01) eqn:H33; [| discriminate].
    apply Byte_eqb_true in H0, H33. cbn [negb]. rewrite Hlen.
    change (38 - 4)%nat with 34%nat. rewrite <- Hs, <- Hk, Hf, H0, H33.
    fold (checksum k).
    destruct (Keystore.bytes_Equal (checksum k) sum) eqn:Hsum; [| discriminate].
    apply bytes_Equal_true in Hsum. cbn [negb]. intros [= <-].
    split; [exact Hklen |]. split; [now rewrite Hsum |].
    rewrite Hl, H0, H33, Hsum. reflexivity.
  - intros (Hklen & Hslen & ->).
    set (l := x80 :: key ++ x01 :: checksum key).
    assert (Hlen : List.length l = 38%nat)
      by (unfold l; cbn [List.length]; rewrite length_app; cbn [List.length]; lia).
    assert (H0 : nth 0 l x00 = x80) by reflexivity.
    assert (H33 : nth 33 l x00 = x01).
    { unfold l. cbn [nth]. rewrite app_nth2 by lia. now rewrite Hklen. }
    assert (Hkey : firstn 32 (skipn 1 l) = key).
    { unfold l. cbn [skipn]. rewrite firstn_app, <- Hklen, firstn_all, Nat.sub_diag.
      cbn [firstn]. apply app_nil_r. }
    assert (Hsum : skipn 34 l = checksum key).
    { unfold l.
      change (skipn 34 (x80 :: ?r)) with (skipn 33 r).
      rewrite skipn_app, Hklen, skipn_all2 by lia. reflexivity. }
    destruct (split_38 _ Hlen) as (k & sum & Hl & Hk & Hs & Hf & _ & _).
    rewrite Hlen, H0, H33. cbn [Nat.eqb Byte.eqb negb].
    change (38 - 4)%nat with 34%nat.
    rewrite Hf, Hsum, Hkey, H0, H33, Hk, Hkey. fold (checksum key).
    now rewrite KeystoreFacts.bytes_Equal_refl.
Qed.

End FromWIFFacts.

(** A key of thirty-two bytes [07] behind [80], before [01] and its
    checksum under the small hash. *)
Lemma FromWIF_key_witness :
  FromWIF (E := Toy.externals)
    (string_of_list_byte (x80 :: repeat x07 32 ++ x01 :: [x80; x07; x07; x07]))
  = Returned (repeat x07 32).
Proof.
  apply (proj2 (FromWIF_key (E := Toy.externals) _ (repeat x07 32))).
  repeat split.
Defined.

End WifFacts.
